(** * MekBay unit search filters: a shallow embedding of
    [src/app/services/unit-search-filters.service.ts]

    Conventions of the embedding.
    - A JavaScript string is a [string]; a character of it stands for one
      UTF-8 byte of the text, so that [encodeURIComponent] is the byte-wise
      percent-encoding.  The delimiters the service looks for are all ASCII.
    - A JavaScript number is an integer [Z]: the numeric fields of a unit and
      the bounds of a range filter are integers here, [NaN] is [None].
    - A JavaScript object used as a dictionary is an association list in
      insertion order, one entry per key ([wellKeyed]); [obj_set] keeps the
      position of a key that exists.  Keys that look like array indices,
      which JavaScript lists first, are not told apart.
    - [Set<T>] is a duplicate-free list in insertion order.
    - A thrown exception is [None].
    - The [value: any] of a filter has one of the three shapes the service
      stores ([FilterValue]); where the service would coerce a value of a
      shape that does not fit the filter's kind, the definition says so.
    - The splitting of the search text into groups and terms and the final
      sort of [filteredUnits] are not part of the embedding: the operations
      take the units the text search has left ([baseUnits]). *)

From Stdlib Require Import ZArith List String Ascii Bool Lia Permutation Arith.
From Stdlib Require Import DecimalString.
Import ListNotations.

Set Implicit Arguments.

Local Open Scope string_scope.
Local Open Scope list_scope.

(* ================================================================== *)
(** ** JavaScript built-ins the service relies on *)
(* ================================================================== *)

Module Js.

(** *** Dictionaries ([Object], [Map]) and sets *)

Section Assoc.
Context {K V : Type}.
Variable keq : K -> K -> bool.

Fixpoint assoc_get (m : list (K * V)) (k : K) : option V :=
  match m with
  | [] => None
  | (k', v) :: r => if keq k' k then Some v else assoc_get r k
  end.

Fixpoint assoc_set (m : list (K * V)) (k : K) (v : V) : list (K * V) :=
  match m with
  | [] => [(k, v)]
  | (k', v') :: r =>
      if keq k' k then (k, v) :: r else (k', v') :: assoc_set r k v
  end.

Fixpoint assoc_delete (m : list (K * V)) (k : K) : list (K * V) :=
  match m with
  | [] => []
  | (k', v') :: r =>
      if keq k' k then assoc_delete r k else (k', v') :: assoc_delete r k
  end.

(** [new Map(pairs)]: a later pair with the same key replaces the value. *)
Definition assoc_of_pairs (ps : list (K * V)) : list (K * V) :=
  fold_left (fun m p => assoc_set m (fst p) (snd p)) ps [].
End Assoc.

Section SetOps.
Context {A : Type}.
Variable aeq : A -> A -> bool.

Definition set_has (s : list A) (x : A) : bool := existsb (aeq x) s.

Definition set_add (s : list A) (x : A) : list A :=
  if set_has s x then s else s ++ [x].

Definition set_delete (s : list A) (x : A) : list A :=
  filter (fun y => negb (aeq x y)) s.

(** [new Set(array)] *)
Definition set_of_list (l : list A) : list A := fold_left set_add l [].
End SetOps.

(** A plain object keyed by strings, as the list of its own entries in
    the order [Object.keys] and [Object.entries] give them: the order in
    which the keys were added.  (An object lists keys that are numerals
    before the others; objects with such keys are outside the
    embedding.) *)
Definition obj (V : Type) := list (string * V).
Definition obj_get {V} (o : obj V) (k : string) : option V :=
  assoc_get String.eqb o k.
Definition obj_set {V} (o : obj V) (k : string) (v : V) : obj V :=
  assoc_set String.eqb o k v.
Definition obj_delete {V} (o : obj V) (k : string) : obj V :=
  assoc_delete String.eqb o k.
Definition obj_keys {V} (o : obj V) : list string := map fst o.

(** [o[k] = v] for a key that is computed, on an object created by [{}]:
    the name [__proto__] reaches the accessor of [Object.prototype], so
    the assignment adds no own key.  ([obj_set] is the assignment under a
    key that is known not to be that name, and the computed key of an
    object literal, which always defines an own key.) *)
Definition obj_assign {V} (o : obj V) (k : string) (v : V) : obj V :=
  if String.eqb k "__proto__" then o else obj_set o k v.

(** *** Strings *)

(** [s.startsWith(p)] *)
Definition startsWith (s p : string) : bool := String.prefix p s.

(** [s.endsWith(c)] for a one-character [c]. *)
Fixpoint endsWithChar (s : string) (c : ascii) : bool :=
  match s with
  | EmptyString => false
  | String a EmptyString => Ascii.eqb a c
  | String _ r => endsWithChar r c
  end.

(** [s.slice(0, -1)] *)
Fixpoint dropLast (s : string) : string :=
  match s with
  | EmptyString => EmptyString
  | String _ EmptyString => EmptyString
  | String a r => String a (dropLast r)
  end.

(** [s.indexOf(c)] for a one-character [c]; [None] is [-1]. *)
Fixpoint indexOfChar (s : string) (c : ascii) : option nat :=
  match s with
  | EmptyString => None
  | String a r =>
      if Ascii.eqb a c then Some 0%nat
      else option_map S (indexOfChar r c)
  end.

(** [s.substring(0, n)] and [s.substring(n)] *)
Fixpoint take (n : nat) (s : string) : string :=
  match n, s with
  | S n', String a r => String a (take n' r)
  | _, _ => EmptyString
  end.

Fixpoint drop (n : nat) (s : string) : string :=
  match n, s with
  | S n', String _ r => drop n' r
  | _, _ => s
  end.

(** [s.split(c)] for a one-character separator. *)
Fixpoint split (c : ascii) (s : string) : list string :=
  match s with
  | EmptyString => [EmptyString]
  | String a r =>
      if Ascii.eqb a c then EmptyString :: split c r
      else match split c r with
           | h :: t => String a h :: t
           | [] => [String a EmptyString]
           end
  end.

(** [parts.join(sep)] *)
Definition join (sep : string) (parts : list string) : string :=
  String.concat sep parts.

(** [hay.indexOf(token, start)]: the least position [>= start] where
    [token] occurs. *)
Fixpoint indexOfAux (hay token : string) (pos : nat) : option nat :=
  if String.prefix token hay then Some pos
  else match hay with
       | EmptyString => None
       | String _ r => indexOfAux r token (S pos)
       end.

Definition indexOf (hay token : string) (start : nat) : option nat :=
  if (start <=? String.length hay)%nat
  then indexOfAux (drop start hay) token start
  else if String.eqb token "" then Some (String.length hay) else None.

End Js.

Import Js.

(* ================================================================== *)
(** ** Data model *)
(* ================================================================== *)

(** A value read from a unit by [(unit as any)[key]]: a scalar or an array
    of scalars; [SNull] stands for [null] and [undefined]. *)
Inductive Scalar : Type :=
| SNull
| SStr (s : string)
| SNum (z : Z).

Inductive PropValue : Type :=
| PScalar (x : Scalar)
| PArr (l : list Scalar).

(** Equality of [Set.has], [Map.get] and [Array.includes]. *)
Definition scalar_eqb (a b : Scalar) : bool :=
  match a, b with
  | SNull, SNull => true
  | SStr s, SStr t => String.eqb s t
  | SNum x, SNum y => Z.eqb x y
  | _, _ => false
  end.

(** [v != null] *)
Definition notNull (v : Scalar) : bool :=
  match v with SNull => false | _ => true end.

Record Component : Type := mkComponent { n : string; q : Z }.

(** The fields of [Unit] the service reads by name, and [prop] for the
    reads by a computed key. *)
Record Unit : Type := mkUnit {
  id : Z;
  bv : Z;
  comp : list Component;
  _chassis : option string;
  _model : option string;
  prop : string -> PropValue
}.

Inductive AdvFilterType : Type := DROPDOWN | RANGE.

Definition AdvFilterType_eqb (a b : AdvFilterType) : bool :=
  match a, b with
  | DROPDOWN, DROPDOWN | RANGE, RANGE => true
  | _, _ => false
  end.

(** [AdvFilterConfig]; [label] and [curve] only reach the view and are
    left out.  An absent optional flag is [false], an absent list [None]. *)
Record AdvFilterConfig : Type := mkConf {
  key : string;
  type : AdvFilterType;
  sortOptions : option (list string);
  external : bool;
  ignoreValues : option (list Z);
  multistate : bool;
  countable : bool
}.

Inductive MultiState : Type := st_or | st_and | st_not | st_off.

Definition MultiState_eqb (a b : MultiState) : bool :=
  match a, b with
  | st_or, st_or | st_and, st_and | st_not, st_not | st_off, st_off => true
  | _, _ => false
  end.

Record SelectionValue : Type := mkSel { state : MultiState; count : Z }.

Definition MultiStateSelection := obj SelectionValue.

(** The [value: any] of a filter: the three shapes the service stores. *)
Inductive FilterValue : Type :=
| VNames (names : list string)
| VSelection (sel : MultiStateSelection)
| VRange (lo hi : Z).

Record FilterEntry : Type := mkEntry {
  value : FilterValue;
  interactedWith : bool
}.

Definition FilterState := obj FilterEntry.

Definition dropdown (k : string) : AdvFilterConfig :=
  mkConf k DROPDOWN None false None false false.
Definition range (k : string) : AdvFilterConfig :=
  mkConf k RANGE None false None false false.

Definition ADVANCED_FILTERS : list AdvFilterConfig :=
  [ mkConf "era" DROPDOWN None true None false false;
    mkConf "faction" DROPDOWN None true None false false;
    dropdown "type";
    dropdown "subtype";
    mkConf "techBase" DROPDOWN (Some ["Inner Sphere"; "Clan"; "Mixed"])
           false None false false;
    dropdown "role";
    mkConf "weightClass" DROPDOWN
           (Some ["Ultra Light*"; "Light"; "Medium"; "Heavy"; "Assault";
                  "Colossal*"; "Small*"; "Medium*"; "Large*"])
           false None false false;
    mkConf "level" DROPDOWN
           (Some ["Introductory"; "Standard"; "Advanced"; "Experimental";
                  "Unofficial"])
           false None false false;
    dropdown "c3";
    dropdown "moveType";
    mkConf "componentName" DROPDOWN None false None true true;
    mkConf "quirks" DROPDOWN None false None true false;
    dropdown "source";
    mkConf "_tags" DROPDOWN None false None true false;
    range "bv";
    range "tons";
    range "armor";
    range "internal";
    range "_mdSumNoPhysical";
    range "dpt";
    mkConf "heat" RANGE None false (Some [(-1)%Z]) false false;
    mkConf "dissipation" RANGE None false (Some [(-1)%Z]) false false;
    range "_maxRange";
    range "walk";
    range "run";
    range "jump";
    range "year";
    range "cost" ].

(** [ADVANCED_FILTERS.find(f => f.key === key)] *)
Definition findConf (k : string) : option AdvFilterConfig :=
  find (fun f => String.eqb (key f) k) ADVANCED_FILTERS.

Definition FACTION_EXTINCT : Z := 3.

(* ================================================================== *)
(** ** Per-record component index *)
(* ================================================================== *)

Record ComponentData : Type := mkComponentData {
  componentNames : list string;
  componentCounts : list (string * Z)
}.

(** [getUnitComponentData]: the [WeakMap] only memoises this value. *)
Definition getUnitComponentData (unit : Unit) : ComponentData :=
  fold_left
    (fun acc component =>
       let name := n component in
       mkComponentData
         (set_add String.eqb (componentNames acc) name)
         (assoc_set String.eqb (componentCounts acc) name
            (match assoc_get String.eqb (componentCounts acc) name with
             | Some c => c
             | None => 0
             end + q component)%Z))
    (comp unit) (mkComponentData [] []).

(* ================================================================== *)
(** ** Tri-state set matcher *)
(* ================================================================== *)

Record NameCount : Type := mkNameCount { nc_name : string; nc_count : Z }.

Record Partition : Type := mkPartition {
  orList : list NameCount;
  andList : list NameCount;
  notSet : list string
}.

Definition partitionSelection (selection : MultiStateSelection) : Partition :=
  fold_left
    (fun acc entry =>
       let '(name, selectionValue) := entry in
       match state selectionValue with
       | st_or =>
           mkPartition (orList acc ++ [mkNameCount name (count selectionValue)])
                       (andList acc) (notSet acc)
       | st_and =>
           mkPartition (orList acc)
                       (andList acc ++ [mkNameCount name (count selectionValue)])
                       (notSet acc)
       | st_not =>
           mkPartition (orList acc) (andList acc)
                       (set_add String.eqb (notSet acc) name)
       | st_off => acc
       end)
    selection (mkPartition [] [] []).

Record UnitData : Type := mkUnitData {
  names : list Scalar;
  counts : option (list (Scalar * Z))
}.

(** [Array.isArray(propValue) ? propValue : [propValue]] *)
Definition asArray (v : PropValue) : list Scalar :=
  match v with PArr l => l | PScalar x => [x] end.

(** [counts.get(name) || 0] *)
Definition countOf (cs : list (Scalar * Z)) (name : Scalar) : Z :=
  match assoc_get scalar_eqb cs name with Some c => c | None => 0%Z end.

Definition unitDataOf (needsQuantityCounting isComponentFilter : bool)
           (k : string) (unit : Unit) : UnitData :=
  if isComponentFilter then
    let cached := getUnitComponentData unit in
    mkUnitData
      (map SStr (componentNames cached))
      (if needsQuantityCounting
       then Some (map (fun p => (SStr (fst p), snd p)) (componentCounts cached))
       else None)
  else
    let unitValues := asArray (prop unit k) in
    mkUnitData
      (set_of_list scalar_eqb (filter notNull unitValues))
      (if needsQuantityCounting
       then Some (fold_left
                    (fun cs v =>
                       if notNull v
                       then assoc_set scalar_eqb cs v (countOf cs v + 1)%Z
                       else cs)
                    unitValues [])
       else None).

(** The callback of [units.filter] in [filterUnitsByMultiState]. *)
Definition multiStateKeeps (needsQuantityCounting : bool)
           (orMap andMap : list (string * Z)) (nots : list string)
           (unitData : UnitData) : bool :=
  if existsb (fun notName => set_has scalar_eqb (names unitData) (SStr notName))
             nots
  then false
  else
    let andOk :=
      match needsQuantityCounting, counts unitData with
      | true, Some cs =>
          forallb (fun e => negb (countOf cs (SStr (fst e)) <? snd e)%Z) andMap
      | _, _ =>
          forallb (fun e => set_has scalar_eqb (names unitData) (SStr (fst e)))
                  andMap
      end in
    if negb andOk then false
    else
      match orMap with
      | [] => true
      | _ :: _ =>
          match needsQuantityCounting, counts unitData with
          | true, Some cs =>
              existsb (fun e => (snd e <=? countOf cs (SStr (fst e)))%Z) orMap
          | _, _ =>
              existsb (fun e => set_has scalar_eqb (names unitData)
                                        (SStr (fst e))) orMap
          end
      end.

Definition filterUnitsByMultiState (units : list Unit) (k : string)
           (selection : MultiStateSelection) : list Unit :=
  let p := partitionSelection selection in
  match orList p, andList p, notSet p with
  | [], [], [] => units
  | _, _, _ =>
      let needsQuantityCounting :=
        existsb (fun item => (1 <? nc_count item)%Z) (orList p ++ andList p) in
      let isComponentFilter := String.eqb k "componentName" in
      let orMap :=
        assoc_of_pairs String.eqb
          (map (fun item => (nc_name item, nc_count item)) (orList p)) in
      let andMap :=
        assoc_of_pairs String.eqb
          (map (fun item => (nc_name item, nc_count item)) (andList p)) in
      filter
        (fun unit =>
           multiStateKeeps needsQuantityCounting orMap andMap (notSet p)
             (unitDataOf needsQuantityCounting isComponentFilter k unit))
        units
  end.

(* ================================================================== *)
(** ** External collaborators *)
(* ================================================================== *)

Record Era : Type := mkEra {
  era_id : Z;
  era_name : string;
  era_units : list Z
}.

(** [faction.eras] maps an era id to the set of unit ids. *)
Record Faction : Type := mkFaction {
  faction_id : Z;
  faction_name : string;
  faction_eras : list (Z * list Z)
}.

(** Modelled from the spec: [DataService] (data.service.ts) is missing.
    It exposes the record list, the eras and the factions, a readiness
    signal, and lookups of an era or a faction by its name. *)
Record DataService : Type := mkDataService {
  isDataReady : bool;
  getUnits : list Unit;
  getEras : list Era;
  getFactions : list Faction
}.

(** Modelled from the spec: [DataService.getEraByName] is missing; the
    lookup by name returns the era that bears the name, if there is one. *)
Definition getEraByName (ds : DataService) (name : string) : option Era :=
  find (fun e => String.eqb (era_name e) name) (getEras ds).

(** Modelled from the spec: [DataService.getFactionByName] is missing; the
    lookup by name returns the faction that bears the name, if there is
    one. *)
Definition getFactionByName (ds : DataService) (name : string)
  : option Faction :=
  find (fun f => String.eqb (faction_name f) name) (getFactions ds).

(** The signals and caches of [UnitSearchFiltersService], apart from the
    filter state, which the operations below take and return. *)
Record Service : Type := mkService {
  dataService : DataService;
  pilotGunnerySkill : Z;
  pilotPilotingSkill : Z;
  totalRangesCache : obj (Z * Z)
}.

Section Pipeline.

(** [BVCalculatorUtil.calculateAdjustedBV], an external formula. *)
Variable calculateAdjustedBV : Z -> Z -> Z -> Z.

Variable this : Service.

(** [get units()] *)
Definition units : list Unit :=
  if isDataReady (dataService this) then getUnits (dataService this) else [].

Definition getAdjustedBV (unit : Unit) : Z :=
  let gunnery := pilotGunnerySkill this in
  let piloting := pilotPilotingSkill this in
  if (gunnery =? 4)%Z && (piloting =? 5)%Z then bv unit
  else calculateAdjustedBV (bv unit) gunnery piloting.

(** [null] is [None]. *)
Definition getUnitIdsForSelectedEras (selectedEraNames : list string)
  : option (list Z) :=
  match selectedEraNames with
  | [] => None
  | _ :: _ =>
      let extinctFaction :=
        find (fun f => (faction_id f =? FACTION_EXTINCT)%Z)
             (getFactions (dataService this)) in
      Some
        (fold_left
           (fun unitIds eraName =>
              match getEraByName (dataService this) eraName with
              | Some era =>
                  let extinctUnitIdsForEra :=
                    match extinctFaction with
                    | Some f =>
                        match assoc_get Z.eqb (faction_eras f) (era_id era) with
                        | Some s => s
                        | None => []
                        end
                    | None => []
                    end in
                  fold_left
                    (fun acc i =>
                       if negb (set_has Z.eqb extinctUnitIdsForEra i)
                       then set_add Z.eqb acc i else acc)
                    (era_units era) unitIds
              | None => unitIds
              end)
           selectedEraNames [])
  end.

Definition getUnitIdsForSelectedFactions (selectedFactionNames : list string)
           (contextEraIds : option (list Z)) : option (list Z) :=
  match selectedFactionNames with
  | [] => None
  | _ :: _ =>
      Some
        (fold_left
           (fun unitIds factionName =>
              match getFactionByName (dataService this) factionName with
              | Some faction =>
                  fold_left
                    (fun acc e =>
                       let '(eraId, ids) := e in
                       if match contextEraIds with
                          | None => true
                          | Some ctx => set_has Z.eqb ctx eraId
                          end
                       then fold_left (set_add Z.eqb) ids acc
                       else acc)
                    (faction_eras faction) unitIds
              | None => unitIds
              end)
           selectedFactionNames [])
  end.

(** [Object.entries(state).filter(([, s]) => s.interactedWith)
      .reduce((acc, [key, s]) => ({ ...acc, [key]: s.value }), {})] *)
Definition activeFiltersOf (st : FilterState) : obj FilterValue :=
  fold_left (fun acc e => obj_set acc (fst e) (value (snd e)))
            (filter (fun e => interactedWith (snd e)) st) [].

(** [activeFilters[k] as string[] || []]; a value of another shape is
    outside the embedding and read as no name. *)
Definition namesOf (v : option FilterValue) : list string :=
  match v with
  | Some (VNames l) => l
  | _ => []
  end.

(** The external (id-based) stage of [applyFilters]. *)
Definition applyExternalFilters (results : list Unit) (st : FilterState)
  : list Unit :=
  let activeFilters := activeFiltersOf st in
  let selectedEraNames := namesOf (obj_get activeFilters "era") in
  let selectedFactionNames := namesOf (obj_get activeFilters "faction") in
  let '(eraUnitIds, factionUnitIds) :=
    match selectedFactionNames with
    | _ :: _ =>
        let selectedEraIds :=
          set_of_list Z.eqb
            (map era_id
               (filter (fun e => existsb (String.eqb (era_name e))
                                         selectedEraNames)
                       (getEras (dataService this)))) in
        (@None (list Z),
         getUnitIdsForSelectedFactions selectedFactionNames
           (match selectedEraIds with
            | _ :: _ => Some selectedEraIds
            | [] => None
            end))
    | [] =>
        match selectedEraNames with
        | _ :: _ => (getUnitIdsForSelectedEras selectedEraNames, None)
        | [] => (None, None)
        end
    end in
  match eraUnitIds, factionUnitIds with
  | None, None => results
  | Some e, Some f =>
      let finalIds := filter (fun i => set_has Z.eqb f i) e in
      filter (fun u => set_has Z.eqb finalIds (id u)) results
  | Some finalIds, None | None, Some finalIds =>
      filter (fun u => set_has Z.eqb finalIds (id u)) results
  end.

(** One turn of the loop over [ADVANCED_FILTERS] in [applyFilters].
    A stored value is expected to have the shape of its filter's kind, and
    the field of a range filter to hold a number or nothing; a name list
    stored under a range filter is outside the embedding and leaves the
    results as they are. *)
Definition applyStandardFilter (st : FilterState) (results : list Unit)
           (conf : AdvFilterConfig) : list Unit :=
  if external conf then results
  else
    match obj_get st (key conf) with
    | None => results
    | Some filterState =>
        if negb (interactedWith filterState) then results
        else
          let val := value filterState in
          match type conf, multistate conf, val with
          | DROPDOWN, true, VSelection sel =>
              filterUnitsByMultiState results (key conf) sel
          | DROPDOWN, true, _ =>
              (* an array has no entry with a [state] *)
              results
          | DROPDOWN, false, VNames ((_ :: _) as l) =>
              filter
                (fun u =>
                   match prop u (key conf) with
                   | PScalar (SStr s) => existsb (String.eqb s) l
                   | _ => false
                   end)
                results
          | DROPDOWN, false, VRange lo hi =>
              filter
                (fun u =>
                   match prop u (key conf) with
                   | PScalar (SNum z) => (z =? lo)%Z || (z =? hi)%Z
                   | _ => false
                   end)
                results
          | DROPDOWN, false, _ => results
          | RANGE, _, VRange lo hi =>
              if String.eqb (key conf) "bv" then
                filter
                  (fun u =>
                     let adjustedBV := getAdjustedBV u in
                     (lo <=? adjustedBV)%Z && (adjustedBV <=? hi)%Z)
                  results
              else
                filter
                  (fun u =>
                     let unitValue := prop u (key conf) in
                     if match ignoreValues conf, unitValue with
                        | Some ign, PScalar (SNum z) => existsb (Z.eqb z) ign
                        | _, _ => false
                        end
                     then (lo =? 0)%Z
                     else
                       match unitValue with
                       | PScalar (SNum z) => (lo <=? z)%Z && (z <=? hi)%Z
                       | _ => false
                       end)
                  results
          | RANGE, _, _ => results
          end
    end.

Definition applyFilters (units : list Unit) (st : FilterState) : list Unit :=
  fold_left (applyStandardFilter st) ADVANCED_FILTERS
            (applyExternalFilters units st).

(* ---------------------------------------------------------------- *)
(** *** Option availability: range filters *)

(** [units.map(u => u[conf.key]).filter(v => typeof v === 'number')],
    less the ignored values. *)
Definition getValidFilterValues (units : list Unit) (conf : AdvFilterConfig)
  : list Z :=
  let vals :=
    flat_map (fun u => match prop u (key conf) with
                       | PScalar (SNum z) => [z]
                       | _ => []
                       end) units in
  match ignoreValues conf with
  | Some ((_ :: _) as ign) =>
      filter (fun v => negb (existsb (Z.eqb v) ign)) vals
  | _ => vals
  end.

(** [Math.min(...vals)] and [Math.max(...vals)] of a non-empty array. *)
Definition minOf (h : Z) (t : list Z) : Z := fold_left Z.min t h.
Definition maxOf (h : Z) (t : list Z) : Z := fold_left Z.max t h.

Record RangeFilterOptions : Type := mkRangeOptions {
  totalRange : Z * Z;
  options : Z * Z;
  exposedValue : Z * Z;
  interacted : bool
}.

(** The [RANGE] branch of the loop of [advOptions]; [baseUnits] are the
    units the text search has left.  A touched value that is not an
    interval is outside the embedding and read as the available range. *)
Definition advOptionsRange (baseUnits : list Unit) (st : FilterState)
           (conf : AdvFilterConfig) : RangeFilterOptions :=
  let contextState := obj_delete st (key conf) in
  let contextUnits := applyFilters baseUnits contextState in
  let totalRange :=
    match obj_get (totalRangesCache this) (key conf) with
    | Some r => r
    | None => (0, 0)%Z
    end in
  let vals :=
    if String.eqb (key conf) "bv"
    then filter (fun b => (0 <? b)%Z) (map getAdjustedBV contextUnits)
    else getValidFilterValues contextUnits conf in
  let availableRange :=
    match vals with
    | h :: t => (minOf h t, maxOf h t)
    | [] => totalRange
    end in
  let touched :=
    match obj_get st (key conf) with
    | Some e => interactedWith e
    | None => false
    end in
  let currentValue :=
    match obj_get st (key conf) with
    | Some (mkEntry (VRange lo hi) true) => (lo, hi)
    | _ => availableRange
    end in
  let clampedMin :=
    Z.max (fst availableRange) (Z.min (fst currentValue) (snd availableRange)) in
  let clampedMax :=
    Z.min (snd availableRange) (Z.max (snd currentValue) (fst availableRange)) in
  let currentValue' :=
    if (clampedMax <? clampedMin)%Z then (clampedMax, clampedMin)
    else (clampedMin, clampedMax) in
  mkRangeOptions totalRange availableRange currentValue' touched.

(** [this.advOptions()[key]] for a range filter; [advOptions] is [{}]
    until the data is ready. *)
Definition advOptionsRangeAt (baseUnits : list Unit) (st : FilterState)
           (k : string) : option RangeFilterOptions :=
  if negb (isDataReady (dataService this)) then None
  else
    match findConf k with
    | Some conf =>
        match type conf with
        | RANGE => Some (advOptionsRange baseUnits st conf)
        | DROPDOWN => None
        end
    | None => None
    end.

(* ---------------------------------------------------------------- *)
(** *** [setFilter] *)

(** The flag [interacted] that [setFilter] computes. *)
Definition setFilterInteracted (baseUnits : list Unit) (st : FilterState)
           (conf : AdvFilterConfig) (v : FilterValue) : bool :=
  match type conf with
  | RANGE =>
      match advOptionsRangeAt baseUnits st (key conf), v with
      | Some o, VRange lo hi =>
          negb ((lo =? fst (options o))%Z && (hi =? snd (options o))%Z)
      | _, _ => true
      end
  | DROPDOWN =>
      if multistate conf then
        match v with
        | VSelection sel =>
            negb (match sel with [] => true | _ :: _ => false end
                  || forallb (fun e => MultiState_eqb (state (snd e)) st_off)
                             sel)
        | VNames [] => false
        | VNames (_ :: _) => true
        | VRange _ _ => true
        end
      else
        match v with
        | VNames [] => false
        | _ => true
        end
  end.

Definition setFilter (baseUnits : list Unit) (st : FilterState)
           (k : string) (v : FilterValue) : FilterState :=
  match findConf k with
  | None => st
  | Some conf =>
      obj_set st k (mkEntry v (setFilterInteracted baseUnits st conf v))
  end.

(* ---------------------------------------------------------------- *)
(** *** The cache of total ranges *)

(** [calculateTotalRanges]: the cache it leaves. *)
Definition calculateTotalRanges : obj (Z * Z) :=
  fold_left
    (fun cache conf =>
       let vals :=
         if String.eqb (key conf) "bv"
         then filter (fun b => (0 <? b)%Z) (map getAdjustedBV units)
         else getValidFilterValues units conf in
       obj_set cache (key conf)
               match vals with
               | h :: t => (minOf h t, maxOf h t)
               | [] => (0, 0)%Z
               end)
    (filter (fun f => AdvFilterType_eqb (type f) RANGE) ADVANCED_FILTERS)
    (totalRangesCache this).

(** [recalculateBVRange]: the cache it leaves; the first and the last
    element of the sorted values are their minimum and maximum. *)
Definition recalculateBVRange : obj (Z * Z) :=
  match filter (fun b => (0 <? b)%Z) (map getAdjustedBV units) with
  | [] => totalRangesCache this
  | h :: t => obj_set (totalRangesCache this) "bv" (minOf h t, maxOf h t)
  end.

(* ---------------------------------------------------------------- *)
(** *** The stages of [applyFilters] as predicates on one unit *)

(** The id set the external stage tests, if it tests one. *)
Definition externalIds (st : FilterState) : option (list Z) :=
  let activeFilters := activeFiltersOf st in
  let selectedEraNames := namesOf (obj_get activeFilters "era") in
  let selectedFactionNames := namesOf (obj_get activeFilters "faction") in
  match selectedFactionNames with
  | _ :: _ =>
      let selectedEraIds :=
        set_of_list Z.eqb
          (map era_id
             (filter (fun e => existsb (String.eqb (era_name e))
                                       selectedEraNames)
                     (getEras (dataService this)))) in
      getUnitIdsForSelectedFactions selectedFactionNames
        (match selectedEraIds with
         | _ :: _ => Some selectedEraIds
         | [] => None
         end)
  | [] =>
      match selectedEraNames with
      | _ :: _ => getUnitIdsForSelectedEras selectedEraNames
      | [] => None
      end
  end.

(** The ids extinct for an era, as [getUnitIdsForSelectedEras] reads
    them. *)
Definition extinctUnitIdsForEra (era : Era) : list Z :=
  match find (fun f => (faction_id f =? FACTION_EXTINCT)%Z)
             (getFactions (dataService this)) with
  | Some f =>
      match assoc_get Z.eqb (faction_eras f) (era_id era) with
      | Some s => s
      | None => []
      end
  | None => []
  end.

Definition externalKeeps (st : FilterState) (u : Unit) : bool :=
  match externalIds st with
  | Some finalIds => set_has Z.eqb finalIds (id u)
  | None => true
  end.

(** Whether the turn of the loop for [conf] keeps [u]. *)
Definition standardKeeps (st : FilterState) (conf : AdvFilterConfig)
           (u : Unit) : bool :=
  match applyStandardFilter st [u] conf with
  | [] => false
  | _ :: _ => true
  end.

End Pipeline.

(* ================================================================== *)
(** ** Text search: non-overlapping token matching *)
(* ================================================================== *)

(** [taken.some(([s, e]) => !(end <= s || idx >= e))] *)
Definition overlapsTaken (taken : list (nat * nat)) (idx end_ : nat) : bool :=
  existsb (fun span => negb ((end_ <=? fst span)%nat || (snd span <=? idx)%nat))
          taken.

(** The [while] loop of [tokensMatchNonOverlapping] for one token: the span
    it claims, if any.  [start <= hay.length - token.length] is written
    without the subtraction; [fuel] bounds the turns of the loop. *)
Fixpoint claimSpan (fuel : nat) (hay token : string)
         (taken : list (nat * nat)) (start : nat) : option (nat * nat) :=
  match fuel with
  | O => None
  | S fuel' =>
      if (start + String.length token <=? String.length hay)%nat then
        match indexOf hay token start with
        | None => None
        | Some idx =>
            let end_ := (idx + String.length token)%nat in
            if negb (overlapsTaken taken idx end_) then Some (idx, end_)
            else claimSpan fuel' hay token taken (idx + 1)%nat
        end
      else None
  end.

Fixpoint tokensLoop (hay : string) (tokens : list string)
         (taken : list (nat * nat)) : bool :=
  match tokens with
  | [] => true
  | token :: rest =>
      if String.eqb token "" then tokensLoop hay rest taken
      else
        match claimSpan (S (String.length hay)) hay token taken 0 with
        | Some span => tokensLoop hay rest (taken ++ [span])
        | None => false
        end
  end.

Definition tokensMatchNonOverlapping (text : string) (tokens : list string)
  : bool :=
  tokensLoop text tokens [].

(** [token] occurs in [hay] at [j], as a test. *)
Definition occursAtb (hay token : string) (j : nat) : bool :=
  (j <=? String.length hay)%nat && String.prefix token (drop j hay).

(** The occurrence at [j] is disjoint from the claimed spans, as a test. *)
Definition freeAtb (hay : string) (taken : list (nat * nat)) (token : string)
           (j : nat) : bool :=
  occursAtb hay token j
  && negb (overlapsTaken taken j (j + String.length token)).

(** [x ?? ''] *)
Definition orEmpty (x : option string) : string :=
  match x with Some s => s | None => "" end.

Definition matchesWords (unit : Unit) (words : list string) : bool :=
  match words with
  | [] => true
  | _ :: _ =>
      let text :=
        (orEmpty (_chassis unit) ++ " " ++ orEmpty (_model unit))%string in
      tokensMatchNonOverlapping text words
  end.

(* ================================================================== *)
(** ** Natural / smart ordering *)
(* ================================================================== *)

Section Ordering.

(** [String.prototype.localeCompare], which depends on the locale. *)
Variable localeCompare : string -> string -> Z.

Definition isDigit (c : ascii) : bool :=
  let k := nat_of_ascii c in (48 <=? k)%nat && (k <=? 57)%nat.

(** White space in one byte: TAB, LF, VT, FF, CR and the space. *)
Definition isSpace (c : ascii) : bool :=
  let k := nat_of_ascii c in
  (k =? 32)%nat || ((9 <=? k)%nat && (k <=? 13)%nat).

(** White space in two bytes, U+00A0, and in three: U+1680, U+2000 to
    U+200A, U+2028, U+2029, U+202F, U+205F, U+3000 and U+FEFF, in their
    UTF-8 form.  With [isSpace] these are the white space and the line
    terminators of ECMAScript: what [trim] removes, what [parseInt] and
    [parseFloat] skip, and what [\s] matches. *)
Definition isSpace2 (a b : ascii) : bool :=
  (nat_of_ascii a =? 194)%nat && (nat_of_ascii b =? 160)%nat.

Definition isSpace3 (a b c : ascii) : bool :=
  let i := nat_of_ascii a in
  let j := nat_of_ascii b in
  let k := nat_of_ascii c in
  ((i =? 225) && (j =? 154) && (k =? 128))%nat
  || ((i =? 226) && (j =? 128)
      && (((128 <=? k) && (k <=? 138)) || (k =? 168) || (k =? 169)
          || (k =? 175)))%nat
  || ((i =? 226) && (j =? 129) && (k =? 159))%nat
  || ((i =? 227) && (j =? 128) && (k =? 128))%nat
  || ((i =? 239) && (j =? 187) && (k =? 191))%nat.

Fixpoint trimStart (s : string) : string :=
  match s with
  | EmptyString => EmptyString
  | String a r =>
      if isSpace a then trimStart r
      else
        match r with
        | String b r2 =>
            if isSpace2 a b then trimStart r2
            else
              match r2 with
              | String c r3 => if isSpace3 a b c then trimStart r3 else s
              | EmptyString => s
              end
        | EmptyString => s
        end
  end.

(** The text is white space and nothing else. *)
Fixpoint allSpace (s : string) : bool :=
  match s with
  | EmptyString => true
  | String a r =>
      if isSpace a then allSpace r
      else
        match r with
        | String b r2 =>
            if isSpace2 a b then allSpace r2
            else
              match r2 with
              | String c r3 => isSpace3 a b c && allSpace r3
              | EmptyString => false
              end
        | EmptyString => false
        end
  end.

Fixpoint trimEnd (s : string) : string :=
  match s with
  | EmptyString => EmptyString
  | String a r => if allSpace s then EmptyString else String a (trimEnd r)
  end.

Definition trim (s : string) : string := trimEnd (trimStart s).

(** The longest prefix whose characters satisfy [p], and the rest. *)
Fixpoint span (p : ascii -> bool) (s : string) : string * string :=
  match s with
  | String a r =>
      if p a then let '(x, y) := span p r in (String a x, y)
      else (EmptyString, s)
  | EmptyString => (EmptyString, EmptyString)
  end.

(** A line terminator, which [.] does not match: LF, CR, and U+2028 and
    U+2029 in their UTF-8 form. *)
Fixpoint hasLineTerminator (s : string) : bool :=
  match s with
  | EmptyString => false
  | String a r =>
      let k := nat_of_ascii a in
      (k =? 10)%nat || (k =? 13)%nat
      || match r with
         | String b (String c _) =>
             (k =? 226)%nat && (nat_of_ascii b =? 128)%nat
             && ((nat_of_ascii c =? 168)%nat || (nat_of_ascii c =? 169)%nat)
         | _ => false
         end
      || hasLineTerminator r
  end.

(** The value of a run of decimal digits. *)
Definition digitsValue (s : string) : Z :=
  fold_left (fun acc c => (10 * acc + Z.of_nat (nat_of_ascii c - 48))%Z)
            (list_ascii_of_string s) 0%Z.

(** [a.match(regex)] in [naturalCompare]; the pattern is anchored at both
    ends and has three groups: the non-digits in front, an optional run of
    digits, and the rest of the line.  [None] when the match fails; the
    second group is [None] when it took part in no match. *)
Definition matchNatural (a : string)
  : option (string * option string * string) :=
  let '(g1, rest) := span (fun c => negb (isDigit c)) a in
  let '(g2, g3) := span isDigit rest in
  if hasLineTerminator g3 then None
  else Some (g1, match g2 with EmptyString => None | _ => Some g2 end, g3).

(** The numbers are read by [parseInt(digits, 10)] and subtracted: exact
    for runs of digits up to [Number.MAX_SAFE_INTEGER], beyond which
    JavaScript rounds and the embedding does not follow. *)
Definition naturalCompare (a b : string) : Z :=
  let matchA := matchNatural a in
  let matchB := matchNatural b in
  let prefixOf m x :=
    match m with
    | Some (g1, _, g3) => trim (g1 ++ g3)%string
    | None => x
    end in
  let numOf (m : option (string * option string * string)) :=
    match m with
    | Some (_, Some g2, _) => Some (digitsValue g2)
    | _ => None
    end in
  let prefixA := prefixOf matchA a in
  let prefixB := prefixOf matchB b in
  let numA := numOf matchA in
  let numB := numOf matchB in
  if String.eqb prefixA prefixB then
    match numA, numB with
    | Some x, Some y => (x - y)%Z
    | Some _, None => (-1)%Z
    | None, Some _ => 1%Z
    | None, None => localeCompare a b
    end
  else localeCompare prefixA prefixB.

(** [Array.prototype.sort(compare)], a stable sort: insertion from the
    left, each element behind those that do not compare greater. *)
Section Sort.
Variable compare : string -> string -> Z.

Fixpoint insertSorted (x : string) (l : list string) : list string :=
  match l with
  | [] => [x]
  | y :: r =>
      if (compare y x <=? 0)%Z then y :: insertSorted x r
      else x :: y :: r
  end.

Definition sort (l : list string) : list string :=
  fold_left (fun acc x => insertSorted x acc) l [].
End Sort.

(** One turn of the loop over [predefinedOrder]: the pair of
    [sortedOptions] and [optionsSet]. *)
Definition smartSortStep (acc : list string * list string)
           (predefinedOpt : string) : list string * list string :=
  let '(sortedOptions, optionsSet) := acc in
  if endsWithChar predefinedOpt "*" then
    let prefix := dropLast predefinedOpt in
    let matchingOptions :=
      sort naturalCompare
           (filter (fun o => startsWith o prefix) optionsSet) in
    fold_left
      (fun st match_ =>
         (fst st ++ [match_], set_delete String.eqb (snd st) match_))
      matchingOptions (sortedOptions, optionsSet)
  else if set_has String.eqb optionsSet predefinedOpt then
    (sortedOptions ++ [predefinedOpt],
     set_delete String.eqb optionsSet predefinedOpt)
  else (sortedOptions, optionsSet).

Definition smartDropdownSort (options : list string)
           (predefinedOrder : option (list string)) : list string :=
  match predefinedOrder with
  | Some ((_ :: _) as order) =>
      let optionsSet := set_of_list String.eqb options in
      let '(sortedOptions, optionsSet') :=
        fold_left smartSortStep order ([], optionsSet) in
      let remainingSorted := sort naturalCompare optionsSet' in
      sortedOptions ++ remainingSorted
  | _ => sort naturalCompare options
  end.

End Ordering.

(* ================================================================== *)
(** ** Compact URL codec *)
(* ================================================================== *)

Module Uri.

Local Open Scope nat_scope.

(** The characters [encodeURIComponent] leaves as they are: letters,
    digits and [- _ . ! ~ * ' ( )]. *)
Definition unreserved (c : ascii) : bool :=
  let k := nat_of_ascii c in
  ((65 <=? k) && (k <=? 90)) || ((97 <=? k) && (k <=? 122))
  || ((48 <=? k) && (k <=? 57))
  || existsb (Nat.eqb k) [45; 95; 46; 33; 126; 42; 39; 40; 41].

Definition hexDigit (d : nat) : ascii :=
  if d <? 10 then ascii_of_nat (48 + d) else ascii_of_nat (55 + d).

Definition hexValue (c : ascii) : option nat :=
  let k := nat_of_ascii c in
  if (48 <=? k) && (k <=? 57) then Some (k - 48)
  else if (65 <=? k) && (k <=? 70) then Some (k - 55)
  else if (97 <=? k) && (k <=? 102) then Some (k - 87)
  else None.

Fixpoint encodeURIComponent (s : string) : string :=
  match s with
  | EmptyString => EmptyString
  | String c r =>
      if unreserved c then String c (encodeURIComponent r)
      else
        let k := nat_of_ascii c in
        String "%" (String (hexDigit (k / 16)) (String (hexDigit (k mod 16))
               (encodeURIComponent r)))
  end.

(** First pass of [decodeURIComponent]: every [%XX] becomes its byte,
    marked [true]; a [%] without two hexadecimal digits is a [URIError]. *)
Fixpoint unescape (s : string) : option (list (bool * nat)) :=
  match s with
  | EmptyString => Some []
  | String c r =>
      if Ascii.eqb c "%" then
        match r with
        | String h1 (String h2 r') =>
            match hexValue h1, hexValue h2, unescape r' with
            | Some a, Some b, Some l => Some ((true, 16 * a + b) :: l)
            | _, _, _ => None
            end
        | _ => None
        end
      else option_map (cons (false, nat_of_ascii c)) (unescape r)
  end.

(** Second pass: the escaped bytes from [0x80] on must form well-formed
    UTF-8 sequences of escaped bytes.  [pending] is the number of
    continuation bytes still due, [lo] and [hi] bound the next one. *)
Fixpoint wellFormed (pending lo hi : nat) (l : list (bool * nat)) : bool :=
  match l with
  | [] => pending =? 0
  | (escaped, b) :: r =>
      if pending =? 0 then
        if negb escaped || (b <? 128) then wellFormed 0 0 0 r
        else if (194 <=? b) && (b <=? 223) then wellFormed 1 128 191 r
        else if b =? 224 then wellFormed 2 160 191 r
        else if b =? 237 then wellFormed 2 128 159 r
        else if (225 <=? b) && (b <=? 239) then wellFormed 2 128 191 r
        else if b =? 240 then wellFormed 3 144 191 r
        else if (241 <=? b) && (b <=? 243) then wellFormed 3 128 191 r
        else if b =? 244 then wellFormed 3 128 143 r
        else false
      else
        escaped && (lo <=? b) && (b <=? hi)
        && wellFormed (pending - 1) 128 191 r
  end.

(** [None] is a thrown [URIError]. *)
Definition decodeURIComponent (s : string) : option string :=
  match unescape s with
  | Some l =>
      if wellFormed 0 0 0 l
      then Some (string_of_list_ascii (map (fun p => ascii_of_nat (snd p)) l))
      else None
  | None => None
  end.

End Uri.

Import Uri.

Module Num.

(** The largest integer below which every integer is a number of
    JavaScript, [Number.MAX_SAFE_INTEGER]. *)
Definition MAX_SAFE_INTEGER : Z := 9007199254740991.

(** [String(z)] for an integer: its decimal digits.  This is what
    JavaScript writes for the integers it holds exactly (up to
    [MAX_SAFE_INTEGER] in magnitude, and on to [1e21], from where it
    writes an exponent). *)
Definition toString (z : Z) : string := NilEmpty.string_of_int (Z.to_int z).

(** An optional sign in front of [s]: the sign and the rest. *)
Definition sign (s : string) : Z * string :=
  match s with
  | String c r =>
      if Ascii.eqb c "-" then ((-1)%Z, r)
      else if Ascii.eqb c "+" then (1%Z, r)
      else (1%Z, s)
  | EmptyString => (1%Z, s)
  end.

(** [isNaN(parseFloat(s))]: behind the leading white space and an
    optional sign there is no decimal literal, which begins with a digit,
    with a point and a digit, or is [Infinity]. *)
Definition floatIsNaN (s : string) : bool :=
  let '(_, r) := sign (trimStart s) in
  negb (match r with
        | String c r' =>
            isDigit c
            || (Ascii.eqb c "."
                && match r' with String d _ => isDigit d | _ => false end)
            || String.prefix "Infinity" r
        | EmptyString => false
        end).

(** [parseFloat(s)] on the integers: leading white space, an optional
    sign and a run of decimal digits; [Some z] is the number [z].  The
    embedding holds integers only: [None] is [NaN] when [floatIsNaN]
    says so, and otherwise a literal with no integer to read ([.5],
    [Infinity]), which is outside the embedding, as is the fraction or
    the exponent behind the digits that are read, and a run of digits
    beyond [MAX_SAFE_INTEGER]. *)
Definition parseFloat (s : string) : option Z :=
  let '(sg, r) := sign (trimStart s) in
  match span isDigit r with
  | (EmptyString, _) => None
  | (ds, _) => Some (sg * digitsValue ds)%Z
  end.

Definition isHexDigit (c : ascii) : bool :=
  match hexValue c with Some _ => true | None => false end.

Definition hexDigitsValue (s : string) : Z :=
  fold_left (fun acc c =>
               (16 * acc + Z.of_nat (match hexValue c with
                                     | Some d => d
                                     | None => 0
                                     end))%Z)
            (list_ascii_of_string s) 0%Z.

(** [parseInt(s)] without a radix: white space, sign, then hexadecimal
    digits behind [0x] or [0X], decimal digits otherwise; [None] is
    [NaN].  The value is exact up to [MAX_SAFE_INTEGER]; beyond it
    JavaScript rounds and the embedding does not follow. *)
Definition parseInt (s : string) : option Z :=
  let '(sg, r) := sign (trimStart s) in
  match r with
  | String z (String x r') =>
      if Ascii.eqb z "0" && (Ascii.eqb x "x" || Ascii.eqb x "X") then
        match span isHexDigit r' with
        | (EmptyString, _) => None
        | (hs, _) => Some (sg * hexDigitsValue hs)%Z
        end
      else
        match span isDigit r with
        | (EmptyString, _) => None
        | (ds, _) => Some (sg * digitsValue ds)%Z
        end
  | _ =>
      match span isDigit r with
      | (EmptyString, _) => None
      | (ds, _) => Some (sg * digitsValue ds)%Z
      end
  end.

End Num.

Module Codec.

(** The piece of one selected name in a multistate payload. *)
Definition encodeSelectionEntry (name : string) (selectionValue : SelectionValue)
  : string :=
  let part := encodeURIComponent name in
  let part :=
    match state selectionValue with
    | st_and => (part ++ ".")%string
    | st_not => (part ++ "!")%string
    | _ => part
    end in
  if (1 <? count selectionValue)%Z
  then (part ++ "~" ++ Num.toString (count selectionValue))%string
  else part.

(** One turn of the loop of [generateCompactFiltersParam]: the parts
    pushed for one entry of the state.  A value that has not the shape of
    its filter's kind is outside the embedding and pushes nothing. *)
Definition encodeEntry (k : string) (filterState : FilterEntry) : list string :=
  if negb (interactedWith filterState) then []
  else
    match findConf k with
    | None => []
    | Some conf =>
        match type conf, value filterState with
        | RANGE, VRange min max =>
            [(k ++ ":" ++ Num.toString min ++ "-" ++ Num.toString max)%string]
        | RANGE, _ => []
        | DROPDOWN, v =>
            if multistate conf then
              match v with
              | VSelection selection =>
                  let subParts :=
                    flat_map
                      (fun e =>
                         if negb (MultiState_eqb (state (snd e)) st_off)
                         then [encodeSelectionEntry (fst e) (snd e)]
                         else [])
                      selection in
                  match subParts with
                  | [] => []
                  | _ :: _ => [(k ++ ":" ++ join "," subParts)%string]
                  end
              | _ => []
              end
            else
              match v with
              | VNames ((_ :: _) as values) =>
                  let encodedValues := map encodeURIComponent values in
                  [(k ++ ":" ++ join "," encodedValues)%string]
              | _ => []
              end
        end
    end.

(** [null] is [None]. *)
Definition generateCompactFiltersParam (st : FilterState) : option string :=
  match flat_map (fun e => encodeEntry (fst e) (snd e)) st with
  | [] => None
  | parts => Some (join "|" parts)
  end.

(** One item of a multistate payload; [None] when [decodeURIComponent]
    throws. *)
Definition parseSelectionItem (item : string)
  : option (string * SelectionValue) :=
  let '(state, encodedName) :=
    if endsWithChar item "." then (st_and, dropLast item)
    else if endsWithChar item "!" then (st_not, dropLast item)
    else (st_or, item) in
  let '(count, encodedName) :=
    match indexOfChar encodedName "~" with
    | Some starIndex =>
        (match Num.parseInt (drop (starIndex + 1) encodedName) with
         | Some c => if (c =? 0)%Z then 1%Z else c
         | None => 1%Z
         end,
         take starIndex encodedName)
    | None => (1%Z, encodedName)
    end in
  match decodeURIComponent encodedName with
  | Some name => Some (name, mkSel state count)
  | None => None
  end.

(** The loop over the items; [None] as soon as one throws. *)
Fixpoint parseSelectionItems (items : list string)
         (selection : MultiStateSelection) : option MultiStateSelection :=
  match items with
  | [] => Some selection
  | item :: rest =>
      match parseSelectionItem item with
      | Some (name, sv) =>
          parseSelectionItems rest (obj_assign selection name sv)
      | None => None
      end
  end.

(** [values.map(v => decodeURIComponent(v))]; [None] when one throws. *)
Fixpoint decodeAll (values : list string) : option (list string) :=
  match values with
  | [] => Some []
  | v :: rest =>
      match decodeURIComponent v, decodeAll rest with
      | Some d, Some ds => Some (d :: ds)
      | _, _ => None
      end
  end.

(** The body of the loop over the parts of [parseCompactFiltersFromUrl];
    [None] when it throws.  A range bound that is a number for
    [parseFloat] but no integer to read ([Num.parseFloat] is [None]
    though [Num.floatIsNaN] is [false]) is outside the embedding: the
    code stores the segment, the embedding has no value for it. *)
Definition parsePart (filterState : FilterState) (part : string)
  : option FilterState :=
  match indexOfChar part ":" with
  | None => Some filterState
  | Some colonIndex =>
      let k := take colonIndex part in
      let valueStr := drop (colonIndex + 1) part in
      match findConf k with
      | None => Some filterState
      | Some conf =>
          match type conf with
          | RANGE =>
              match indexOfChar valueStr "-" with
              | Some dashIndex =>
                  match Num.parseFloat (take dashIndex valueStr),
                        Num.parseFloat (drop (dashIndex + 1) valueStr) with
                  | Some min, Some max =>
                      Some (obj_set filterState k
                                    (mkEntry (VRange min max) true))
                  | _, _ => Some filterState
                  end
              | None => Some filterState
              end
          | DROPDOWN =>
              if multistate conf then
                match parseSelectionItems (split "," valueStr) [] with
                | Some selection =>
                    match selection with
                    | _ :: _ =>
                        Some (obj_set filterState k
                                      (mkEntry (VSelection selection) true))
                    | [] => Some filterState
                    end
                | None => None
                end
              else
                match decodeAll
                        (filter (fun v => negb (String.eqb v ""))
                                (split "," valueStr)) with
                | Some values =>
                    match values with
                    | _ :: _ =>
                        Some (obj_set filterState k
                                      (mkEntry (VNames values) true))
                    | [] => Some filterState
                    end
                | None => None
                end
          end
      end
  end.

(** The [for] loop inside the [try]: a throw leaves the loop, and the
    [catch] returns what has been stored so far. *)
Fixpoint parseParts (parts : list string) (filterState : FilterState)
  : FilterState :=
  match parts with
  | [] => filterState
  | part :: rest =>
      match parsePart filterState part with
      | Some filterState' => parseParts rest filterState'
      | None => filterState
      end
  end.

Definition parseCompactFiltersFromUrl (filtersParam : string) : FilterState :=
  parseParts (split "|" filtersParam) [].

(** [getAvailableDropdownValues]; only strings are kept, the values are
    asked for names. *)
Definition getAvailableDropdownValues (this : Service) (conf : AdvFilterConfig)
  : list string :=
  if external conf then
    if String.eqb (key conf) "era" then
      set_of_list String.eqb (map era_name (getEras (dataService this)))
    else if String.eqb (key conf) "faction" then
      set_of_list String.eqb
                  (map faction_name (getFactions (dataService this)))
    else []
  else if String.eqb (key conf) "componentName" then
    set_of_list String.eqb
                (flat_map (fun unit => map n (comp unit)) (units this))
  else
    set_of_list String.eqb
      (flat_map
         (fun unit =>
            flat_map (fun v => match v with
                               | SStr s => if String.eqb s "" then [] else [s]
                               | _ => []
                               end)
                     (asArray (prop unit (key conf))))
         (units this)).

(** The loop of [loadFiltersFromUrlOnStartup] over the parsed entries. *)
Definition validateEntry (this : Service) (validFilters : FilterState)
           (e : string * FilterEntry) : FilterState :=
  let '(k, state) := e in
  match findConf k with
  | None => validFilters
  | Some conf =>
      match type conf with
      | DROPDOWN =>
          let availableValues := getAvailableDropdownValues this conf in
          if multistate conf then
            match value state with
            | VSelection selection =>
                let validSelection :=
                  fold_left
                    (fun acc p =>
                       if set_has String.eqb availableValues (fst p)
                       then obj_assign acc (fst p) (snd p) else acc)
                    selection [] in
                match validSelection with
                | _ :: _ =>
                    obj_set validFilters k
                            (mkEntry (VSelection validSelection) true)
                | [] => validFilters
                end
            | _ => validFilters
            end
          else
            match value state with
            | VNames values =>
                match filter (set_has String.eqb availableValues) values with
                | (_ :: _) as validValues =>
                    obj_set validFilters k (mkEntry (VNames validValues) true)
                | [] => validFilters
                end
            | _ => validFilters
            end
      | RANGE => obj_set validFilters k state
      end
  end.

(** The [filters] parameter in [loadFiltersFromUrlOnStartup]: the filter
    state after the effect has run, from the state before it.  When the
    parameter is absent or empty, or when decoding throws, the state is
    not set. *)
Definition loadFilters (this : Service) (current : FilterState)
           (filtersParam : option string) : FilterState :=
  match filtersParam with
  | None | Some EmptyString => current
  | Some p =>
      match decodeURIComponent p with
      | None => current
      | Some decodedFilters =>
          fold_left (validateEntry this)
                    (parseCompactFiltersFromUrl decodedFilters) []
      end
  end.

End Codec.

Import Codec.

(* ================================================================== *)
(** ** The properties, in the words of the specification *)
(* ================================================================== *)

Module Spec.

(** A JavaScript object has one entry per key. *)
Definition wellKeyed {V} (o : obj V) : Prop := NoDup (obj_keys o).

(** The value of a touched filter, [None] for an untouched or absent one. *)
Definition touchedValue (st : FilterState) (k : string) : option FilterValue :=
  match obj_get st k with
  | Some e => if interactedWith e then Some (value e) else None
  | None => None
  end.

(** *** Tri-state matcher *)

(** The record possesses the value [name] for the key. *)
Definition possesses (u : Unit) (k name : string) : Prop :=
  if String.eqb k "componentName"
  then exists c, In c (comp u) /\ n c = name
  else In (SStr name) (asArray (prop u k)).

(** *** Non-overlapping token matching *)

(** [token] occurs in [text] at position [idx]. *)
Definition OccursAt (text token : string) (idx : nat) : Prop :=
  exists pre post,
    text = (pre ++ token ++ post)%string /\ String.length pre = idx.

(** The occurrence at [idx] is disjoint from every claimed span. *)
Definition FreeAt (text : string) (taken : list (nat * nat))
           (token : string) (idx : nat) : Prop :=
  OccursAt text token idx /\
  forall s e, In (s, e) taken ->
              (idx + String.length token <= s)%nat \/ (e <= idx)%nat.

Definition LeftmostFreeAt (text : string) (taken : list (nat * nat))
           (token : string) (idx : nat) : Prop :=
  FreeAt text taken token idx /\
  forall j, (j < idx)%nat -> ~ FreeAt text taken token j.

(** Every term, in the order of the list, gets the leftmost occurrence
    that is disjoint from the spans claimed before it; an empty term
    claims nothing. *)
Inductive GreedyAssignment (text : string)
  : list (nat * nat) -> list string -> Prop :=
| greedy_done taken : GreedyAssignment text taken []
| greedy_empty taken rest :
    GreedyAssignment text taken rest ->
    GreedyAssignment text taken (EmptyString :: rest)
| greedy_claim taken token rest idx :
    token <> EmptyString ->
    LeftmostFreeAt text taken token idx ->
    GreedyAssignment text (taken ++ [(idx, idx + String.length token)%nat])
                     rest ->
    GreedyAssignment text taken (token :: rest).

(** *** Era and faction *)

Section External.
Variable ds : DataService.

(** The ids of the eras that bear a selected name. *)
Definition SelectedEraId (eraNames : list string) (eid : Z) : Prop :=
  exists e, In e (getEras ds) /\ In (era_name e) eraNames /\ era_id e = eid.

(** [i] is extinct for the era [e]. *)
Definition ExtinctFor (e : Era) (i : Z) : Prop :=
  exists f ids,
    find (fun f => (faction_id f =? FACTION_EXTINCT)%Z) (getFactions ds)
    = Some f /\
    assoc_get Z.eqb (faction_eras f) (era_id e) = Some ids /\ In i ids.

(** (a) the union of the selected eras' id sets, each less the ids
    extinct for that era. *)
Definition InEraIds (eraNames : list string) (i : Z) : Prop :=
  exists name e,
    In name eraNames /\ getEraByName ds name = Some e /\
    In i (era_units e) /\ ~ ExtinctFor e i.

(** The union of the selected factions' per-era id sets, over the eras
    that satisfy [scope]. *)
Definition InFactionIds (scope : Z -> Prop) (factionNames : list string)
           (i : Z) : Prop :=
  exists name f eid ids,
    In name factionNames /\ getFactionByName ds name = Some f /\
    In (eid, ids) (faction_eras f) /\ scope eid /\ In i ids.

(** (b) the same, restricted to the selected eras. *)
Definition InFactionIdsOfEras (eraNames factionNames : list string)
           (i : Z) : Prop :=
  InFactionIds (SelectedEraId eraNames) factionNames i.

(** The scope the service uses: the selected eras, or every era when
    no era bears a selected name. *)
Definition eraScope (eraNames : list string) (eid : Z) : Prop :=
  (forall x, ~ SelectedEraId eraNames x) \/ SelectedEraId eraNames eid.
End External.

(** *** Ranges *)

(** The entries of the cache of total ranges are intervals. *)
Definition cacheWellFormed (cache : obj (Z * Z)) : Prop :=
  forall k r, obj_get cache k = Some r -> (fst r <= snd r)%Z.

(** The interval [v] clamped into [a], the endpoints swapped when the
    clamp inverts them. *)
Definition clampInto (a v : Z * Z) : Z * Z :=
  let lo := Z.max (fst a) (Z.min (fst v) (snd a)) in
  let hi := Z.min (snd a) (Z.max (snd v) (fst a)) in
  if (hi <? lo)%Z then (hi, lo) else (lo, hi).

(** *** [setFilter] *)

(** The value has the shape of the filter's kind. *)
Definition hasShape (conf : AdvFilterConfig) (v : FilterValue) : Prop :=
  match type conf, v with
  | DROPDOWN, VNames _ => multistate conf = false
  | DROPDOWN, VSelection _ => multistate conf = true
  | RANGE, VRange _ _ => True
  | _, _ => False
  end.

(** The value is inert for its kind; [available] is the currently
    available range of a range filter, if there is one. *)
Inductive Inert (available : option (Z * Z)) : FilterValue -> Prop :=
| inert_names : Inert available (VNames [])
| inert_selection sel :
    (forall name sv, In (name, sv) sel -> state sv = st_off) ->
    Inert available (VSelection sel)
| inert_range lo hi :
    available = Some (lo, hi) -> Inert available (VRange lo hi).

(** *** Compact URL codec *)

(** A segment missing its [:], naming an unknown key, or carrying an
    unparsable range: one without a dash, or with a bound that
    [parseFloat] reads as [NaN]. *)
Inductive Malformed (part : string) : Prop :=
| malformed_no_colon : indexOfChar part ":" = None -> Malformed part
| malformed_unknown_key i :
    indexOfChar part ":" = Some i -> findConf (take i part) = None ->
    Malformed part
| malformed_range i conf :
    indexOfChar part ":" = Some i -> findConf (take i part) = Some conf ->
    type conf = RANGE ->
    (indexOfChar (drop (i + 1) part) "-" = None \/
     exists d, indexOfChar (drop (i + 1) part) "-" = Some d /\
               (Num.floatIsNaN (take d (drop (i + 1) part)) = true \/
                Num.floatIsNaN (drop (d + 1) (drop (i + 1) part)) = true)) ->
    Malformed part.

(** The segment has no [|] in it. *)
Definition noBar (part : string) : Prop := indexOfChar part "|" = None.

(** [decodeURIComponent] throws while the segment is parsed. *)
Definition Throws (part : string) : Prop := Codec.parsePart [] part = None.

End Spec.

Import Spec.

(* ================================================================== *)
(** ** A small catalogue, for the instances of the theorems *)
(* ================================================================== *)

Module Example.

Local Open Scope Z_scope.

(** A stand-in for the external formula of the adjusted battle value. *)
Definition adjust (bv gunnery piloting : Z) : Z :=
  (bv * (18 - gunnery - piloting) / 9)%Z.

(** A stand-in for [localeCompare]: the order of the character codes. *)
Definition byCode (a b : string) : Z :=
  match String.compare a b with
  | Lt => (-1)%Z
  | Eq => 0%Z
  | Gt => 1%Z
  end.

Definition fields (fs : list (string * PropValue)) (k : string) : PropValue :=
  match obj_get fs k with
  | Some v => v
  | None => PScalar SNull
  end.

Definition atlas : Unit :=
  mkUnit 10 500 [mkComponent "AC/20" 1; mkComponent "Medium Laser" 4]
         (Some "atlas") (Some "as7-d")
         (fields [("type", PScalar (SStr "Mek"));
                  ("heat", PScalar (SNum 22));
                  ("quirks", PArr [SStr "Command Mech"; SStr "Stable"])]).

Definition locust : Unit :=
  mkUnit 20 50 [mkComponent "Medium Laser" 1]
         (Some "locust") (Some "lct-1v")
         (fields [("type", PScalar (SStr "Mek"));
                  ("heat", PScalar (SNum 3));
                  ("quirks", PArr [SStr "Narrow"; SStr "Stable"; SStr "Fast"])]).

(** A record whose heat is unknown. *)
Definition trooper : Unit :=
  mkUnit 30 80 [] (Some "foot platoon") None
         (fields [("type", PScalar (SStr "Infantry"));
                  ("heat", PScalar (SNum (-1)))]).

Definition succession : Era := mkEra 1 "Succession Wars" [10; 20; 30].

Definition extinct : Faction := mkFaction 3 "Extinct" [(1, [20])].
Definition davion : Faction := mkFaction 7 "Federated Suns" [(1, [10; 30])].

Definition data : DataService :=
  mkDataService true [atlas; locust; trooper] [succession] [extinct; davion].

Definition service : Service := mkService data 4 5 [].

End Example.
From Stdlib Require DecimalPos Sorted.

(* ================================================================== *)
(** ** Further definitions: the rest of the service *)
(* ================================================================== *)

(** The body of the loop of [filterUnitsByMultiState] over the entries of
    the selection, as [partitionSelection] folds it. *)
Definition partitionStep (acc : Partition)
           (entry : string * SelectionValue) : Partition :=
  let '(name, selectionValue) := entry in
  match state selectionValue with
  | st_or =>
      mkPartition (orList acc ++ [mkNameCount name (count selectionValue)])
                  (andList acc) (notSet acc)
  | st_and =>
      mkPartition (orList acc)
                  (andList acc ++ [mkNameCount name (count selectionValue)])
                  (notSet acc)
  | st_not =>
      mkPartition (orList acc) (andList acc)
                  (set_add String.eqb (notSet acc) name)
  | st_off => acc
  end.

(** The total quantity of the components of a unit that bear a name. *)
Definition totalQuantity (unit : Unit) (name : string) : Z :=
  fold_right Z.add 0%Z
             (map q (filter (fun c => String.eqb (n c) name) (comp unit))).

(** Two spans do not overlap. *)
Definition spansDisjoint (a b : nat * nat) : Prop :=
  (snd a <= fst b)%nat \/ (snd b <= fst a)%nat.

(** The text is well-formed UTF-8: what a JavaScript string without lone
    surrogates is in the byte view of the embedding.  Such a string is what
    [encodeURIComponent] accepts. *)
Definition utf8 (s : string) : bool :=
  wellFormed 0 0 0 (map (fun c => (true, nat_of_ascii c))
                        (list_ascii_of_string s)).

(* ------------------------------------------------------------------ *)
(** *** States the compact codec carries through *)

(** A selection without its [off] entries. *)
Definition dropOff (selection : MultiStateSelection) : MultiStateSelection :=
  filter (fun e => negb (MultiState_eqb (state (snd e)) st_off)) selection.

(** A filter value as the codec restores it. *)
Definition restored (v : FilterValue) : FilterValue :=
  match v with
  | VSelection selection => VSelection (dropOff selection)
  | _ => v
  end.

(** The text is a run of digits.  An object lists the keys that are
    numerals before its other keys, not in the order they were added. *)
Definition numeral (s : string) : bool :=
  match s with
  | EmptyString => false
  | _ => forallb isDigit (list_ascii_of_string s)
  end.

(** A name the multistate payload can carry: well-formed text that has no
    [~] in it, does not end in a state suffix, is not [__proto__], which
    the parser cannot store as a key of the selection, and is no numeral,
    so that the selection lists it in the order of the embedding. *)
Definition plainName (name : string) : Prop :=
  utf8 name = true /\ indexOfChar name "~" = None /\
  endsWithChar name "." = false /\ endsWithChar name "!" = false /\
  name <> "__proto__" /\ numeral name = false.

(** A number JavaScript holds exactly and writes by its digits. *)
Definition safeInteger (z : Z) : Prop :=
  (- Num.MAX_SAFE_INTEGER <= z <= Num.MAX_SAFE_INTEGER)%Z.

(** The values of a filter that survive the codec: a range of safe
    integers that does not start below zero; a non-empty list of non-empty
    well-formed names; a selection with one entry per name and at least
    one entry that is not [off], whose entries other than [off] have a
    plain name and a count that is a safe integer of at least 1, a count
    above 1 only with the state [or]. *)
Inductive CodecSafe (conf : AdvFilterConfig) : FilterValue -> Prop :=
| safe_range lo hi :
    type conf = RANGE -> (0 <= lo)%Z -> safeInteger lo -> safeInteger hi ->
    CodecSafe conf (VRange lo hi)
| safe_names names :
    type conf = DROPDOWN -> multistate conf = false -> names <> [] ->
    (forall name, In name names -> utf8 name = true /\ name <> EmptyString) ->
    CodecSafe conf (VNames names)
| safe_selection selection :
    type conf = DROPDOWN -> multistate conf = true ->
    NoDup (obj_keys selection) -> dropOff selection <> [] ->
    (forall name sv,
        In (name, sv) (dropOff selection) ->
        plainName name /\ (1 <= count sv)%Z /\ safeInteger (count sv) /\
        ((1 < count sv)%Z -> state sv = st_or)) ->
    CodecSafe conf (VSelection selection).

(** What holds of every entry [parseCompactFiltersFromUrl] returns: it is
    touched, its key is a key of the filter table, its value has the shape
    of the filter's kind and is not empty; the entries of a selection have
    different names, a state other than [off] and a count other than 0. *)
Definition parsedEntry (k : string) (e : FilterEntry) : Prop :=
  interactedWith e = true /\
  exists conf,
    findConf k = Some conf /\ hasShape conf (value e) /\
    match value e with
    | VNames names => names <> []
    | VSelection selection =>
        selection <> [] /\ NoDup (obj_keys selection) /\
        forall name sv, In (name, sv) selection ->
                        state sv <> st_off /\ count sv <> 0%Z
    | VRange _ _ => True
    end.

(** What holds of every entry restored from the URL at startup: it is
    touched, its key is a key of the filter table, and a dropdown value is
    not empty and names available values only. *)
Definition restoredEntry (this : Service) (k : string) (e : FilterEntry)
  : Prop :=
  interactedWith e = true /\
  exists conf,
    findConf k = Some conf /\
    match value e with
    | VNames names =>
        names <> [] /\
        forall name, In name names ->
                     In name (getAvailableDropdownValues this conf)
    | VSelection selection =>
        selection <> [] /\
        forall name sv, In (name, sv) selection ->
                        In name (getAvailableDropdownValues this conf)
    | VRange _ _ => type conf = RANGE
    end.

(* ------------------------------------------------------------------ *)
(** *** The view state and its URL parameters *)

(** [SORT_OPTIONS], by key: [name], and the filters other than era,
    faction, equipment and source. *)
Definition SORT_OPTIONS : list string :=
  "name" ::
  map key
      (filter (fun f => negb (existsb (String.eqb (key f))
                                      ["era"; "faction"; "componentName";
                                       "source"]))
              ADVANCED_FILTERS).

Inductive SortDirection : Type := asc | desc.

(** The signals of the service that the URL carries, around the record of
    the data, the pilot skills and the range cache. *)
Record ViewState : Type := mkView {
  service : Service;
  search : string;
  filterState : FilterState;
  selectedSort : string;
  selectedSortDirection : SortDirection;
  expandedView : bool;
  urlStateInitialized : bool
}.

(** The state the constructor starts from. *)
Definition initialView (ds : DataService) : ViewState :=
  mkView (mkService ds 4 5 []) "" [] "name" asc false false.

Definition setPilotGunnerySkill (v : ViewState) (gunnery : Z) : ViewState :=
  mkView (mkService (dataService (service v)) gunnery
                    (pilotPilotingSkill (service v))
                    (totalRangesCache (service v)))
         (search v) (filterState v) (selectedSort v)
         (selectedSortDirection v) (expandedView v) (urlStateInitialized v).

Definition setPilotPilotingSkill (v : ViewState) (piloting : Z) : ViewState :=
  mkView (mkService (dataService (service v))
                    (pilotGunnerySkill (service v)) piloting
                    (totalRangesCache (service v)))
         (search v) (filterState v) (selectedSort v)
         (selectedSortDirection v) (expandedView v) (urlStateInitialized v).

(** A pilot skill parameter of the URL: the skill it sets, if any. *)
Definition skillParam (params : obj string) (name : string) : option Z :=
  match obj_get params name with
  | Some ((String _ _) as param) =>
      match Num.parseInt param with
      | Some skill =>
          if (0 <=? skill)%Z && (skill <=? 8)%Z then Some skill else None
      | None => None
      end
  | _ => None
  end.

(** The body of the effect of [loadFiltersFromUrlOnStartup], on the query
    parameters of the route.  A [q] that does not decode throws out of
    the effect: what stands behind it is not run. *)
Definition loadFiltersFromUrlOnStartup (params : obj string) (v : ViewState)
  : ViewState :=
  if isDataReady (dataService (service v)) && negb (urlStateInitialized v)
  then
    let expanded :=
      match obj_get params "expanded" with
      | Some expandedParam =>
          if String.eqb expandedParam "true" then true else expandedView v
      | None => expandedView v
      end in
    let searchSet :=
      match obj_get params "q" with
      | Some ((String _ _) as searchParam) =>
          option_map Some (decodeURIComponent searchParam)
      | _ => Some None
      end in
    match searchSet with
    | None =>
        mkView (service v) (search v) (filterState v) (selectedSort v)
               (selectedSortDirection v) expanded (urlStateInitialized v)
    | Some newSearch =>
        let search' :=
          match newSearch with Some s => s | None => search v end in
        let sort' :=
          match obj_get params "sort" with
          | Some ((String _ _) as sortParam) =>
              if existsb (fun opt => String.eqb opt sortParam) SORT_OPTIONS
              then sortParam else selectedSort v
          | _ => selectedSort v
          end in
        let direction' :=
          match obj_get params "sortDir" with
          | Some sortDirParam =>
              if String.eqb sortDirParam "desc" then desc
              else if String.eqb sortDirParam "asc" then asc
                   else selectedSortDirection v
          | None => selectedSortDirection v
          end in
        let filters' :=
          loadFilters (service v) (filterState v) (obj_get params "filters") in
        let v1 :=
          mkView (service v) search' filters' sort' direction' expanded
                 (urlStateInitialized v) in
        let v2 :=
          match skillParam params "gunnery" with
          | Some gunnery => setPilotGunnerySkill v1 gunnery
          | None => v1
          end in
        let v3 :=
          match skillParam params "piloting" with
          | Some piloting => setPilotPilotingSkill v2 piloting
          | None => v2
          end in
        mkView (service v3) (search v3) (filterState v3) (selectedSort v3)
               (selectedSortDirection v3) (expandedView v3) true
    end
  else v.

(** A value of the [queryParams] object handed to the router. *)
Inductive ParamValue : Type :=
| PText (s : string)
| PNumber (z : Z).

(** The parameter names the service owns. *)
Definition ownParams : list string :=
  ["q"; "sort"; "sortDir"; "filters"; "expanded"; "gunnery"; "piloting"].

Definition setWhen {V} (cond : bool) (k : string) (v : V) (o : obj V)
  : obj V :=
  if cond then obj_set o k v else o.

(** The first part of the effect of [updateUrlOnFiltersChange]: the
    parameters of the route that the service does not own are assigned
    to the [queryParams] object. *)
Definition preservedParams (currentParams : obj string) : obj ParamValue :=
  fold_left
    (fun queryParams k =>
       if negb (existsb (String.eqb k) ownParams) then
         match obj_get currentParams k with
         | Some value => obj_assign queryParams k (PText value)
         | None => queryParams
         end
       else queryParams)
    (obj_keys currentParams) [].

(** The second part: the parameters of the service, each written when it
    differs from its default. *)
Definition withOwnParams (v : ViewState) (queryParams0 : obj ParamValue)
  : obj ParamValue :=
  let queryParams1 :=
    match trim (search v) with
    | EmptyString => queryParams0
    | trimmed => obj_set queryParams0 "q" (PText (encodeURIComponent trimmed))
    end in
  let queryParams2 :=
    setWhen (negb (String.eqb (selectedSort v) "name")) "sort"
            (PText (selectedSort v)) queryParams1 in
  let queryParams3 :=
    match selectedSortDirection v with
    | asc => queryParams2
    | desc => obj_set queryParams2 "sortDir" (PText "desc")
    end in
  let queryParams4 :=
    match generateCompactFiltersParam (filterState v) with
    | Some ((String _ _) as filtersParam) =>
        obj_set queryParams3 "filters" (PText filtersParam)
    | _ => queryParams3
    end in
  let queryParams5 :=
    setWhen (negb (pilotGunnerySkill (service v) =? 4)%Z) "gunnery"
            (PNumber (pilotGunnerySkill (service v))) queryParams4 in
  let queryParams6 :=
    setWhen (negb (pilotPilotingSkill (service v) =? 5)%Z) "piloting"
            (PNumber (pilotPilotingSkill (service v))) queryParams5 in
  setWhen (expandedView v) "expanded" (PText "true") queryParams6.

(** The body of the effect of [updateUrlOnFiltersChange]: the
    [queryParams] it navigates to, from the parameters of the route;
    [None] when it returns before navigating. *)
Definition updateUrlOnFiltersChange (currentParams : obj string)
           (v : ViewState) : option (obj ParamValue) :=
  if negb (urlStateInitialized v) then None
  else Some (withOwnParams v (preservedParams currentParams)).

(** The text of a parameter in the URL: a number is written by
    [String(n)]. *)
Definition paramText (value : ParamValue) : string :=
  match value with
  | PText s => s
  | PNumber z => Num.toString z
  end.

(** The parameters a later visit reads from the URL that was written. *)
Definition paramsOfUrl (queryParams : obj ParamValue) : obj string :=
  map (fun p => (fst p, paramText (snd p))) queryParams.

Definition clearFilters (v : ViewState) : ViewState :=
  mkView (mkService (dataService (service v)) 4 5
                    (totalRangesCache (service v)))
         "" [] "name" asc (expandedView v) (urlStateInitialized v).

(** The settings the URL can set at startup stay in what the service
    offers: a sort key of [SORT_OPTIONS], pilot skills from 0 to 8. *)
Definition settingsValid (v : ViewState) : Prop :=
  In (selectedSort v) SORT_OPTIONS /\
  (0 <= pilotGunnerySkill (service v) <= 8)%Z /\
  (0 <= pilotPilotingSkill (service v) <= 8)%Z.

(* ------------------------------------------------------------------ *)
(** *** The result list: search, filters, order *)

(** [s.split(/[...]/)] for a class of single characters. *)
Fixpoint splitOn (p : ascii -> bool) (s : string) : list string :=
  match s with
  | EmptyString => [EmptyString]
  | String a r =>
      if p a then EmptyString :: splitOn p r
      else match splitOn p r with
           | h :: t => String a h :: t
           | [] => [String a EmptyString]
           end
  end.

(** [s.split(/\s+/)]: the pieces between the runs of white space;
    [inRun] tells that the character before was white space. *)
Fixpoint splitRuns (inRun : bool) (s : string) : list string :=
  match s with
  | EmptyString => [EmptyString]
  | String a r =>
      let piece :=
        match splitRuns false r with
        | h :: t => String a h :: t
        | [] => [String a EmptyString]
        end in
      if isSpace a then
        if inRun then splitRuns true r else EmptyString :: splitRuns true r
      else
        match r with
        | String b r2 =>
            if isSpace2 a b then
              if inRun then splitRuns true r2
              else EmptyString :: splitRuns true r2
            else
              match r2 with
              | String c r3 =>
                  if isSpace3 a b c then
                    if inRun then splitRuns true r3
                    else EmptyString :: splitRuns true r3
                  else piece
              | EmptyString => piece
              end
        | EmptyString => piece
        end
  end.

(** [Boolean(s)] for a string. *)
Definition nonEmpty (s : string) : bool :=
  match s with EmptyString => false | _ => true end.

(** [s.length] of a JavaScript string, in UTF-16 code units, from the
    bytes of the embedding: a continuation byte counts for nothing, the
    lead byte of a four-byte sequence for a surrogate pair. *)
Definition utf16Length (s : string) : nat :=
  fold_right
    (fun c acc =>
       let k := nat_of_ascii c in
       ((if k <? 128 then 1 else if k <? 192 then 0
         else if k <? 240 then 1 else 2) + acc)%nat)
    0%nat (list_ascii_of_string s).

(** The comparator [(a, b) => b.length - a.length]. *)
Definition longestFirst (a b : string) : Z :=
  (Z.of_nat (utf16Length b) - Z.of_nat (utf16Length a))%Z.

(** [Array.prototype.sort(compare)] on any elements, as [sort] is on
    strings. *)
Section SortBy.
Context {A : Type}.
Variable compare : A -> A -> Z.

Fixpoint insertBy (x : A) (l : list A) : list A :=
  match l with
  | [] => [x]
  | y :: r =>
      if (compare y x <=? 0)%Z then y :: insertBy x r
      else x :: y :: r
  end.

Definition sortBy (l : list A) : list A :=
  fold_left (fun acc x => insertBy x acc) l [].
End SortBy.

(** [(a.chassis || '')] and [(a.year || 0)], the fields read at the types
    [Unit] declares for them. *)
Definition textOf (v : PropValue) : string :=
  match v with PScalar (SStr s) => s | _ => EmptyString end.

Definition numberOf (v : PropValue) : Z :=
  match v with PScalar (SNum z) => z | _ => 0%Z end.

Section Results.

(** [BVCalculatorUtil.calculateAdjustedBV], [String.prototype.localeCompare],
    [String.prototype.toLowerCase] and [DataService.removeAccents]. *)
Variable calculateAdjustedBV : Z -> Z -> Z -> Z.
Variable localeCompare : string -> string -> Z.
Variable toLowerCase : string -> string.
Variable removeAccents : string -> string.

(** The words of one group of the query, as [filteredUnits] hands them to
    [matchesWords]. *)
Definition searchWords (group : string) : list string :=
  sort longestFirst
       (set_of_list String.eqb
                    (map removeAccents
                         (filter nonEmpty (splitRuns false group)))).

Definition orGroupsOf (query : string) : list string :=
  filter nonEmpty
         (map trim
              (splitOn (fun c => Ascii.eqb c "," || Ascii.eqb c ";") query)).

(** The search stage of [filteredUnits] (and of [advOptions], which
    repeats it). *)
Definition searchUnits (searchText : string) (results : list Unit)
  : list Unit :=
  let query := toLowerCase (trim searchText) in
  match query with
  | EmptyString => results
  | _ =>
      let orGroups := orGroupsOf query in
      filter (fun unit =>
                existsb (fun group => matchesWords unit (searchWords group))
                        orGroups)
             results
  end.

(** The comparator of the sort in [filteredUnits]. *)
Definition compareUnits (this : Service) (sortKey : string)
           (sortDirection : SortDirection) (a b : Unit) : Z :=
  let comparison :=
    if String.eqb sortKey "name" then
      let byChassis :=
        localeCompare (textOf (prop a "chassis")) (textOf (prop b "chassis")) in
      if (byChassis =? 0)%Z then
        let byModel :=
          localeCompare (textOf (prop a "model")) (textOf (prop b "model")) in
        if (byModel =? 0)%Z then
          (numberOf (prop a "year") - numberOf (prop b "year"))%Z
        else byModel
      else byChassis
    else if String.eqb sortKey "bv" then
      (getAdjustedBV calculateAdjustedBV this a
       - getAdjustedBV calculateAdjustedBV this b)%Z
    else
      match prop a sortKey, prop b sortKey with
      | PScalar (SStr aValue), PScalar (SStr bValue) =>
          localeCompare aValue bValue
      | PScalar (SNum aValue), PScalar (SNum bValue) => (aValue - bValue)%Z
      | _, _ => 0%Z
      end in
  match sortDirection with
  | desc => (- comparison)%Z
  | asc => comparison
  end.

Definition filteredUnits (v : ViewState) : list Unit :=
  let this := service v in
  if negb (isDataReady (dataService this)) then []
  else
    let results := searchUnits (search v) (units this) in
    let results :=
      applyFilters calculateAdjustedBV this results (filterState v) in
    sortBy (compareUnits this (selectedSort v) (selectedSortDirection v))
           results.

(** What [filteredUnits] asks of a unit. *)
Definition passes (v : ViewState) (unit : Unit) : bool :=
  match toLowerCase (trim (search v)) with
  | EmptyString => true
  | query =>
      existsb (fun group => matchesWords unit (searchWords group))
              (orGroupsOf query)
  end
  && externalKeeps (service v) (filterState v) unit
  && forallb (fun conf =>
                standardKeeps calculateAdjustedBV (service v)
                              (filterState v) conf unit)
             ADVANCED_FILTERS.

End Results.

(* ------------------------------------------------------------------ *)
(** *** Example data for the view *)

Module ExampleView.

(** A stand-in for [toLowerCase]: the ASCII letters. *)
Definition lower (s : string) : string :=
  string_of_list_ascii
    (map (fun c =>
            let k := nat_of_ascii c in
            if ((65 <=? k) && (k <=? 90))%nat then ascii_of_nat (k + 32)
            else c)
         (list_ascii_of_string s)).

(** A stand-in for [DataService.removeAccents], for text without
    accents. *)
Definition plain (s : string) : string := s.

Definition view : ViewState :=
  mkView (mkService Example.data 3 5 [("bv", (50, 500)%Z)])
         "  Atlas " [("type", mkEntry (VNames ["Mek"]) true)]
         "bv" desc true true.

End ExampleView.

(* ------------------------------------------------------------------ *)
(** *** The compact string before and after [decodeURIComponent] *)

(** The compact string of a filter state with its names written by
    [write]: by [encodeURIComponent] it is what
    [generateCompactFiltersParam] returns, by the identity what one
    [decodeURIComponent] makes of that. *)
Section Writer.
Variable write : string -> string.

Definition writeSelectionEntry (name : string)
           (selectionValue : SelectionValue) : string :=
  let part := write name in
  let part :=
    match state selectionValue with
    | st_and => (part ++ ".")%string
    | st_not => (part ++ "!")%string
    | _ => part
    end in
  if (1 <? count selectionValue)%Z
  then (part ++ "~" ++ Num.toString (count selectionValue))%string
  else part.

Definition writeEntry (k : string) (filterState : FilterEntry)
  : list string :=
  if negb (interactedWith filterState) then []
  else
    match findConf k with
    | None => []
    | Some conf =>
        match type conf, value filterState with
        | RANGE, VRange min max =>
            [(k ++ ":" ++ Num.toString min ++ "-" ++ Num.toString max)%string]
        | RANGE, _ => []
        | DROPDOWN, v =>
            if multistate conf then
              match v with
              | VSelection selection =>
                  let subParts :=
                    flat_map
                      (fun e =>
                         if negb (MultiState_eqb (state (snd e)) st_off)
                         then [writeSelectionEntry (fst e) (snd e)]
                         else [])
                      selection in
                  match subParts with
                  | [] => []
                  | _ :: _ => [(k ++ ":" ++ join "," subParts)%string]
                  end
              | _ => []
              end
            else
              match v with
              | VNames ((_ :: _) as values) =>
                  [(k ++ ":" ++ join "," (map write values))%string]
              | _ => []
              end
        end
    end.

Definition writeParts (st : FilterState) : list string :=
  flat_map (fun e => writeEntry (fst e) (snd e)) st.

End Writer.

(** The names a filter value selects. *)
Definition namesOfValue (v : FilterValue) : list string :=
  match v with
  | VNames names => names
  | VSelection selection => obj_keys (dropOff selection)
  | VRange _ _ => []
  end.

(** A name that the URL carries through the two decodings of the startup
    load: it has none of [%], [,] and [|]. *)
Definition urlName (name : string) : Prop :=
  indexOfChar name "%" = None /\ indexOfChar name "," = None /\
  indexOfChar name "|" = None.

(* ------------------------------------------------------------------ *)
(** *** [recalculateBVRange]: the filter state it leaves *)

Section Recalculate.
Variable calculateAdjustedBV : Z -> Z -> Z -> Z.
Variable this : Service.

(** The second half of [recalculateBVRange]: a touched [bv] interval is
    cut to the new total range and stored by [setFilter] when that
    changes it.  [baseUnits] are the units the text search has left.
    [setFilter] reads the options from [advOptions], a computed signal
    that the calling effect has evaluated before the cache is written and
    that no signal has invalidated since: they are the options of the
    service as it was.  A touched value that is not an interval is
    outside the embedding and left as it is. *)
Definition recalculateBVRangeState (baseUnits : list Unit)
           (st : FilterState) : FilterState :=
  match filter (fun b => (0 <? b)%Z)
               (map (getAdjustedBV calculateAdjustedBV this)
                    (units this)) with
  | [] => st
  | h :: t =>
      let min := minOf h t in
      let max := maxOf h t in
      match obj_get st "bv" with
      | Some (mkEntry (VRange lo hi) true) =>
          let adjustedValue := (Z.max min lo, Z.min max hi) in
          if negb (fst adjustedValue =? lo)%Z
             || negb (snd adjustedValue =? hi)%Z
          then setFilter calculateAdjustedBV this baseUnits st "bv"
                         (VRange (fst adjustedValue) (snd adjustedValue))
          else st
      | _ => st
      end
  end.

End Recalculate.

(* ================================================================== *)
(** ** Facts about the built-ins *)
(* ================================================================== *)

Unset Implicit Arguments.

Section SetFacts.
Context {A : Type}.
Variable aeq : A -> A -> bool.
Hypothesis aeq_spec : forall x y, aeq x y = true <-> x = y.

Lemma set_has_In (s : list A) (x : A) : set_has aeq s x = true <-> In x s.
Proof.
  unfold set_has. rewrite existsb_exists. split.
  - intros [y [Hy Heq]]. apply aeq_spec in Heq. now subst.
  - intros H. exists x. split; [assumption | now apply aeq_spec].
Qed.

Lemma In_set_add (s : list A) (x y : A) :
  In y (set_add aeq s x) <-> In y s \/ y = x.
Proof.
  unfold set_add. destruct (set_has aeq s x) eqn:E.
  - apply set_has_In in E. split; [auto | intros [H | ->]; assumption].
  - rewrite in_app_iff. simpl. intuition.
Qed.

Lemma In_fold_set_add (l acc : list A) (y : A) :
  In y (fold_left (set_add aeq) l acc) <-> In y acc \/ In y l.
Proof.
  revert acc. induction l as [|x l IH]; intros acc; simpl.
  - tauto.
  - rewrite IH, In_set_add. intuition.
Qed.

Lemma In_set_of_list (l : list A) (y : A) :
  In y (set_of_list aeq l) <-> In y l.
Proof.
  unfold set_of_list. rewrite In_fold_set_add. simpl. tauto.
Qed.

Lemma set_add_fresh (s : list A) (x : A) :
  ~ In x s -> set_add aeq s x = s ++ [x].
Proof.
  intros H. unfold set_add. destruct (set_has aeq s x) eqn:E; [|reflexivity].
  apply set_has_In in E. contradiction.
Qed.

Lemma fold_set_add_NoDup (l acc : list A) :
  NoDup (acc ++ l) -> fold_left (set_add aeq) l acc = acc ++ l.
Proof.
  revert acc. induction l as [|x l IH]; intros acc H; simpl.
  - now rewrite app_nil_r.
  - rewrite set_add_fresh.
    + rewrite IH; rewrite <- app_assoc; simpl; [reflexivity | assumption].
    + apply NoDup_remove_2 in H. intros Hin. apply H.
      apply in_or_app. now left.
Qed.

(** [new Set(array)] of an array without duplicates lists the array. *)
Lemma set_of_list_NoDup (l : list A) : NoDup l -> set_of_list aeq l = l.
Proof. intros H. unfold set_of_list. now rewrite fold_set_add_NoDup. Qed.

Lemma In_set_delete (s : list A) (x y : A) :
  In y (set_delete aeq s x) <-> In y s /\ y <> x.
Proof.
  unfold set_delete. rewrite filter_In. split; intros [H1 H2]; split; auto.
  - intros ->. rewrite (proj2 (aeq_spec x x) eq_refl) in H2. discriminate.
  - destruct (aeq x y) eqn:E; [|reflexivity].
    apply aeq_spec in E. congruence.
Qed.
End SetFacts.

Lemma scalar_eqb_spec (a b : Scalar) : scalar_eqb a b = true <-> a = b.
Proof.
  destruct a, b; simpl; split; intros H; try discriminate; try reflexivity.
  - apply String.eqb_eq in H. now subst.
  - inversion H. apply String.eqb_refl.
  - apply Z.eqb_eq in H. now subst.
  - inversion H. apply Z.eqb_refl.
Qed.

Lemma string_eqb_spec (a b : string) : String.eqb a b = true <-> a = b.
Proof. apply String.eqb_eq. Qed.

Lemma Z_eqb_spec (a b : Z) : Z.eqb a b = true <-> a = b.
Proof. apply Z.eqb_eq. Qed.

(* ================================================================== *)
(** ** Tri-state matcher *)
(* ================================================================== *)

Lemma partitionSelection_not (sel : MultiStateSelection) (name : string)
      (c : Z) :
  In (name, mkSel st_not c) sel -> In name (notSet (partitionSelection sel)).
Proof.
  unfold partitionSelection.
  assert (G : forall l acc,
             In name (notSet acc) \/ In (name, mkSel st_not c) l ->
             In name (notSet (fold_left
               (fun acc entry =>
                  let '(name, selectionValue) := entry in
                  match state selectionValue with
                  | st_or =>
                      mkPartition
                        (orList acc ++ [mkNameCount name (count selectionValue)])
                        (andList acc) (notSet acc)
                  | st_and =>
                      mkPartition (orList acc)
                        (andList acc ++ [mkNameCount name (count selectionValue)])
                        (notSet acc)
                  | st_not =>
                      mkPartition (orList acc) (andList acc)
                                  (set_add String.eqb (notSet acc) name)
                  | st_off => acc
                  end) l acc))).
  { induction l as [|[nm sv] l IH]; intros acc H; simpl.
    - destruct H as [H | []]. exact H.
    - apply IH. destruct H as [H | [H | H]].
      + left. destruct (state sv); simpl; auto.
        apply (In_set_add _ string_eqb_spec). now left.
      + left. inversion H; subst. simpl.
        apply (In_set_add _ string_eqb_spec). now right.
      + now right. }
  intros H. apply G. now right.
Qed.

Lemma componentNames_complete (u : Unit) (c : Component) :
  In c (comp u) -> In (n c) (componentNames (getUnitComponentData u)).
Proof.
  unfold getUnitComponentData.
  generalize (mkComponentData [] []).
  induction (comp u) as [|c' l IH]; intros acc H; simpl.
  - destruct H.
  - destruct H as [-> | H].
    + clear IH.
      set (acc' := mkComponentData _ _).
      assert (Hin : In (n c) (componentNames acc')).
      { subst acc'. simpl. apply (In_set_add _ string_eqb_spec). now right. }
      clearbody acc'. revert acc' Hin.
      induction l as [|c2 l IH]; intros acc' Hin; simpl; [exact Hin|].
      apply IH. simpl. apply (In_set_add _ string_eqb_spec). now left.
    + now apply IH.
Qed.

(** The names of a record contain every value it possesses for the key. *)
Lemma unitData_possesses (needs : bool) (k name : string) (u : Unit) :
  possesses u k name ->
  set_has scalar_eqb
          (names (unitDataOf needs (String.eqb k "componentName") k u))
          (SStr name) = true.
Proof.
  unfold possesses, unitDataOf. intros H.
  apply (set_has_In _ scalar_eqb_spec).
  destruct (String.eqb k "componentName"); simpl.
  - destruct H as [c [Hc <-]]. apply in_map.
    now apply componentNames_complete.
  - apply (In_set_of_list _ scalar_eqb_spec). apply filter_In.
    split; [exact H | reflexivity].
Qed.

(** C5. Tri-state matcher: when an entry of the selection has the state
    [not] and names a value the record possesses for the key, the record is
    not in the output of [filterUnitsByMultiState], whatever the AND and OR
    entries of the selection are. *)
Theorem not_entry_excludes :
  forall (units : list Unit) (k : string) (selection : MultiStateSelection)
         (name : string) (c : Z) (u : Unit),
    In (name, mkSel st_not c) selection ->
    possesses u k name ->
    ~ In u (filterUnitsByMultiState units k selection).
Proof.
  intros units k selection name c u Hsel Hposs Hin.
  pose proof (partitionSelection_not selection name c Hsel) as Hnot.
  unfold filterUnitsByMultiState in Hin.
  set (p := partitionSelection selection) in *.
  assert (Hkeep : forall needs orMap andMap,
             multiStateKeeps needs orMap andMap (notSet p)
               (unitDataOf needs (String.eqb k "componentName") k u) = false).
  { intros needs orMap andMap. unfold multiStateKeeps.
    replace (existsb _ (notSet p)) with true; [reflexivity|].
    symmetry. apply existsb_exists. exists name. split; [exact Hnot|].
    now apply unitData_possesses. }
  destruct (notSet p) as [|x nots] eqn:En; [destruct Hnot|].
  destruct (orList p), (andList p);
    apply filter_In in Hin; destruct Hin as [_ Hin];
    rewrite Hkeep in Hin; discriminate.
Qed.

(** The claim at a record that also satisfies the AND and the OR entry. *)
Lemma not_entry_excludes_witness :
  let u := mkUnit 1 100 [] None None
                  (fun _ => PArr [SStr "Narrow"; SStr "Stable"; SStr "Fast"]) in
  ~ In u (filterUnitsByMultiState [u] "quirks"
            [("Stable", mkSel st_and 1); ("Fast", mkSel st_or 1);
             ("Narrow", mkSel st_not 1)]).
Proof.
  intros u.
  apply (not_entry_excludes [u] "quirks" _ "Narrow" 1%Z u).
  - simpl. auto.
  - unfold possesses. simpl. auto.
Defined.

(* ================================================================== *)
(** ** Objects *)
(* ================================================================== *)

Section ObjFacts.
Context {V : Type}.

Lemma obj_get_set (o : obj V) (k k' : string) (v : V) :
  obj_get (obj_set o k v) k' = if String.eqb k k' then Some v else obj_get o k'.
Proof.
  unfold obj_get, obj_set.
  induction o as [|[k0 v0] r IH]; simpl.
  - reflexivity.
  - destruct (String.eqb k0 k) eqn:E0; simpl.
    + apply String.eqb_eq in E0. subst k0.
      destruct (String.eqb k k'); reflexivity.
    + destruct (String.eqb k0 k') eqn:E1.
      * apply String.eqb_eq in E1. subst k'.
        rewrite String.eqb_sym, E0. reflexivity.
      * exact IH.
Qed.

Lemma obj_get_delete (o : obj V) (k k' : string) :
  obj_get (obj_delete o k) k' = if String.eqb k k' then None else obj_get o k'.
Proof.
  unfold obj_get, obj_delete.
  induction o as [|[k0 v0] r IH]; simpl.
  - destruct (String.eqb k k'); reflexivity.
  - destruct (String.eqb k0 k) eqn:E0; simpl.
    + apply String.eqb_eq in E0. subst k0. rewrite IH.
      destruct (String.eqb k k'); reflexivity.
    + rewrite IH. destruct (String.eqb k0 k') eqn:E1; [|reflexivity].
      apply String.eqb_eq in E1. subst k'. now rewrite String.eqb_sym, E0.
Qed.

Lemma obj_get_None (o : obj V) (k : string) :
  ~ In k (obj_keys o) -> obj_get o k = None.
Proof.
  unfold obj_get, obj_keys.
  induction o as [|[k0 v0] r IH]; simpl; intros H; [reflexivity|].
  destruct (String.eqb k0 k) eqn:E.
  - apply String.eqb_eq in E. tauto.
  - apply IH. tauto.
Qed.

Lemma obj_get_In (o : obj V) (k : string) (v : V) :
  obj_get o k = Some v -> In (k, v) o.
Proof.
  unfold obj_get.
  induction o as [|[k0 v0] r IH]; simpl; intros H; [discriminate|].
  destruct (String.eqb k0 k) eqn:E.
  - apply String.eqb_eq in E. inversion H. subst. now left.
  - right. now apply IH.
Qed.

Lemma obj_keys_set (o : obj V) (k x : string) (v : V) :
  In x (obj_keys (obj_set o k v)) <-> In x (obj_keys o) \/ x = k.
Proof.
  unfold obj_keys, obj_set.
  induction o as [|[k0 v0] r IH]; simpl.
  - intuition.
  - destruct (String.eqb k0 k) eqn:E; simpl.
    + apply String.eqb_eq in E. subst. intuition.
    + rewrite IH. intuition.
Qed.

Lemma obj_keys_delete (o : obj V) (k x : string) :
  In x (obj_keys (obj_delete o k)) -> In x (obj_keys o).
Proof.
  unfold obj_keys, obj_delete.
  induction o as [|[k0 v0] r IH]; simpl; [tauto|].
  destruct (String.eqb k0 k); simpl; intuition.
Qed.

Lemma wellKeyed_set (o : obj V) (k : string) (v : V) :
  wellKeyed o -> wellKeyed (obj_set o k v).
Proof.
  unfold wellKeyed.
  induction o as [|[k0 v0] r IH]; intros H.
  - simpl. constructor; [intros [] | constructor].
  - unfold obj_set, obj_keys in *. simpl in *.
    inversion H as [|? ? Hn Hr]; subst.
    destruct (String.eqb k0 k) eqn:E; simpl.
    + apply String.eqb_eq in E. subst. now constructor.
    + constructor; [|now apply IH].
      intros Hin. apply (obj_keys_set r k k0 v) in Hin.
      destruct Hin as [Hin | ->]; [tauto|].
      rewrite String.eqb_refl in E. discriminate.
Qed.

Lemma wellKeyed_delete (o : obj V) (k : string) :
  wellKeyed o -> wellKeyed (obj_delete o k).
Proof.
  unfold wellKeyed.
  induction o as [|[k0 v0] r IH]; intros H; [exact H|].
  unfold obj_delete, obj_keys in *. simpl in *.
  inversion H as [|? ? Hn Hr]; subst.
  destruct (String.eqb k0 k); [now apply IH|].
  simpl. constructor; [|now apply IH].
  intros Hin. apply Hn. now apply (obj_keys_delete r k k0).
Qed.

Lemma obj_get_filter (p : string * V -> bool) (o : obj V) (k : string) :
  wellKeyed o ->
  obj_get (filter p o) k =
  match obj_get o k with
  | Some v => if p (k, v) then Some v else None
  | None => None
  end.
Proof.
  unfold wellKeyed, obj_get, obj_keys.
  induction o as [|[k0 v0] r IH]; intros H; simpl; [reflexivity|].
  inversion H as [|? ? Hn Hr]; subst.
  destruct (String.eqb k0 k) eqn:E.
  - apply String.eqb_eq in E. subst k0.
    destruct (p (k, v0)); simpl.
    + now rewrite String.eqb_refl.
    + apply (obj_get_None (filter p r) k).
      intros Hin. apply Hn. unfold obj_keys in Hin.
      apply in_map_iff in Hin. destruct Hin as [[k1 v1] [<- Hin]].
      apply filter_In in Hin. apply in_map_iff.
      exists (k1, v1). tauto.
  - destruct (p (k0, v0)); simpl; [rewrite E|]; now apply IH.
Qed.
End ObjFacts.

Lemma obj_get_fold_set {V W : Type} (f : V -> W) (l : obj V) (k : string) :
  wellKeyed l ->
  obj_get (fold_left (fun acc e => obj_set acc (fst e) (f (snd e))) l []) k
  = option_map f (obj_get l k).
Proof.
  induction l as [|[k0 v0] l IH] using rev_ind; intros H; [reflexivity|].
  rewrite fold_left_app. simpl. rewrite obj_get_set.
  unfold wellKeyed, obj_keys in H. rewrite map_app in H. simpl in H.
  assert (Hl : wellKeyed l) by (now apply NoDup_app_remove_r in H).
  assert (Hk0 : ~ In k0 (obj_keys l)).
  { intros Hin. apply NoDup_remove_2 in H. apply H.
    rewrite app_nil_r. exact Hin. }
  rewrite (IH Hl). clear IH.
  assert (G : forall (o : obj V),
             obj_get (o ++ [(k0, v0)]) k =
             match obj_get o k with
             | Some v => Some v
             | None => if String.eqb k0 k then Some v0 else None
             end).
  { unfold obj_get. induction o as [|[k1 v1] o IHo]; simpl.
    - reflexivity.
    - destruct (String.eqb k1 k); [reflexivity | exact IHo]. }
  rewrite G. destruct (String.eqb k0 k) eqn:E.
  - apply String.eqb_eq in E. subst k0.
    now rewrite (obj_get_None l k Hk0).
  - destruct (obj_get l k); reflexivity.
Qed.

(* ================================================================== *)
(** ** The filtering pipeline *)
(* ================================================================== *)

Lemma filter_true {A} (l : list A) : filter (fun _ => true) l = l.
Proof. induction l; simpl; congruence. Qed.

Lemma filter_filter {A} (p q : A -> bool) (l : list A) :
  filter q (filter p l) = filter (fun x => p x && q x) l.
Proof.
  induction l as [|x l IH]; simpl; [reflexivity|].
  destruct (p x); simpl; [destruct (q x)|]; now rewrite IH.
Qed.

Lemma fold_left_filter {A C} (q : C -> A -> bool) (cs : list C) (l : list A) :
  fold_left (fun acc c => filter (q c) acc) cs l
  = filter (fun x => forallb (fun c => q c x) cs) l.
Proof.
  revert l. induction cs as [|c cs IH]; intros l; simpl.
  - now rewrite filter_true.
  - rewrite IH, filter_filter. reflexivity.
Qed.

(** A function that filters by some predicate filters by what it does on
    the lists of one element. *)
Lemma filter_by_singletons {A} (f : list A -> list A) (p : A -> bool) :
  (forall l, f l = filter p l) ->
  forall l, f l = filter (fun u => match f [u] with
                                   | [] => false
                                   | _ :: _ => true
                                   end) l.
Proof.
  intros H l. rewrite H. apply filter_ext. intros u.
  rewrite H. simpl. destruct (p u); reflexivity.
Qed.

Lemma filterUnitsByMultiState_filter (k : string)
      (selection : MultiStateSelection) :
  exists p, forall units,
      filterUnitsByMultiState units k selection = filter p units.
Proof.
  unfold filterUnitsByMultiState.
  destruct (orList (partitionSelection selection)),
           (andList (partitionSelection selection)),
           (notSet (partitionSelection selection));
    try (eexists; intros units; reflexivity).
  exists (fun _ => true). intros units. now rewrite filter_true.
Qed.

Section PipelineFacts.
Variable calculateAdjustedBV : Z -> Z -> Z -> Z.
Variable this : Service.

Local Abbreviation applyFilters := (applyFilters calculateAdjustedBV this).
Local Abbreviation applyStandardFilter := (applyStandardFilter calculateAdjustedBV this).
Local Abbreviation standardKeeps := (standardKeeps calculateAdjustedBV this).

Lemma activeFilters_get (st : FilterState) (k : string) :
  wellKeyed st -> obj_get (activeFiltersOf st) k = touchedValue st k.
Proof.
  intros H. unfold activeFiltersOf, touchedValue.
  rewrite (obj_get_fold_set value).
  - rewrite obj_get_filter by assumption.
    destruct (obj_get st k) as [e|]; [|reflexivity].
    simpl. destruct (interactedWith e); reflexivity.
  - unfold wellKeyed, obj_keys in *.
    clear -H. induction st as [|[k0 e0] st IH]; simpl; [constructor|].
    inversion H as [|? ? Hn Hr]; subst.
    destruct (interactedWith e0); simpl; [|now apply IH].
    constructor; [|now apply IH].
    intros Hin. apply Hn. apply in_map_iff in Hin.
    destruct Hin as [[k1 e1] [<- Hin]]. apply filter_In in Hin.
    apply in_map_iff. exists (k1, e1). tauto.
Qed.

Lemma applyExternalFilters_filter (units : list Unit) (st : FilterState) :
  applyExternalFilters this units st = filter (externalKeeps this st) units.
Proof.
  unfold applyExternalFilters, externalKeeps, externalIds.
  destruct (namesOf (obj_get (activeFiltersOf st) "faction")) as [|f fs].
  - destruct (namesOf (obj_get (activeFiltersOf st) "era")) as [|e es].
    + now rewrite filter_true.
    + reflexivity.
  - reflexivity.
Qed.

Lemma applyStandardFilter_filter_ex (st : FilterState)
      (conf : AdvFilterConfig) :
  exists p, forall results, applyStandardFilter st results conf = filter p results.
Proof.
  unfold applyStandardFilter.
  assert (Hid : exists p : Unit -> bool, forall results : list Unit,
               results = filter p results).
  { exists (fun _ => true). intros. now rewrite filter_true. }
  destruct (external conf); [exact Hid|].
  destruct (obj_get st (key conf)) as [e|]; [|exact Hid].
  destruct (negb (interactedWith e)); [exact Hid|].
  destruct (type conf), (multistate conf), (value e) as [[|x l]|sel|lo hi];
    try exact Hid;
    try (apply filterUnitsByMultiState_filter);
    try (eexists; intros results; reflexivity).
  - destruct (String.eqb (key conf) "bv"); eexists; intros; reflexivity.
  - destruct (String.eqb (key conf) "bv"); eexists; intros; reflexivity.
Qed.

Lemma applyStandardFilter_filter (st : FilterState) (conf : AdvFilterConfig)
      (results : list Unit) :
  applyStandardFilter st results conf = filter (standardKeeps st conf) results.
Proof.
  destruct (applyStandardFilter_filter_ex st conf) as [p Hp].
  unfold standardKeeps.
  apply (filter_by_singletons (fun l => applyStandardFilter st l conf) p Hp).
Qed.

(** The pipeline keeps the units every stage keeps. *)
Lemma applyFilters_filter (units : list Unit) (st : FilterState) :
  applyFilters units st =
  filter (fun u => externalKeeps this st u
                   && forallb (fun c => standardKeeps st c u) ADVANCED_FILTERS)
         units.
Proof.
  unfold applyFilters.
  rewrite applyExternalFilters_filter.
  rewrite <- filter_filter. rewrite <- fold_left_filter.
  generalize (filter (externalKeeps this st) units).
  generalize ADVANCED_FILTERS.
  induction l as [|c cs IH]; intros l; simpl; [reflexivity|].
  rewrite applyStandardFilter_filter. apply IH.
Qed.

Lemma In_applyFilters (units : list Unit) (st : FilterState) (u : Unit) :
  In u (applyFilters units st) <->
  In u units /\ externalKeeps this st u = true /\
  forall c, In c ADVANCED_FILTERS -> standardKeeps st c u = true.
Proof.
  rewrite applyFilters_filter, filter_In, andb_true_iff, forallb_forall.
  tauto.
Qed.

(** The external stage reads the state through the touched values of
    [era] and [faction] only. *)
Lemma externalIds_ext (st st' : FilterState) :
  wellKeyed st -> wellKeyed st' ->
  touchedValue st "era" = touchedValue st' "era" ->
  touchedValue st "faction" = touchedValue st' "faction" ->
  externalIds this st = externalIds this st'.
Proof.
  intros H H' He Hf. unfold externalIds.
  rewrite !activeFilters_get by assumption. now rewrite He, Hf.
Qed.

(** A turn of the loop reads the state through the touched value of its
    own key only. *)
Lemma applyStandardFilter_ext (st st' : FilterState) (conf : AdvFilterConfig)
      (results : list Unit) :
  touchedValue st (key conf) = touchedValue st' (key conf) ->
  applyStandardFilter st results conf = applyStandardFilter st' results conf.
Proof.
  unfold touchedValue, applyStandardFilter. intros H.
  destruct (external conf); [reflexivity|].
  destruct (obj_get st (key conf)) as [[v b]|],
           (obj_get st' (key conf)) as [[v' b']|]; simpl in *;
    try destruct b; try destruct b'; simpl; try discriminate;
    try reflexivity.
  inversion H. reflexivity.
Qed.

Lemma applyFilters_ext (st st' : FilterState) (units : list Unit) :
  wellKeyed st -> wellKeyed st' ->
  (forall k, touchedValue st k = touchedValue st' k) ->
  applyFilters units st = applyFilters units st'.
Proof.
  intros H H' Heq. unfold applyFilters.
  rewrite !applyExternalFilters_filter. unfold externalKeeps.
  rewrite (externalIds_ext st st') by auto.
  generalize (filter (fun u => match externalIds this st' with
                               | Some finalIds => set_has Z.eqb finalIds (id u)
                               | None => true
                               end) units).
  generalize ADVANCED_FILTERS.
  induction l as [|c cs IH]; intros l; simpl; [reflexivity|].
  rewrite (applyStandardFilter_ext st st') by auto. apply IH.
Qed.

Lemma touchedValue_untouched (st : FilterState) (k k' : string)
      (v : FilterValue) :
  touchedValue (obj_set st k (mkEntry v false)) k'
  = touchedValue (obj_delete st k) k'.
Proof.
  unfold touchedValue. rewrite obj_get_set, obj_get_delete.
  destruct (String.eqb k k'); reflexivity.
Qed.

(** C3. For every filter key, every record list and every filter state,
    the pipeline gives the same result with the filter stored as untouched
    as with the filter's entry absent: an untouched filter never
    constrains, so that setting a filter back to untouched restores the
    result of the state without it. *)
Theorem untouched_filter_is_absent :
  forall (units : list Unit) (st : FilterState) (k : string)
         (v : FilterValue),
    wellKeyed st ->
    applyFilters units (obj_set st k (mkEntry v false))
    = applyFilters units (obj_delete st k).
Proof.
  intros units st k v H.
  apply applyFilters_ext.
  - now apply wellKeyed_set.
  - now apply wellKeyed_delete.
  - intros k'. apply touchedValue_untouched.
Qed.

End PipelineFacts.

Lemma findConf_In (c : AdvFilterConfig) :
  In c ADVANCED_FILTERS -> findConf (key c) = Some c.
Proof.
  intros H. simpl in H.
  repeat (destruct H as [<- | H]; [reflexivity|]). destruct H.
Qed.

(** No two entries of the filter table share a key. *)
Lemma ADVANCED_FILTERS_keys (c1 c2 : AdvFilterConfig) :
  In c1 ADVANCED_FILTERS -> In c2 ADVANCED_FILTERS -> key c1 = key c2 ->
  c1 = c2.
Proof.
  intros H1 H2 E. apply findConf_In in H1, H2. rewrite E in H1. congruence.
Qed.

Lemma findConf_key (k : string) (c : AdvFilterConfig) :
  findConf k = Some c -> key c = k /\ In c ADVANCED_FILTERS.
Proof.
  unfold findConf. intros H. apply find_some in H. destruct H as [H1 H2].
  apply String.eqb_eq in H2. auto.
Qed.

Lemma AdvFilterConfig_eq_dec (c1 c2 : AdvFilterConfig) : {c1 = c2} + {c1 <> c2}.
Proof.
  repeat decide equality.
Qed.

Section StageFacts.
Variable calculateAdjustedBV : Z -> Z -> Z -> Z.
Variable this : Service.

Local Abbreviation applyFilters := (applyFilters calculateAdjustedBV this).
Local Abbreviation applyStandardFilter :=
  (applyStandardFilter calculateAdjustedBV this).
Local Abbreviation standardKeeps := (standardKeeps calculateAdjustedBV this).

Lemma standardKeeps_ext (st st' : FilterState) (c : AdvFilterConfig)
      (u : Unit) :
  touchedValue st (key c) = touchedValue st' (key c) ->
  standardKeeps st c u = standardKeeps st' c u.
Proof.
  intros H. unfold standardKeeps.
  now rewrite (applyStandardFilter_ext calculateAdjustedBV this st st').
Qed.

Lemma standardKeeps_external (st : FilterState) (c : AdvFilterConfig)
      (u : Unit) :
  external c = true -> standardKeeps st c u = true.
Proof.
  intros H. unfold standardKeeps, applyStandardFilter. now rewrite H.
Qed.

Lemma standardKeeps_absent (st : FilterState) (c : AdvFilterConfig)
      (u : Unit) :
  touchedValue st (key c) = None -> standardKeeps st c u = true.
Proof.
  unfold touchedValue, standardKeeps, applyStandardFilter. intros H.
  destruct (external c); [reflexivity|].
  destruct (obj_get st (key c)) as [[v b]|]; [|reflexivity].
  simpl in *. destruct b; [discriminate | reflexivity].
Qed.

Lemma touchedValue_delete (st : FilterState) (k k' : string) :
  touchedValue (obj_delete st k) k'
  = if String.eqb k k' then None else touchedValue st k'.
Proof.
  unfold touchedValue. rewrite obj_get_delete.
  destruct (String.eqb k k'); reflexivity.
Qed.

(** What the turn of a range filter with ignored values does to a record
    that holds one of them. *)
Lemma standardKeeps_ignored (st : FilterState) (conf : AdvFilterConfig)
      (ign : list Z) (lo hi z : Z) (u : Unit) :
  external conf = false -> String.eqb (key conf) "bv" = false ->
  type conf = RANGE -> ignoreValues conf = Some ign ->
  obj_get st (key conf) = Some (mkEntry (VRange lo hi) true) ->
  prop u (key conf) = PScalar (SNum z) -> In z ign ->
  standardKeeps st conf u = (lo =? 0)%Z.
Proof.
  intros He Hbv Ht Hi Hg Hp Hin.
  unfold standardKeeps, applyStandardFilter.
  rewrite He, Hg, Ht, Hbv. simpl. rewrite Hi, Hp.
  replace (existsb (Z.eqb z) ign) with true.
  - destruct (multistate conf); destruct (lo =? 0)%Z; reflexivity.
  - symmetry. apply existsb_exists. exists z. split; [exact Hin|].
    apply Z.eqb_refl.
Qed.

(** The filters with ignored values in the table. *)
Lemma ignoreValues_confs (conf : AdvFilterConfig) (ign : list Z) :
  In conf ADVANCED_FILTERS -> ignoreValues conf = Some ign ->
  external conf = false /\ String.eqb (key conf) "bv" = false /\
  type conf = RANGE /\
  String.eqb (key conf) "era" = false /\
  String.eqb (key conf) "faction" = false.
Proof.
  intros H Hi. simpl in H.
  repeat (destruct H as [<- | H]; [try discriminate Hi; repeat split|]).
  destruct H.
Qed.

(** Removing the entry of one standard filter changes the pipeline by
    the turn of that filter alone. *)
Lemma In_applyFilters_delete (units : list Unit) (st : FilterState)
      (conf : AdvFilterConfig) (u : Unit) :
  wellKeyed st -> In conf ADVANCED_FILTERS ->
  String.eqb (key conf) "era" = false ->
  String.eqb (key conf) "faction" = false ->
  (In u (applyFilters units st) <->
   In u (applyFilters units (obj_delete st (key conf)))
   /\ standardKeeps st conf u = true).
Proof.
  intros H Hin He Hf.
  rewrite !In_applyFilters. unfold externalKeeps.
  rewrite (externalIds_ext this (obj_delete st (key conf)) st);
    [ | now apply wellKeyed_delete | assumption
      | rewrite touchedValue_delete; now rewrite He
      | rewrite touchedValue_delete; now rewrite Hf ].
  assert (Hc : forall c, In c ADVANCED_FILTERS -> c <> conf ->
                         standardKeeps (obj_delete st (key conf)) c u
                         = standardKeeps st c u).
  { intros c Hc Hne. apply standardKeeps_ext.
    rewrite touchedValue_delete.
    destruct (String.eqb (key conf) (key c)) eqn:E; [|reflexivity].
    apply String.eqb_eq in E. exfalso. apply Hne.
    now apply ADVANCED_FILTERS_keys. }
  assert (Hd : standardKeeps (obj_delete st (key conf)) conf u = true).
  { apply standardKeeps_absent. rewrite touchedValue_delete.
    now rewrite String.eqb_refl. }
  split.
  - intros [Hu [Hx Hs]]. repeat split; auto.
    intros c Hcin. destruct (AdvFilterConfig_eq_dec c conf) as [-> | Hne].
    + exact Hd.
    + rewrite Hc by assumption. now apply Hs.
  - intros [[Hu [Hx Hs]] Hk]. repeat split; auto.
    intros c Hcin. destruct (AdvFilterConfig_eq_dec c conf) as [-> | Hne].
    + exact Hk.
    + rewrite <- Hc by assumption. now apply Hs.
Qed.

(** C7. For a touched range filter of the table that declares ignored
    values, a record whose field holds one of them is kept by the pipeline
    exactly when the pipeline without this filter keeps it and the lower
    bound of the range is 0. *)
Theorem ignored_value_kept_iff_lower_bound_zero :
  forall (units : list Unit) (st : FilterState) (conf : AdvFilterConfig)
         (ign : list Z) (lo hi z : Z) (u : Unit),
    wellKeyed st ->
    In conf ADVANCED_FILTERS ->
    ignoreValues conf = Some ign ->
    obj_get st (key conf) = Some (mkEntry (VRange lo hi) true) ->
    prop u (key conf) = PScalar (SNum z) ->
    In z ign ->
    (In u (applyFilters units st) <->
     In u (applyFilters units (obj_delete st (key conf))) /\ lo = 0%Z).
Proof.
  intros units st conf ign lo hi z u Hwk Hin Hign Hget Hprop Hz.
  destruct (ignoreValues_confs conf ign Hin Hign)
    as [Hext [Hbv [Hty [Hera Hfac]]]].
  rewrite (In_applyFilters_delete units st conf u Hwk Hin Hera Hfac).
  rewrite (standardKeeps_ignored st conf ign lo hi z u
             Hext Hbv Hty Hign Hget Hprop Hz).
  rewrite Z.eqb_eq. reflexivity.
Qed.

(* ---------------------------------------------------------------- *)
(** *** Range clamp *)

Lemma minOf_le (h : Z) (t : list Z) : (minOf h t <= h)%Z.
Proof.
  unfold minOf. revert h. induction t as [|x t IH]; intros h; simpl.
  - lia.
  - specialize (IH (Z.min h x)). lia.
Qed.

Lemma maxOf_ge (h : Z) (t : list Z) : (h <= maxOf h t)%Z.
Proof.
  unfold maxOf. revert h. induction t as [|x t IH]; intros h; simpl.
  - lia.
  - specialize (IH (Z.max h x)). lia.
Qed.

(** The available range of a range filter is an interval. *)
Lemma options_interval (baseUnits : list Unit) (st : FilterState)
      (conf : AdvFilterConfig) :
  cacheWellFormed (totalRangesCache this) ->
  let o := advOptionsRange calculateAdjustedBV this baseUnits st conf in
  (fst (options o) <= snd (options o))%Z.
Proof.
  intros Hc. unfold advOptionsRange. cbv zeta. cbn [options].
  match goal with
  | |- context [match ?vals with [] => _ | _ :: _ => _ end] =>
      destruct vals as [|h t]
  end.
  - destruct (obj_get (totalRangesCache this) (key conf)) as [r|] eqn:E.
    + now apply (Hc (key conf)).
    + simpl. lia.
  - simpl. pose proof (minOf_le h t). pose proof (maxOf_ge h t). lia.
Qed.

Lemma clampInto_bounds (a v : Z * Z) :
  (fst a <= snd a)%Z ->
  (fst a <= fst (clampInto a v) <= snd (clampInto a v))%Z /\
  (snd (clampInto a v) <= snd a)%Z.
Proof.
  intros H. unfold clampInto.
  destruct (_ <? _)%Z eqn:E; simpl;
    [apply Z.ltb_lt in E | apply Z.ltb_ge in E]; lia.
Qed.

(** C8. For a touched range filter, [advOptions] exposes as [value] the
    stored interval clamped into the available range ([options]), with the
    endpoints swapped when the clamp inverts them; the exposed interval
    satisfies [availableMin <= value[0] <= value[1] <= availableMax]. *)
Theorem exposed_range_is_clamped :
  forall (baseUnits : list Unit) (st : FilterState) (k : string)
         (lo hi : Z) (o : RangeFilterOptions),
    cacheWellFormed (totalRangesCache this) ->
    obj_get st k = Some (mkEntry (VRange lo hi) true) ->
    advOptionsRangeAt calculateAdjustedBV this baseUnits st k = Some o ->
    exposedValue o = clampInto (options o) (lo, hi) /\
    (fst (options o) <= fst (exposedValue o))%Z /\
    (fst (exposedValue o) <= snd (exposedValue o))%Z /\
    (snd (exposedValue o) <= snd (options o))%Z.
Proof.
  intros baseUnits st k lo hi o Hc Hget Hat.
  unfold advOptionsRangeAt in Hat.
  destruct (negb (isDataReady (dataService this))); [discriminate|].
  destruct (findConf k) as [conf|] eqn:Ef; [|discriminate].
  destruct (type conf); [discriminate|].
  injection Hat as Ho.
  apply findConf_key in Ef. destruct Ef as [Ek _].
  pose proof (options_interval baseUnits st conf Hc) as Hint.
  cbv zeta in Hint. rewrite Ho in Hint.
  assert (Hv : exposedValue o = clampInto (options o) (lo, hi)).
  { rewrite <- Ho. unfold advOptionsRange. cbv zeta.
    cbn [exposedValue options]. rewrite Ek, Hget. reflexivity. }
  split; [exact Hv|]. rewrite Hv.
  pose proof (clampInto_bounds (options o) (lo, hi) Hint). lia.
Qed.

(* ---------------------------------------------------------------- *)
(** *** [setFilter] *)

Lemma all_off_iff (sel : MultiStateSelection) :
  forallb (fun e => MultiState_eqb (state (snd e)) st_off) sel = true <->
  (forall name sv, In (name, sv) sel -> state sv = st_off).
Proof.
  rewrite forallb_forall. split.
  - intros H name sv Hin. specialize (H (name, sv) Hin). simpl in H.
    destruct (state sv); try discriminate; reflexivity.
  - intros H [name sv] Hin. simpl. now rewrite (H name sv Hin).
Qed.

(** C10. [setFilter] leaves the state as it is for an unknown key; for a
    known key and a value of the shape of the filter's kind it stores the
    value and marks it untouched exactly when the value is inert: an empty
    array, a selection whose entries are all [off] (or that has none), or
    the interval that equals the currently available range. *)
Theorem setFilter_untouched_iff_inert :
  forall (baseUnits : list Unit) (st : FilterState) (k : string)
         (v : FilterValue),
    (findConf k = None ->
     setFilter calculateAdjustedBV this baseUnits st k v = st) /\
    (forall conf,
        findConf k = Some conf -> hasShape conf v ->
        exists b,
          setFilter calculateAdjustedBV this baseUnits st k v
          = obj_set st k (mkEntry v b) /\
          (b = false <->
           Inert (option_map options
                    (advOptionsRangeAt calculateAdjustedBV this baseUnits st k))
                 v)).
Proof.
  intros baseUnits st k v. unfold setFilter. split.
  - intros ->. reflexivity.
  - intros conf Hf Hs. rewrite Hf. eexists. split; [reflexivity|].
    apply findConf_key in Hf. destruct Hf as [Ek _].
    unfold setFilterInteracted, hasShape in *. rewrite Ek.
    destruct (type conf), v as [l|sel|lo hi]; try contradiction.
    + rewrite Hs. destruct l; split; intros H;
        try discriminate; try constructor; inversion H.
    + rewrite Hs. rewrite negb_false_iff, orb_true_iff. split.
      * intros [H | H]; constructor.
        -- destruct sel; [intros ? ? [] | discriminate].
        -- now apply all_off_iff.
      * intros H. inversion H; subst. right. now apply all_off_iff.
    + destruct (advOptionsRangeAt calculateAdjustedBV this baseUnits st k)
        as [o|]; simpl.
      * rewrite negb_false_iff, andb_true_iff, !Z.eqb_eq. split.
        -- intros [-> ->]. constructor. now destruct (options o).
        -- intros H. inversion H as [| |? ? E]; subst.
           inversion E as [E']. rewrite E'. auto.
      * split; [discriminate|]. intros H. inversion H. discriminate.
Qed.

End StageFacts.

(* ================================================================== *)
(** ** Instances on the small catalogue *)
(* ================================================================== *)

Lemma wellKeyed_one {V} (k : string) (v : V) : wellKeyed [(k, v)].
Proof.
  unfold wellKeyed. simpl. constructor; [intros [] | constructor].
Defined.

(** C3 at the catalogue: the filter [type] set back to untouched. *)
Lemma untouched_filter_is_absent_witness :
  let st := [("type", mkEntry (VNames ["Infantry"]) true)] in
  wellKeyed st /\
  applyFilters Example.adjust Example.service
               [Example.atlas; Example.trooper]
               (obj_set st "type" (mkEntry (VNames ["Infantry"]) false))
  = applyFilters Example.adjust Example.service
                 [Example.atlas; Example.trooper] (obj_delete st "type").
Proof.
  intros st. split.
  - apply wellKeyed_one.
  - apply (untouched_filter_is_absent Example.adjust Example.service).
    apply wellKeyed_one.
Defined.

(** C7 at the catalogue: with [ignoreValues = [-1]], the record whose heat
    is [-1] is included under the range [0, 50] and excluded under
    [5, 50]. *)
Lemma ignored_value_kept_iff_lower_bound_zero_witness :
  let heat := mkConf "heat" RANGE None false (Some [(-1)%Z]) false false in
  let included := [("heat", mkEntry (VRange 0 50) true)] in
  let excluded := [("heat", mkEntry (VRange 5 50) true)] in
  let units := [Example.atlas; Example.trooper] in
  In Example.trooper
     (applyFilters Example.adjust Example.service units included) /\
  ~ In Example.trooper
       (applyFilters Example.adjust Example.service units excluded).
Proof.
  intros heat included excluded units. split.
  - apply (ignored_value_kept_iff_lower_bound_zero
             Example.adjust Example.service units included heat
             [(-1)%Z] 0 50 (-1) Example.trooper).
    + apply wellKeyed_one.
    + simpl. tauto.
    + reflexivity.
    + reflexivity.
    + reflexivity.
    + simpl. tauto.
    + split; [simpl; tauto | reflexivity].
  - intros H.
    apply (ignored_value_kept_iff_lower_bound_zero
             Example.adjust Example.service units excluded heat
             [(-1)%Z] 5 50 (-1) Example.trooper) in H.
    + destruct H as [_ H]. discriminate H.
    + apply wellKeyed_one.
    + simpl. tauto.
    + reflexivity.
    + reflexivity.
    + reflexivity.
    + simpl. tauto.
Defined.

(** C8 at the catalogue: the stored selection [10, 1000] with the available
    range [50, 500] is exposed as [50, 500]. *)
Lemma exposed_range_is_clamped_witness :
  let st := [("bv", mkEntry (VRange 10 1000) true)] in
  let o := mkRangeOptions (0, 0)%Z (50, 500)%Z (50, 500)%Z true in
  advOptionsRangeAt Example.adjust Example.service
                    [Example.atlas; Example.locust] st "bv" = Some o /\
  exposedValue o = clampInto (50, 500)%Z (10, 1000)%Z /\
  (50 <= fst (exposedValue o))%Z /\
  (fst (exposedValue o) <= snd (exposedValue o))%Z /\
  (snd (exposedValue o) <= 500)%Z.
Proof.
  intros st o.
  assert (Hat : advOptionsRangeAt Example.adjust Example.service
                  [Example.atlas; Example.locust] st "bv" = Some o)
    by reflexivity.
  split; [exact Hat|].
  apply (exposed_range_is_clamped Example.adjust Example.service
           [Example.atlas; Example.locust] st "bv" 10 1000 o).
  - intros k r H. discriminate H.
  - reflexivity.
  - exact Hat.
Defined.

(** C10 at the catalogue: the empty array for [type] is stored untouched. *)
Lemma setFilter_untouched_iff_inert_witness :
  let st := [("type", mkEntry (VNames ["Mek"]) true)] in
  findConf "type" = Some (dropdown "type") /\
  hasShape (dropdown "type") (VNames []) /\
  exists b,
    setFilter Example.adjust Example.service [Example.atlas] st "type" (VNames [])
    = obj_set st "type" (mkEntry (VNames []) b) /\
    (b = false <->
     Inert (option_map options
              (advOptionsRangeAt Example.adjust Example.service
                                 [Example.atlas] st "type"))
           (VNames [])).
Proof.
  intros st. split; [reflexivity|]. split; [reflexivity|].
  apply (proj2 (setFilter_untouched_iff_inert
                  Example.adjust Example.service [Example.atlas] st
                  "type" (VNames []))
               (dropdown "type")); reflexivity.
Defined.

(* ================================================================== *)
(** ** Era and faction *)
(* ================================================================== *)

Section ExternalFacts.
Variable calculateAdjustedBV : Z -> Z -> Z -> Z.
Variable this : Service.

Local Abbreviation ds := (dataService this).
Local Abbreviation applyFilters := (applyFilters calculateAdjustedBV this).

Lemma In_fold_union {B} (pick : B -> option (list Z)) (l : list B)
      (acc : list Z) (i : Z) :
  In i (fold_left (fun a b => match pick b with
                              | Some ids => fold_left (set_add Z.eqb) ids a
                              | None => a
                              end) l acc)
  <-> In i acc \/ exists b ids, In b l /\ pick b = Some ids /\ In i ids.
Proof.
  revert acc. induction l as [|b l IH]; intros acc; simpl.
  - split; [auto | intros [H | [b [ids [[] _]]]]; exact H].
  - rewrite IH. destruct (pick b) as [ids|] eqn:E.
    + rewrite (In_fold_set_add _ Z_eqb_spec). split.
      * intros [[H | H] | [b' [ids' [H1 [H2 H3]]]]]; auto.
        -- right. exists b, ids. auto.
        -- right. exists b', ids'. auto.
      * intros [H | [b' [ids' [[<- | H1] [H2 H3]]]]]; auto.
        -- rewrite E in H2. inversion H2. subst. auto.
        -- right. exists b', ids'. auto.
    + split.
      * intros [H | [b' [ids' [H1 [H2 H3]]]]]; auto.
        right. exists b', ids'. auto.
      * intros [H | [b' [ids' [[<- | H1] [H2 H3]]]]]; auto.
        -- rewrite E in H2. discriminate.
        -- right. exists b', ids'. auto.
Qed.

(** The ids one faction contributes under a context of era ids. *)
Lemma In_faction_fold (ctx : option (list Z)) (f : Faction) (acc : list Z)
      (i : Z) :
  In i (fold_left
          (fun acc e =>
             let '(eraId, ids) := e in
             if match ctx with
                | None => true
                | Some c => set_has Z.eqb c eraId
                end
             then fold_left (set_add Z.eqb) ids acc
             else acc)
          (faction_eras f) acc)
  <-> In i acc \/
      exists eid ids, In (eid, ids) (faction_eras f) /\
                      match ctx with
                      | None => True
                      | Some c => In eid c
                      end /\ In i ids.
Proof.
  pose proof (In_fold_union
                (fun e : Z * list Z =>
                   if match ctx with
                      | None => true
                      | Some c => set_has Z.eqb c (fst e)
                      end then Some (snd e) else None)
                (faction_eras f) acc i) as H.
  match type of H with
  | In i ?x <-> _ =>
      match goal with
      | |- In i ?y <-> _ => replace y with x
      end
  end.
  - rewrite H. clear H. split.
    + intros [H | [[eid ids] [ids' [H1 [H2 H3]]]]]; auto.
      right. simpl in H2. exists eid, ids.
      destruct ctx as [c|].
      * destruct (set_has Z.eqb c eid) eqn:E; [|discriminate].
        inversion H2; subst. apply (set_has_In _ Z_eqb_spec) in E. auto.
      * inversion H2; subst. auto.
    + intros [H | [eid [ids [H1 [H2 H3]]]]]; auto.
      right. exists (eid, ids), ids. simpl. split; [exact H1|].
      split; [|exact H3].
      destruct ctx as [c|]; [|reflexivity].
      apply (set_has_In _ Z_eqb_spec) in H2. now rewrite H2.
  - clear H. revert acc.
    induction (faction_eras f) as [|[eid ids] l IH]; intros acc; simpl;
      [reflexivity|].
    destruct (match ctx with
              | Some c => set_has Z.eqb c eid
              | None => true
              end); apply IH.
Qed.

Lemma In_factions_fold (ctx : option (list Z)) (names : list string)
      (acc : list Z) (i : Z) :
  In i (fold_left
          (fun unitIds factionName =>
             match getFactionByName ds factionName with
             | Some faction =>
                 fold_left
                   (fun acc e =>
                      let '(eraId, ids) := e in
                      if match ctx with
                         | None => true
                         | Some c => set_has Z.eqb c eraId
                         end
                      then fold_left (set_add Z.eqb) ids acc
                      else acc)
                   (faction_eras faction) unitIds
             | None => unitIds
             end) names acc)
  <-> In i acc \/
      InFactionIds ds (fun eid => match ctx with
                                  | None => True
                                  | Some c => In eid c
                                  end) names i.
Proof.
  unfold InFactionIds. revert acc.
  induction names as [|nm names IH]; intros acc; simpl.
  - split; [auto | intros [H | [? [? [? [? [[] _]]]]]]; exact H].
  - rewrite IH. clear IH.
    destruct (getFactionByName ds nm) as [f|] eqn:E.
    + rewrite In_faction_fold. split.
      * intros [[H | [eid [ids [H1 [H2 H3]]]]] | [n' [f' [eid [ids H]]]]];
          auto.
        -- right. exists nm, f, eid, ids. auto.
        -- right. exists n', f', eid, ids. intuition.
      * intros [H | [n' [f' [eid [ids [[<- | H0] [H1 [H2 [H3 H4]]]]]]]]];
          auto.
        -- rewrite E in H1. inversion H1; subst.
           left. right. exists eid, ids. auto.
        -- right. exists n', f', eid, ids. auto.
    + split.
      * intros [H | [n' [f' [eid [ids H]]]]]; auto.
        right. exists n', f', eid, ids. intuition.
      * intros [H | [n' [f' [eid [ids [[<- | H0] [H1 [H2 [H3 H4]]]]]]]]];
          auto.
        -- rewrite E in H1. discriminate.
        -- right. exists n', f', eid, ids. auto.
Qed.

Lemma In_selectedEraIds (eraNames : list string) (eid : Z) :
  In eid (set_of_list Z.eqb
            (map era_id
               (filter (fun e => existsb (String.eqb (era_name e)) eraNames)
                       (getEras ds))))
  <-> SelectedEraId ds eraNames eid.
Proof.
  rewrite (In_set_of_list _ Z_eqb_spec), in_map_iff. unfold SelectedEraId.
  split.
  - intros [e [He Hin]]. apply filter_In in Hin. destruct Hin as [Hin Hn].
    exists e. repeat split; auto.
    apply existsb_exists in Hn. destruct Hn as [x [Hx Hq]].
    apply String.eqb_eq in Hq. now rewrite Hq.
  - intros [e [Hin [Hn He]]]. exists e. split; [exact He|].
    apply filter_In. split; [exact Hin|].
    apply existsb_exists. exists (era_name e). split; [exact Hn|].
    apply String.eqb_refl.
Qed.

(** The id set of a non-empty faction selection. *)
Lemma externalIds_factions (st : FilterState) (eraNames factionNames : list string) :
  wellKeyed st ->
  namesOf (touchedValue st "era") = eraNames ->
  namesOf (touchedValue st "faction") = factionNames ->
  factionNames <> [] ->
  exists ids,
    externalIds this st = Some ids /\
    forall i, In i ids <->
              InFactionIds ds (eraScope ds eraNames) factionNames i.
Proof.
  intros Hwk He Hf Hne. unfold externalIds.
  rewrite !activeFilters_get by assumption. rewrite He, Hf.
  destruct factionNames as [|f0 fs]; [congruence|].
  unfold getUnitIdsForSelectedFactions.
  eexists. split; [reflexivity|]. intros i.
  rewrite In_factions_fold. simpl (In i []).
  set (sel := set_of_list Z.eqb _).
  assert (Hsel : forall x, In x sel <-> SelectedEraId ds eraNames x)
    by (intros x; apply In_selectedEraIds).
  clearbody sel.
  assert (Hscope : forall eid,
             match match sel with
                   | [] => None
                   | _ :: _ => Some sel
                   end with
             | None => True
             | Some c => In eid c
             end <-> eraScope ds eraNames eid).
  { intros eid. unfold eraScope. destruct sel as [|x sel'].
    - split; [|auto]. intros _. left. intros y Hy. apply Hsel in Hy.
      destruct Hy.
    - rewrite Hsel. split; [auto|]. intros [H | H]; [|exact H].
      exfalso. apply (H x). apply Hsel. now left. }
  unfold InFactionIds. split.
  - intros [[] | [nm [f [eid [ids [H1 [H2 [H3 [H4 H5]]]]]]]]].
    exists nm, f, eid, ids. rewrite <- Hscope. auto.
  - intros [nm [f [eid [ids [H1 [H2 [H3 [H4 H5]]]]]]]]. right.
    exists nm, f, eid, ids. rewrite Hscope. auto.
Qed.

Lemma In_extinctUnitIdsForEra (era : Era) (i : Z) :
  In i (extinctUnitIdsForEra this era) <-> ExtinctFor ds era i.
Proof.
  unfold extinctUnitIdsForEra, ExtinctFor.
  destruct (find _ (getFactions ds)) as [f|].
  - destruct (assoc_get Z.eqb (faction_eras f) (era_id era)) as [s|] eqn:E.
    + split.
      * intros H. exists f, s. auto.
      * intros [f' [ids [H1 [H2 H3]]]]. injection H1 as <-.
        rewrite E in H2. injection H2 as <-. exact H3.
    + split; [intros [] | intros [f' [ids [H1 [H2 H3]]]]].
      injection H1 as <-. rewrite E in H2. discriminate.
  - split; [intros [] | intros [f' [ids [H1 _]]]]. discriminate.
Qed.

Lemma fold_left_pointwise {A B} (f g : A -> B -> A) (l : list B) (acc : A) :
  (forall a b, f a b = g a b) -> fold_left f l acc = fold_left g l acc.
Proof.
  intros H. revert acc. induction l as [|b l IH]; intros acc; simpl;
    [reflexivity|].
  now rewrite H, IH.
Qed.

Lemma fold_add_if (p : Z -> bool) (l acc : list Z) :
  fold_left (fun a i => if p i then set_add Z.eqb a i else a) l acc
  = fold_left (set_add Z.eqb) (filter p l) acc.
Proof.
  revert acc. induction l as [|x l IH]; intros acc; simpl; [reflexivity|].
  destruct (p x); simpl; apply IH.
Qed.

(** The id set of a non-empty era selection, no faction being selected. *)
Lemma externalIds_eras (st : FilterState) (eraNames : list string) :
  wellKeyed st ->
  namesOf (touchedValue st "era") = eraNames ->
  namesOf (touchedValue st "faction") = [] ->
  eraNames <> [] ->
  exists ids,
    externalIds this st = Some ids /\
    forall i, In i ids <-> InEraIds ds eraNames i.
Proof.
  intros Hwk He Hf Hne. unfold externalIds.
  rewrite !activeFilters_get by assumption. rewrite He, Hf.
  destruct eraNames as [|e0 es]; [congruence|].
  unfold getUnitIdsForSelectedEras.
  eexists. split; [reflexivity|]. intros i.
  pose proof (In_fold_union
                (fun name =>
                   match getEraByName ds name with
                   | Some era =>
                       Some (filter
                               (fun i => negb (set_has Z.eqb
                                                 (extinctUnitIdsForEra this era) i))
                               (era_units era))
                   | None => None
                   end) (e0 :: es) [] i) as H.
  match type of H with
  | In i ?x <-> _ =>
      match goal with
      | |- In i ?y <-> _ => replace y with x
      end
  end.
  - rewrite H. clear H. unfold InEraIds. split.
    + intros [[] | [name [ids [H1 [H2 H3]]]]].
      destruct (getEraByName ds name) as [era|] eqn:E; [|discriminate].
      inversion H2; subst. apply filter_In in H3. destruct H3 as [H3 H4].
      exists name, era. repeat split; auto.
      intros Hx. apply In_extinctUnitIdsForEra in Hx.
      apply (set_has_In _ Z_eqb_spec) in Hx. rewrite Hx in H4. discriminate.
    + intros [name [era [H1 [H2 [H3 H4]]]]]. right.
      exists name. rewrite H2. eexists. split; [exact H1|].
      split; [reflexivity|]. apply filter_In. split; [exact H3|].
      destruct (set_has Z.eqb (extinctUnitIdsForEra this era) i) eqn:E;
        [|reflexivity].
      apply (set_has_In _ Z_eqb_spec) in E.
      apply In_extinctUnitIdsForEra in E. contradiction.
  - clear H. apply fold_left_pointwise. intros acc nm.
    destruct (getEraByName ds nm) as [era|]; [|reflexivity].
    symmetry. apply fold_add_if.
Qed.

Lemma not_external_key (c : AdvFilterConfig) :
  In c ADVANCED_FILTERS -> external c = false ->
  String.eqb "era" (key c) = false /\ String.eqb "faction" (key c) = false.
Proof.
  intros H He. simpl in H.
  repeat (destruct H as [<- | H]; [try discriminate He; split; reflexivity|]).
  destruct H.
Qed.

(** The era and faction entries act on the pipeline through the external
    stage alone. *)
Lemma In_applyFilters_external (units : list Unit) (st : FilterState)
      (u : Unit) :
  wellKeyed st ->
  (In u (applyFilters units st) <->
   In u (applyFilters units (obj_delete (obj_delete st "era") "faction"))
   /\ externalKeeps this st u = true).
Proof.
  intros Hwk. set (st' := obj_delete (obj_delete st "era") "faction").
  assert (Hwk' : wellKeyed st') by (now repeat apply wellKeyed_delete).
  assert (Ht : forall k, touchedValue st' k =
                         if String.eqb "era" k || String.eqb "faction" k
                         then None else touchedValue st k).
  { intros k. unfold st'. rewrite !touchedValue_delete.
    destruct (String.eqb "faction" k), (String.eqb "era" k); reflexivity. }
  assert (Hx : externalKeeps this st' u = true).
  { unfold externalKeeps, externalIds.
    rewrite !activeFilters_get by assumption. now rewrite !Ht. }
  assert (Hs : forall c, In c ADVANCED_FILTERS ->
                         standardKeeps calculateAdjustedBV this st' c u
                         = standardKeeps calculateAdjustedBV this st c u).
  { intros c Hc. destruct (external c) eqn:E.
    - now rewrite !standardKeeps_external.
    - apply standardKeeps_ext. rewrite Ht.
      destruct (not_external_key c Hc E) as [-> ->]. reflexivity. }
  rewrite !In_applyFilters. rewrite Hx. split.
  - intros [H1 [H2 H3]]. repeat split; auto.
    intros c Hc. rewrite Hs by assumption. now apply H3.
  - intros [[H1 [_ H3]] H2]. repeat split; auto.
    intros c Hc. rewrite <- Hs by assumption. now apply H3.
Qed.

(** C2, as the service does it. With [rest] the records the other filters
    keep: when a faction is selected, the pipeline keeps exactly the
    records of [rest] whose id lies in the union of the selected factions'
    per-era id sets restricted to the selected eras (to every era when no
    era bears a selected name); the era id set with its extinct ids
    removed is not consulted.  If only one of the two filters is touched,
    its id set alone decides: the selected eras' id sets less the ids
    extinct for the era, or the selected factions' id sets of all eras. *)
Theorem era_faction_id_sets :
  forall (units : list Unit) (st : FilterState) (u : Unit),
    wellKeyed st ->
    let rest :=
      applyFilters units (obj_delete (obj_delete st "era") "faction") in
    let eraNames := namesOf (touchedValue st "era") in
    let factionNames := namesOf (touchedValue st "faction") in
    (eraNames <> [] -> factionNames <> [] ->
     (In u (applyFilters units st) <->
      In u rest /\
      InFactionIds ds (eraScope ds eraNames) factionNames (id u)))
    /\ (eraNames <> [] -> factionNames = [] ->
        (In u (applyFilters units st) <->
         In u rest /\ InEraIds ds eraNames (id u)))
    /\ (eraNames = [] -> factionNames <> [] ->
        (In u (applyFilters units st) <->
         In u rest /\ InFactionIds ds (fun _ => True) factionNames (id u))).
Proof.
  intros units st u Hwk rest eraNames factionNames.
  assert (Hfac : factionNames <> [] ->
                 (In u (applyFilters units st) <->
                  In u rest /\
                  InFactionIds ds (eraScope ds eraNames) factionNames (id u))).
  { intros Hf. unfold rest.
    rewrite (In_applyFilters_external units st u Hwk).
    destruct (externalIds_factions st eraNames factionNames Hwk
                eq_refl eq_refl Hf) as [ids [Hids Hin]].
    unfold externalKeeps. rewrite Hids.
    rewrite (set_has_In _ Z_eqb_spec), Hin. reflexivity. }
  split; [|split].
  - intros _ Hf. now apply Hfac.
  - intros He Hf. unfold rest.
    rewrite (In_applyFilters_external units st u Hwk).
    destruct (externalIds_eras st eraNames Hwk eq_refl Hf He)
      as [ids [Hids Hin]].
    unfold externalKeeps. rewrite Hids.
    rewrite (set_has_In _ Z_eqb_spec), Hin. reflexivity.
  - intros He Hf. rewrite (Hfac Hf).
    assert (Hs : forall i,
               InFactionIds ds (eraScope ds eraNames) factionNames i <->
               InFactionIds ds (fun _ => True) factionNames i).
    { intros i. unfold InFactionIds, eraScope. rewrite He.
      split; intros [nm [f [eid [ids [H1 [H2 [H3 [H4 H5]]]]]]]];
        exists nm, f, eid, ids; repeat split; auto.
      left. intros x [e [_ [[] _]]]. }
    now rewrite Hs.
Qed.

End ExternalFacts.

(** C2 as the specification words it fails on the catalogue: with the era
    [Succession Wars] and the faction [Extinct] selected, the pipeline keeps
    the record 20, whose id the era id set has lost as extinct. *)
Lemma era_faction_intersection_counterexample :
  let st := [("era", mkEntry (VNames ["Succession Wars"]) true);
             ("faction", mkEntry (VNames ["Extinct"]) true)] in
  let units := [Example.atlas; Example.locust; Example.trooper] in
  ~ (forall u,
        In u (applyFilters Example.adjust Example.service units st) <->
        In u units /\
        InEraIds Example.data ["Succession Wars"] (id u) /\
        InFactionIdsOfEras Example.data ["Succession Wars"] ["Extinct"] (id u)).
Proof.
  intros st units H.
  assert (Hk : applyFilters Example.adjust Example.service units st
               = [Example.locust]) by reflexivity.
  specialize (H Example.locust). rewrite Hk in H.
  destruct H as [H _]. destruct (H (or_introl eq_refl)) as [_ [Ha _]].
  destruct Ha as [name [e [Hn [He [Hi Hx]]]]].
  destruct Hn as [<- | []]. inversion He; subst e. apply Hx.
  exists Example.extinct, [20%Z]. repeat split. now left.
Qed.

(** C2 at the catalogue: the era [Succession Wars] with the faction
    [Extinct] keeps the record 20. *)
Lemma era_faction_id_sets_witness :
  let st := [("era", mkEntry (VNames ["Succession Wars"]) true);
             ("faction", mkEntry (VNames ["Extinct"]) true)] in
  let units := [Example.atlas; Example.locust; Example.trooper] in
  wellKeyed st /\
  (In Example.locust (applyFilters Example.adjust Example.service units st) <->
   In Example.locust
      (applyFilters Example.adjust Example.service units
                    (obj_delete (obj_delete st "era") "faction")) /\
   InFactionIds Example.data (eraScope Example.data ["Succession Wars"])
                ["Extinct"] 20%Z).
Proof.
  intros st units.
  assert (Hwk : wellKeyed st).
  { unfold wellKeyed. simpl. constructor.
    - intros [H | []]. discriminate H.
    - constructor; [intros [] | constructor]. }
  split; [exact Hwk|].
  apply (proj1 (era_faction_id_sets Example.adjust Example.service
                  units st Example.locust Hwk)); simpl; discriminate.
Defined.

(* ================================================================== *)
(** ** Smart ordering *)
(* ================================================================== *)

Section OrderingFacts.
Variable localeCompare : string -> string -> Z.

Lemma insertSorted_perm (compare : string -> string -> Z) (x : string)
    (l : list string) :
Permutation (insertSorted compare x l) (x :: l).
Proof.
induction l as [|y l IH]; simpl.
- apply Permutation_refl.
- destruct (compare y x <=? 0)%Z.
  + apply Permutation_trans with (y :: x :: l).
    * now apply perm_skip.
    * apply perm_swap.
  + apply Permutation_refl.
Qed.

Lemma sort_perm (compare : string -> string -> Z) (l : list string) :
Permutation (sort compare l) l.
Proof.
unfold sort.
assert (G : forall acc,
           Permutation (fold_left (fun acc x => insertSorted compare x acc) l acc)
                       (acc ++ l)).
{ induction l as [|x l IH]; intros acc; simpl.
  - rewrite app_nil_r. apply Permutation_refl.
  - eapply Permutation_trans; [apply IH|].
    apply Permutation_trans with ((x :: acc) ++ l).
    + apply Permutation_app_tail. apply insertSorted_perm.
    + simpl. apply Permutation_middle. }
apply (G []).
Qed.

(** Deleting a member of a set takes exactly that member away. *)
Lemma set_delete_perm (s : list string) (m : string) :
NoDup s -> In m s -> Permutation (m :: set_delete String.eqb s m) s.
Proof.
unfold set_delete. induction s as [|y s IH]; intros Hnd Hin;
  [destruct Hin|].
inversion Hnd as [|? ? Hy Hs]; subst. simpl.
destruct (String.eqb m y) eqn:E; simpl.
- apply String.eqb_eq in E. subst y. apply perm_skip.
  assert (Hf : filter (fun z => negb (String.eqb m z)) s = s).
  { clear -Hy. induction s as [|z s IH]; simpl; [reflexivity|].
    destruct (String.eqb m z) eqn:E; simpl.
    - apply String.eqb_eq in E. subst. exfalso. apply Hy. now left.
    - f_equal. apply IH. intros H. apply Hy. now right. }
  rewrite Hf. apply Permutation_refl.
- destruct Hin as [-> | Hin].
  + rewrite String.eqb_refl in E. discriminate.
  + apply Permutation_trans with (y :: m :: filter (fun z => negb (String.eqb m z)) s).
    * apply perm_swap.
    * apply perm_skip. now apply IH.
Qed.

Lemma set_delete_NoDup (s : list string) (m : string) :
NoDup s -> NoDup (set_delete String.eqb s m).
Proof. intros H. unfold set_delete. now apply NoDup_filter. Qed.

(** Moving members of the set to the end of the sorted options, one by
  one, keeps the options that the two lists hold together. *)
Lemma move_matches_perm (ms : list string) (so s : list string) :
NoDup ms -> NoDup s -> (forall m, In m ms -> In m s) ->
let r := fold_left
           (fun st match_ =>
              (fst st ++ [match_], set_delete String.eqb (snd st) match_))
           ms (so, s) in
Permutation (fst r ++ snd r) (so ++ s) /\ NoDup (snd r).
Proof.
revert so s. induction ms as [|m ms IH]; intros so s Hms Hs Hin; simpl.
- split; [apply Permutation_refl | exact Hs].
- inversion Hms as [|? ? Hm Hms']; subst.
  destruct (IH (so ++ [m]) (set_delete String.eqb s m)) as [HP HN].
  + exact Hms'.
  + now apply set_delete_NoDup.
  + intros x Hx. apply (In_set_delete _ string_eqb_spec). split.
    * apply Hin. now right.
    * intros ->. contradiction.
  + split; [|exact HN].
    eapply Permutation_trans; [exact HP|].
    rewrite <- app_assoc. simpl. apply Permutation_app_head.
    apply set_delete_perm; [exact Hs|]. apply Hin. now left.
Qed.

Lemma smartSortStep_perm (so s : list string) (predefinedOpt : string) :
NoDup s ->
let r := smartSortStep localeCompare (so, s) predefinedOpt in
Permutation (fst r ++ snd r) (so ++ s) /\ NoDup (snd r).
Proof.
intros Hs. unfold smartSortStep.
destruct (endsWithChar predefinedOpt "*").
- apply move_matches_perm.
  + eapply Permutation_NoDup.
    * apply Permutation_sym. apply sort_perm.
    * now apply NoDup_filter.
  + exact Hs.
  + intros m Hm.
    apply (Permutation_in m (sort_perm _ _)) in Hm.
    apply filter_In in Hm. tauto.
- destruct (set_has String.eqb s predefinedOpt) eqn:E; simpl.
  + split; [|now apply set_delete_NoDup].
    rewrite <- app_assoc. simpl. apply Permutation_app_head.
    apply set_delete_perm; [exact Hs|].
    now apply (set_has_In _ string_eqb_spec).
  + split; [apply Permutation_refl | exact Hs].
Qed.

Lemma smartSortLoop_perm (order : list string) (so s : list string) :
NoDup s ->
let r := fold_left (smartSortStep localeCompare) order (so, s) in
Permutation (fst r ++ snd r) (so ++ s) /\ NoDup (snd r).
Proof.
revert so s. induction order as [|o order IH]; intros so s Hs.
- simpl. split; [apply Permutation_refl | exact Hs].
- cbn [fold_left].
  pose proof (smartSortStep_perm so s o Hs) as H. cbv zeta in H.
  destruct (smartSortStep localeCompare (so, s) o) as [so' s'].
  simpl in H. destruct H as [HP HN].
  destruct (IH so' s' HN) as [HP' HN'].
  split; [|exact HN'].
  eapply Permutation_trans; [exact HP' | exact HP].
Qed.

(** C9. For every set of options (an array without duplicates) and every
  predefined order, with or without wildcard entries, the output of
  [smartDropdownSort] is a permutation of the options: every option is in
  it exactly once, and it is as long as the input. *)
Theorem smartSort_permutation :
forall (options : list string) (predefinedOrder : option (list string)),
  NoDup options ->
  let sorted := smartDropdownSort localeCompare options predefinedOrder in
  Permutation sorted options /\
  NoDup sorted /\
  List.length sorted = List.length options.
Proof.
intros options predefinedOrder Hnd sorted.
assert (HP : Permutation sorted options).
{ unfold sorted, smartDropdownSort.
  destruct predefinedOrder as [[|o order]|]; try apply sort_perm.
  rewrite (set_of_list_NoDup _ string_eqb_spec options Hnd).
  pose proof (smartSortLoop_perm (o :: order) [] options Hnd) as H.
  cbv zeta in H.
  destruct (fold_left (smartSortStep localeCompare) (o :: order) ([], options))
    as [so s].
  simpl in H. destruct H as [H _].
  eapply Permutation_trans; [|exact H].
  apply Permutation_app_head. apply sort_perm. }
split; [exact HP|]. split.
- eapply Permutation_NoDup; [apply Permutation_sym; exact HP | exact Hnd].
- now apply Permutation_length.
Qed.

End OrderingFacts.

(** C9 at the weight classes of the filter table. *)
Lemma smartSort_permutation_witness :
  let options := ["Heavy"; "Small Craft"; "Light"; "Ultra Light 2";
                  "Ultra Light 10"; "Medium"] in
  let order := Some ["Ultra Light*"; "Light"; "Medium"; "Heavy"; "Assault";
                     "Colossal*"; "Small*"; "Medium*"; "Large*"] in
  NoDup options /\
  Permutation (smartDropdownSort Example.byCode options order) options /\
  NoDup (smartDropdownSort Example.byCode options order) /\
  List.length (smartDropdownSort Example.byCode options order)
  = List.length options.
Proof.
  intros options order.
  assert (Hnd : NoDup options).
  { unfold options. repeat constructor; simpl; intuition discriminate. }
  split; [exact Hnd|].
  apply (smartSort_permutation Example.byCode options order Hnd).
Defined.

(* ================================================================== *)
(** ** Non-overlapping token matching *)
(* ================================================================== *)

Lemma length_append (a b : string) :
  String.length (a ++ b) = (String.length a + String.length b)%nat.
Proof. induction a as [|c a IH]; simpl; [reflexivity | now rewrite IH]. Qed.

Lemma prefix_iff (t s : string) :
  String.prefix t s = true <-> exists post, s = (t ++ post)%string.
Proof.
  revert s. induction t as [|c t IH]; intros s.
  - split; [intros _; now exists s | intros _; now destruct s].
  - destruct s as [|d s]; simpl.
    + split; [discriminate | intros [post H]; discriminate].
    + destruct (Ascii.ascii_dec c d) as [-> | Hne].
      * rewrite IH. split; intros [post H]; exists post.
        -- now rewrite H.
        -- now inversion H.
      * split; [discriminate|]. intros [post H]. inversion H. congruence.
Qed.

Lemma drop_append (pre r : string) : drop (String.length pre) (pre ++ r) = r.
Proof. induction pre as [|c pre IH]; simpl; [now destruct r | exact IH]. Qed.

Lemma take_drop (k : nat) (s : string) :
  (k <= String.length s)%nat ->
  s = (take k s ++ drop k s)%string /\ String.length (take k s) = k.
Proof.
  revert s. induction k as [|k IH]; intros s H; simpl.
  - now destruct s.
  - destruct s as [|c s]; simpl in *; [lia|].
    destruct (IH s) as [H1 H2]; [lia|]. split; [now rewrite <- H1 | now rewrite H2].
Qed.

Lemma OccursAt_iff (hay token : string) (j : nat) :
  OccursAt hay token j <-> occursAtb hay token j = true.
Proof.
  unfold OccursAt, occursAtb. rewrite andb_true_iff, Nat.leb_le, prefix_iff.
  split.
  - intros [pre [post [-> <-]]]. split.
    + rewrite length_append. lia.
    + exists post. apply drop_append.
  - intros [Hj [post Hp]]. destruct (take_drop j hay Hj) as [H1 H2].
    exists (take j hay), post. split; [|exact H2]. now rewrite <- Hp.
Qed.

Lemma occursAtb_length (hay token : string) (j : nat) :
  occursAtb hay token j = true ->
  (j + String.length token <= String.length hay)%nat.
Proof.
  intros H. apply OccursAt_iff in H. destruct H as [pre [post [-> <-]]].
  rewrite !length_append. lia.
Qed.

Lemma drop_S (j : nat) (c : ascii) (s : string) :
  drop (S j) (String c s) = drop j s.
Proof. reflexivity. Qed.

Lemma indexOfAux_spec (hay token : string) (pos : nat) :
  match indexOfAux hay token pos with
  | Some idx =>
      (pos <= idx)%nat /\ occursAtb hay token (idx - pos) = true /\
      forall j, (j < idx - pos)%nat -> occursAtb hay token j = false
  | None => forall j, occursAtb hay token j = false
  end.
Proof.
  revert pos. induction hay as [|c hay IH]; intros pos.
  - cbn [indexOfAux]. destruct (String.prefix token "") eqn:E.
    + split; [lia|]. rewrite Nat.sub_diag. split.
      * unfold occursAtb. simpl. exact E.
      * intros j Hj. lia.
    + intros j. unfold occursAtb. destruct j; simpl; [exact E|reflexivity].
  - cbn [indexOfAux]. destruct (String.prefix token (String c hay)) eqn:E.
    + split; [lia|]. rewrite Nat.sub_diag. split.
      * unfold occursAtb. simpl. exact E.
      * intros j Hj. lia.
    + specialize (IH (S pos)).
      assert (Hs : forall j, occursAtb (String c hay) token (S j)
                             = occursAtb hay token j)
        by (intros j; reflexivity).
      assert (H0 : occursAtb (String c hay) token 0 = false)
        by (unfold occursAtb; simpl; exact E).
      destruct (indexOfAux hay token (S pos)) as [idx|].
      * destruct IH as [H1 [H2 H3]]. split; [lia|].
        replace (idx - pos)%nat with (S (idx - S pos)) by lia. split.
        -- now rewrite Hs.
        -- intros [|j] Hj; [exact H0|]. rewrite Hs. apply H3. lia.
      * intros [|j]; [exact H0|]. rewrite Hs. apply IH.
Qed.

Lemma occursAtb_drop (hay token : string) (start j : nat) :
  (start <= String.length hay)%nat ->
  occursAtb (drop start hay) token j = occursAtb hay token (start + j).
Proof.
  revert hay. induction start as [|start IH]; intros hay H.
  - now destruct hay.
  - destruct hay as [|c hay]; simpl in H; [lia|].
    rewrite drop_S. rewrite IH by lia. reflexivity.
Qed.

(** [indexOf] finds the first occurrence from [start] on. *)
Lemma indexOf_spec (hay token : string) (start : nat) :
  (start <= String.length hay)%nat ->
  match indexOf hay token start with
  | Some idx =>
      (start <= idx)%nat /\ occursAtb hay token idx = true /\
      forall j, (start <= j < idx)%nat -> occursAtb hay token j = false
  | None => forall j, (start <= j)%nat -> occursAtb hay token j = false
  end.
Proof.
  intros H. unfold indexOf.
  destruct (start <=? String.length hay)%nat eqn:E;
    [|apply Nat.leb_gt in E; lia].
  pose proof (indexOfAux_spec (drop start hay) token start) as Hsp.
  destruct (indexOfAux (drop start hay) token start) as [idx|].
  - destruct Hsp as [H1 [H2 H3]]. split; [exact H1|].
    rewrite occursAtb_drop in H2 by exact H.
    replace (start + (idx - start))%nat with idx in H2 by lia.
    split; [exact H2|]. intros j Hj.
    specialize (H3 (j - start)%nat). rewrite occursAtb_drop in H3 by exact H.
    replace (start + (j - start))%nat with j in H3 by lia. apply H3. lia.
  - intros j Hj. specialize (Hsp (j - start)%nat).
    rewrite occursAtb_drop in Hsp by exact H.
    now replace (start + (j - start))%nat with j in Hsp by lia.
Qed.

Lemma FreeAt_iff (hay : string) (taken : list (nat * nat)) (token : string)
      (j : nat) :
  FreeAt hay taken token j <-> freeAtb hay taken token j = true.
Proof.
  unfold FreeAt, freeAtb. rewrite andb_true_iff, OccursAt_iff, negb_true_iff.
  apply and_iff_compat_l. unfold overlapsTaken. split.
  - intros H. destruct (existsb _ taken) eqn:E; [|reflexivity].
    apply existsb_exists in E. destruct E as [[s e] [Hin Hov]].
    specialize (H s e Hin). simpl in Hov.
    apply negb_true_iff, orb_false_iff in Hov. destruct Hov as [H1 H2].
    apply Nat.leb_gt in H1, H2. lia.
  - intros H s e Hin.
    destruct (Nat.le_gt_cases (j + String.length token) s) as [Hl | Hl];
      [now left|].
    destruct (Nat.le_gt_cases e j) as [Hr | Hr]; [now right|].
    exfalso. assert (E : existsb
                           (fun span =>
                              negb ((j + String.length token <=? fst span)%nat
                                    || (snd span <=? j)%nat)) taken = true).
    { apply existsb_exists. exists (s, e). split; [exact Hin|]. simpl.
      apply negb_true_iff, orb_false_iff. split; apply Nat.leb_gt; lia. }
    rewrite E in H. discriminate.
Qed.

(** The loop for one token claims the leftmost free occurrence from [start]
    on; the fuel is enough when it covers the rest of the text. *)
Lemma claimSpan_spec (fuel : nat) (hay token : string)
      (taken : list (nat * nat)) (start : nat) :
  (String.length hay < fuel + start)%nat ->
  match claimSpan fuel hay token taken start with
  | Some (idx, end_) =>
      end_ = (idx + String.length token)%nat /\ (start <= idx)%nat /\
      freeAtb hay taken token idx = true /\
      forall j, (start <= j < idx)%nat -> freeAtb hay taken token j = false
  | None => forall j, (start <= j)%nat -> freeAtb hay taken token j = false
  end.
Proof.
  revert start. induction fuel as [|fuel IH]; intros start Hf.
  - simpl. intros j Hj. unfold freeAtb.
    destruct (occursAtb hay token j) eqn:E; [|reflexivity].
    apply occursAtb_length in E. simpl in Hf. lia.
  - simpl.
    destruct (start + String.length token <=? String.length hay)%nat eqn:Eg.
    + apply Nat.leb_le in Eg.
      pose proof (indexOf_spec hay token start) as Hsp.
      destruct (indexOf hay token start) as [idx|].
      * destruct Hsp as [H1 [H2 H3]]; [lia|].
        destruct (overlapsTaken taken idx (idx + String.length token)) eqn:Eo;
          simpl.
        -- specialize (IH (idx + 1)%nat).
           destruct (claimSpan fuel hay token taken (idx + 1)) as [[i e]|].
           ++ destruct IH as [I1 [I2 [I3 I4]]]; [lia|].
              split; [exact I1|]. split; [lia|]. split; [exact I3|].
              intros j Hj. destruct (Nat.lt_ge_cases j idx) as [Hlt | Hge].
              ** unfold freeAtb. rewrite H3 by lia. reflexivity.
              ** destruct (Nat.eq_dec j idx) as [-> | Hne].
                 --- unfold freeAtb. rewrite Eo.
                     now rewrite andb_false_r.
                 --- apply I4. lia.
           ++ intros j Hj. destruct (Nat.lt_ge_cases j idx) as [Hlt | Hge].
              ** unfold freeAtb. rewrite H3 by lia. reflexivity.
              ** destruct (Nat.eq_dec j idx) as [-> | Hne].
                 --- unfold freeAtb. rewrite Eo.
                     now rewrite andb_false_r.
                 --- apply IH; lia.
        -- split; [reflexivity|]. split; [exact H1|]. split.
           ++ unfold freeAtb. now rewrite H2, Eo.
           ++ intros j Hj. unfold freeAtb. now rewrite H3.
      * intros j Hj. unfold freeAtb. rewrite Hsp; [reflexivity | lia | exact Hj].
    + apply Nat.leb_gt in Eg. intros j Hj. unfold freeAtb.
      destruct (occursAtb hay token j) eqn:E; [|reflexivity].
      apply occursAtb_length in E. lia.
Qed.

Lemma claimSpan_leftmost (hay token : string) (taken : list (nat * nat)) :
  match claimSpan (S (String.length hay)) hay token taken 0 with
  | Some (idx, end_) =>
      end_ = (idx + String.length token)%nat /\
      LeftmostFreeAt hay taken token idx
  | None => forall j, ~ FreeAt hay taken token j
  end.
Proof.
  pose proof (claimSpan_spec (S (String.length hay)) hay token taken 0) as Hsp.
  destruct (claimSpan (S (String.length hay)) hay token taken 0) as [[i e]|].
  - destruct Hsp as [H1 [_ [H3 H4]]]; [lia|]. split; [exact H1|]. split.
    + now apply FreeAt_iff.
    + intros j Hj Hfree. apply FreeAt_iff in Hfree.
      rewrite H4 in Hfree; [discriminate | lia].
  - intros j Hfree. apply FreeAt_iff in Hfree.
    rewrite Hsp in Hfree; [discriminate | lia | lia].
Qed.

Lemma LeftmostFreeAt_unique (hay token : string) (taken : list (nat * nat))
      (i j : nat) :
  LeftmostFreeAt hay taken token i -> LeftmostFreeAt hay taken token j -> i = j.
Proof.
  intros [Hi Li] [Hj Lj].
  destruct (Nat.lt_trichotomy i j) as [H | [H | H]]; [|exact H|].
  - exfalso. now apply (Lj i).
  - exfalso. now apply (Li j).
Qed.

Lemma tokensLoop_iff (text : string) (tokens : list string)
      (taken : list (nat * nat)) :
  tokensLoop text tokens taken = true <-> GreedyAssignment text taken tokens.
Proof.
  revert taken. induction tokens as [|token rest IH]; intros taken;
    cbn [tokensLoop].
  - split; [intros _; constructor | reflexivity].
  - destruct (String.eqb token "") eqn:E.
    + apply String.eqb_eq in E. subst token. rewrite IH. split.
      * intros H. now constructor.
      * intros H. inversion H; subst; [assumption | congruence].
    + apply String.eqb_neq in E.
      pose proof (claimSpan_leftmost text token taken) as Hsp.
      destruct (claimSpan (S (String.length text)) text token taken 0)
        as [[i e]|].
      * destruct Hsp as [-> HL]. rewrite IH. split.
        -- intros H. now apply greedy_claim with (idx := i).
        -- intros H. inversion H; subst; [congruence|].
           replace i with idx; [assumption|].
           now apply (LeftmostFreeAt_unique text token taken).
      * split; [discriminate|]. intros H. inversion H; subst; [congruence|].
        exfalso. apply (Hsp idx). match goal with
                                | HL : LeftmostFreeAt _ _ _ _ |- _ =>
                                    exact (proj1 HL)
                                end.
Qed.

(** C6. [tokensMatchNonOverlapping] reports a match exactly when every
    term, in the order of the list, can be given the leftmost occurrence in
    the text that is disjoint from the spans claimed before it.  For the
    text [as7-d] and the terms [as7] and [7], the only [7] lies inside the
    span of [as7], and the match fails; so it does for a unit of chassis
    [atlas] and model [as7-d]. *)
Theorem tokens_match_iff_greedy_assignment :
  (forall (text : string) (tokens : list string),
      tokensMatchNonOverlapping text tokens = true <->
      GreedyAssignment text [] tokens) /\
  tokensMatchNonOverlapping "as7-d" ["as7"; "7"] = false /\
  matchesWords Example.atlas ["as7"; "7"] = false.
Proof.
  split; [|split; reflexivity].
  intros text tokens. apply tokensLoop_iff.
Qed.

(* ================================================================== *)
(** ** Compact URL codec *)
(* ================================================================== *)

Lemma split_alone (c : ascii) (x : string) :
  indexOfChar x c = None -> split c x = [x].
Proof.
  induction x as [|a x IH]; simpl; intros H; [reflexivity|].
  destruct (Ascii.eqb a c); [discriminate|].
  destruct (indexOfChar x c); [discriminate|].
  now rewrite IH.
Qed.

Lemma split_append (c : ascii) (x rest : string) :
  indexOfChar x c = None ->
  split c (x ++ String c rest) = x :: split c rest.
Proof.
  induction x as [|a x IH]; simpl; intros H.
  - now rewrite Ascii.eqb_refl.
  - destruct (Ascii.eqb a c); [discriminate|].
    destruct (indexOfChar x c); [discriminate|].
    now rewrite IH.
Qed.

(** Splitting what [join] has put together gives the parts back. *)
Lemma split_join (parts : list string) :
  parts <> [] -> Forall noBar parts -> split "|" (join "|" parts) = parts.
Proof.
  unfold join. induction parts as [|x parts IH]; intros Hne Hall;
    [congruence|].
  inversion Hall as [|? ? Hx Hrest]; subst.
  destruct parts as [|y parts].
  - simpl. now apply split_alone.
  - change (String.concat "|" (x :: y :: parts))
      with (x ++ String "|" (String.concat "|" (y :: parts)))%string.
    rewrite split_append by exact Hx.
    rewrite IH; [reflexivity | discriminate | exact Hrest].
Qed.

Lemma parse_join (parts : list string) :
  Forall noBar parts ->
  parseCompactFiltersFromUrl (join "|" parts) = parseParts parts [].
Proof.
  intros H. unfold parseCompactFiltersFromUrl.
  destruct parts as [|x parts]; [reflexivity|].
  rewrite split_join; [reflexivity | discriminate | exact H].
Qed.

(** Where [parseFloat] gives [NaN], the embedding reads no number. *)
Lemma floatIsNaN_parseFloat (s : string) :
  Num.floatIsNaN s = true -> Num.parseFloat s = None.
Proof.
  unfold Num.floatIsNaN, Num.parseFloat.
  destruct (Num.sign (trimStart s)) as [sg r].
  destruct r as [|c r']; [reflexivity|].
  intros H. apply negb_true_iff in H.
  apply orb_false_iff in H. destruct H as [H _].
  apply orb_false_iff in H. destruct H as [H _].
  cbn [span]. now rewrite H.
Qed.

(** A segment of one of the three malformed kinds leaves the state as it
    is. *)
Lemma parsePart_malformed (part : string) (fs : FilterState) :
  Malformed part -> parsePart fs part = Some fs.
Proof.
  intros [H | i H1 H2 | i conf H1 H2 H3 H4]; unfold parsePart.
  - now rewrite H.
  - now rewrite H1, H2.
  - rewrite H1, H2, H3. destruct H4 as [H4 | [d [H4 [H5 | H5]]]].
    + now rewrite H4.
    + rewrite H4, (floatIsNaN_parseFloat _ H5). reflexivity.
    + rewrite H4, (floatIsNaN_parseFloat _ H5).
      now destruct (Num.parseFloat (take d (drop (i + 1) part))).
Qed.

(** Whether a segment throws does not depend on the state so far. *)
Lemma parsePart_throws (part : string) (fs : FilterState) :
  Throws part -> parsePart fs part = None.
Proof.
  unfold Throws, parsePart.
  destruct (indexOfChar part ":") as [i|]; [|discriminate].
  destruct (findConf (take i part)) as [conf|]; [|discriminate].
  destruct (type conf).
  - destruct (multistate conf).
    + destruct (parseSelectionItems _ _) as [[|? ?]|]; try discriminate.
      reflexivity.
    + destruct (decodeAll _) as [[|? ?]|]; try discriminate. reflexivity.
  - destruct (indexOfChar (drop (i + 1) part) "-") as [d|]; [|discriminate].
    destruct (Num.parseFloat (take d (drop (i + 1) part))),
             (Num.parseFloat (drop (d + 1) (drop (i + 1) part)));
      discriminate.
Qed.

Lemma indexOfChar_append (c : ascii) (k r : string) :
  indexOfChar k c = None ->
  indexOfChar (k ++ String c r) c = Some (String.length k).
Proof.
  induction k as [|a k IH]; simpl; intros H.
  - now rewrite Ascii.eqb_refl.
  - destruct (Ascii.eqb a c); [discriminate|].
    destruct (indexOfChar k c); [discriminate|].
    now rewrite IH.
Qed.

Lemma take_append (k r : string) : take (String.length k) (k ++ r) = k.
Proof. induction k as [|a k IH]; simpl; [now destruct r | now rewrite IH]. Qed.

Lemma drop_append_char (c : ascii) (k r : string) :
  drop (String.length k + 1) (k ++ String c r) = r.
Proof. induction k as [|a k IH]; simpl; [now destruct r | exact IH]. Qed.

Lemma decodeAll_throws (values : list string) (v : string) :
  In v values -> decodeURIComponent v = None -> decodeAll values = None.
Proof.
  induction values as [|x values IH]; intros Hin Hv; [destruct Hin|].
  simpl. destruct Hin as [-> | Hin].
  - now rewrite Hv.
  - rewrite (IH Hin Hv). now destruct (decodeURIComponent x).
Qed.

(** A segment of a plain dropdown throws when one of its names is not
    percent-encoded text. *)
Lemma Throws_bad_escape (k payload v : string) (conf : AdvFilterConfig) :
  indexOfChar k ":" = None ->
  findConf k = Some conf -> type conf = DROPDOWN -> multistate conf = false ->
  In v (split "," payload) -> v <> "" -> decodeURIComponent v = None ->
  Throws (k ++ ":" ++ payload).
Proof.
  intros Hk Hf Ht Hm Hin Hne Hv. unfold Throws, parsePart.
  change (k ++ ":" ++ payload)%string with (k ++ String ":" payload)%string.
  rewrite (indexOfChar_append ":" k payload Hk).
  rewrite take_append, drop_append_char, Hf, Ht, Hm.
  rewrite (decodeAll_throws _ v); [reflexivity | | exact Hv].
  apply filter_In. split; [exact Hin|].
  apply negb_true_iff. now apply String.eqb_neq.
Qed.

Lemma parseParts_skip (pre post : list string) (bad : string)
      (fs : FilterState) :
  (forall fs', parsePart fs' bad = Some fs') ->
  parseParts (pre ++ bad :: post) fs = parseParts (pre ++ post) fs.
Proof.
  intros H. revert fs. induction pre as [|p pre IH]; intros fs; simpl.
  - now rewrite H.
  - destruct (parsePart fs p); [apply IH | reflexivity].
Qed.

Lemma parseParts_stop (pre post : list string) (bad : string)
      (fs : FilterState) :
  (forall fs', parsePart fs' bad = None) ->
  parseParts (pre ++ bad :: post) fs = parseParts pre fs.
Proof.
  intros H. revert fs. induction pre as [|p pre IH]; intros fs; simpl.
  - now rewrite H.
  - destruct (parsePart fs p); [apply IH | reflexivity].
Qed.

Lemma noBar_app (pre post : list string) :
  Forall noBar pre -> Forall noBar post -> Forall noBar (pre ++ post).
Proof. intros H1 H2. apply Forall_app. now split. Qed.

(** C4, as the service does it. In a compact filters string, a segment
    missing its [:], naming an unknown key or carrying an unparsable range
    (no dash, or a bound that [parseFloat] reads as [NaN]) is skipped, and
    the segments before and after it are parsed as without it.  A segment
    on which [decodeURIComponent] throws ends the parse: the
    filters of the segments before it are returned, the segments after it
    are not parsed.  No error leaves the function; and when the top-level
    decode of the [filters] parameter fails at startup, the filter state
    stays empty. *)
Theorem malformed_segments_skipped_throw_stops :
  forall (pre post : list string) (bad : string),
    Forall noBar pre -> Forall noBar post -> noBar bad ->
    (Malformed bad ->
     parseCompactFiltersFromUrl (join "|" (pre ++ bad :: post))
     = parseCompactFiltersFromUrl (join "|" (pre ++ post)))
    /\ (Throws bad ->
        parseCompactFiltersFromUrl (join "|" (pre ++ bad :: post))
        = parseCompactFiltersFromUrl (join "|" pre))
    /\ (forall (this : Service) (filtersParam : string),
           decodeURIComponent filtersParam = None ->
           loadFilters this [] (Some filtersParam) = []).
Proof.
  intros pre post bad Hpre Hpost Hbad.
  assert (Hall : Forall noBar (pre ++ bad :: post)).
  { apply noBar_app; [exact Hpre | now constructor]. }
  split; [|split].
  - intros Hm. rewrite !parse_join; [| now apply noBar_app | exact Hall].
    apply parseParts_skip. intros fs'. now apply parsePart_malformed.
  - intros Ht. rewrite !parse_join; [| exact Hpre | exact Hall].
    apply parseParts_stop. intros fs'. now apply parsePart_throws.
  - intros this filtersParam Hd. unfold loadFilters. rewrite Hd.
    now destruct filtersParam.
Qed.

(** C4 as the specification words it fails: the segment [bv:1-5] is well
    formed and parses alone, but behind a segment on which
    [decodeURIComponent] throws it is not parsed. *)
Lemma malformed_segment_aborts_counterexample :
  ~ (parseCompactFiltersFromUrl (join "|" ["type:%"; "bv:1-5"])
     = parseCompactFiltersFromUrl (join "|" ["bv:1-5"])).
Proof.
  intros H. vm_compute in H. discriminate H.
Qed.

(** C4 at two malformed segments and at one that throws. *)
Lemma malformed_segments_skipped_throw_stops_witness :
  Forall noBar ["tons:10-20"] /\ Forall noBar ["bv:1-5"] /\
  noBar "heat:5" /\ noBar "year:late-3050" /\ noBar "type:%" /\
  Malformed "heat:5" /\ Malformed "year:late-3050" /\ Throws "type:%" /\
  parseCompactFiltersFromUrl "tons:10-20|heat:5|bv:1-5"
  = parseCompactFiltersFromUrl "tons:10-20|bv:1-5" /\
  parseCompactFiltersFromUrl "tons:10-20|year:late-3050|bv:1-5"
  = parseCompactFiltersFromUrl "tons:10-20|bv:1-5" /\
  parseCompactFiltersFromUrl "tons:10-20|type:%|bv:1-5"
  = parseCompactFiltersFromUrl "tons:10-20".
Proof.
  assert (H1 : Forall noBar ["tons:10-20"]) by (repeat constructor).
  assert (H2 : Forall noBar ["bv:1-5"]) by (repeat constructor).
  assert (H3 : noBar "heat:5") by reflexivity.
  assert (H3' : noBar "year:late-3050") by reflexivity.
  assert (H4 : noBar "type:%") by reflexivity.
  assert (H5 : Malformed "heat:5").
  { apply malformed_range with (i := 4%nat)
                               (conf := mkConf "heat" RANGE None false
                                               (Some [(-1)%Z]) false false);
      try reflexivity.
    left. reflexivity. }
  assert (H5' : Malformed "year:late-3050").
  { apply malformed_range with (i := 4%nat) (conf := range "year");
      try reflexivity.
    right. exists 4%nat. split; [reflexivity|]. left. reflexivity. }
  assert (H6 : Throws "type:%") by reflexivity.
  repeat (split; [assumption|]).
  split; [|split].
  - apply (proj1 (malformed_segments_skipped_throw_stops
                    ["tons:10-20"] ["bv:1-5"] "heat:5" H1 H2 H3) H5).
  - apply (proj1 (malformed_segments_skipped_throw_stops
                    ["tons:10-20"] ["bv:1-5"] "year:late-3050" H1 H2 H3')
                 H5').
  - apply (proj1 (proj2 (malformed_segments_skipped_throw_stops
                           ["tons:10-20"] ["bv:1-5"] "type:%" H1 H2 H4)) H6).
Defined.

(** C1 fails on the service: a selection entry with the state [and] and a
    count above 1 is written with the state suffix in front of the count,
    and read back as the state [or] under a name that ends in the suffix.
    The state is one [setFilter] produces, its name the name of a component
    of the catalogue. *)
Theorem roundtrip_loses_state_before_count :
  let selection := VSelection [("AC/20", mkSel st_and 2)] in
  let st := [("componentName", mkEntry selection true)] in
  setFilter Example.adjust Example.service [Example.atlas] [] "componentName"
            selection = st /\
  generateCompactFiltersParam st = Some "componentName:AC%2F20.~2" /\
  parseCompactFiltersFromUrl "componentName:AC%2F20.~2"
  = [("componentName",
      mkEntry (VSelection [("AC/20.", mkSel st_or 2)]) true)].
Proof.
  repeat split.
Qed.

(** Two more ways to lose a selection on the way through the codec: a
    name that ends in a state suffix, which [encodeURIComponent] does not
    escape, and a range that starts below zero, whose sign is read as the
    dash between the bounds. *)
Lemma roundtrip_loses_trailing_suffix :
  let st := [("quirks", mkEntry (VSelection [("No Arms.", mkSel st_or 1)]) true)] in
  generateCompactFiltersParam st = Some "quirks:No%20Arms." /\
  parseCompactFiltersFromUrl "quirks:No%20Arms."
  = [("quirks", mkEntry (VSelection [("No Arms", mkSel st_and 1)]) true)].
Proof.
  repeat split.
Qed.

Lemma roundtrip_loses_negative_bound :
  let st := [("year", mkEntry (VRange (-5) 10) true)] in
  generateCompactFiltersParam st = Some "year:-5-10" /\
  parseCompactFiltersFromUrl "year:-5-10" = [].
Proof.
  repeat split.
Qed.

(* ================================================================== *)
(** ** The cache of total ranges holds intervals *)
(* ================================================================== *)

Section CacheFacts.
Variable calculateAdjustedBV : Z -> Z -> Z -> Z.
Variable this : Service.

Lemma cacheWellFormed_empty : cacheWellFormed [].
Proof. intros k r H. discriminate H. Qed.

Lemma cacheWellFormed_set (cache : obj (Z * Z)) (k : string) (r : Z * Z) :
  cacheWellFormed cache -> (fst r <= snd r)%Z ->
  cacheWellFormed (obj_set cache k r).
Proof.
  intros Hc Hr k' r' H. rewrite obj_get_set in H.
  destruct (String.eqb k k').
  - inversion H. now subst.
  - now apply (Hc k').
Qed.

Lemma observed_range_interval (vals : list Z) :
  (fst match vals with
       | h :: t => (minOf h t, maxOf h t)
       | [] => (0, 0)%Z
       end
   <= snd match vals with
          | h :: t => (minOf h t, maxOf h t)
          | [] => (0, 0)%Z
          end)%Z.
Proof.
  destruct vals as [|h t]; simpl; [lia|].
  pose proof (minOf_le h t). pose proof (maxOf_ge h t). lia.
Qed.

(** [calculateTotalRanges] keeps the cache well formed. *)
Lemma calculateTotalRanges_wellFormed :
  cacheWellFormed (totalRangesCache this) ->
  cacheWellFormed (calculateTotalRanges calculateAdjustedBV this).
Proof.
  unfold calculateTotalRanges.
  generalize (filter (fun f => AdvFilterType_eqb (type f) RANGE)
                     ADVANCED_FILTERS).
  generalize (totalRangesCache this).
  intros cache confs. revert cache.
  induction confs as [|conf confs IH]; intros cache Hc; simpl; [exact Hc|].
  apply IH. apply cacheWellFormed_set; [exact Hc|].
  apply observed_range_interval.
Qed.

(** So does [recalculateBVRange]. *)
Lemma recalculateBVRange_wellFormed :
  cacheWellFormed (totalRangesCache this) ->
  cacheWellFormed (recalculateBVRange calculateAdjustedBV this).
Proof.
  intros Hc. unfold recalculateBVRange.
  destruct (filter _ _) as [|h t]; [exact Hc|].
  apply cacheWellFormed_set; [exact Hc|]. simpl.
  pose proof (minOf_le h t). pose proof (maxOf_ge h t). lia.
Qed.

End CacheFacts.

(* ================================================================== *)
(** ** More on the filtering pipeline *)
(* ================================================================== *)

Lemma obj_delete_set {V} (o : obj V) (k : string) (v : V) :
  obj_delete (obj_set o k v) k = obj_delete o k.
Proof.
  unfold obj_delete, obj_set.
  induction o as [|[k0 v0] r IH]; simpl.
  - now rewrite String.eqb_refl.
  - destruct (String.eqb k0 k) eqn:E; simpl.
    + now rewrite String.eqb_refl.
    + now rewrite E, IH.
Qed.

Lemma touchedValue_untouched_all (st : FilterState) :
  (forall k e, In (k, e) st -> interactedWith e = false) ->
  forall k, touchedValue st k = None.
Proof.
  intros H k. unfold touchedValue.
  destruct (obj_get st k) as [e|] eqn:E; [|reflexivity].
  apply obj_get_In in E. now rewrite (H k e E).
Qed.

Lemma minOf_le_all (h : Z) (t : list Z) (x : Z) :
  In x (h :: t) -> (minOf h t <= x)%Z.
Proof.
  unfold minOf. revert h. induction t as [|y t IH]; intros h H; simpl.
  - destruct H as [-> | []]. lia.
  - destruct H as [-> | [-> | H]].
    + pose proof (minOf_le (Z.min x y) t) as G. unfold minOf in G. lia.
    + pose proof (minOf_le (Z.min h x) t) as G. unfold minOf in G. lia.
    + apply IH. now right.
Qed.

Lemma maxOf_ge_all (h : Z) (t : list Z) (x : Z) :
  In x (h :: t) -> (x <= maxOf h t)%Z.
Proof.
  unfold maxOf. revert h. induction t as [|y t IH]; intros h H; simpl.
  - destruct H as [-> | []]. lia.
  - destruct H as [-> | [-> | H]].
    + pose proof (maxOf_ge (Z.max x y) t) as G. unfold maxOf in G. lia.
    + pose proof (maxOf_ge (Z.max h x) t) as G. unfold maxOf in G. lia.
    + apply IH. now right.
Qed.

(** The range observed over a list of values bounds each of them. *)
Lemma observed_range_covers (vals : list Z) (x : Z) :
  In x vals ->
  exists lo hi,
    match vals with
    | h :: t => (minOf h t, maxOf h t)
    | [] => (0, 0)%Z
    end = (lo, hi) /\ (lo <= x <= hi)%Z.
Proof.
  intros H. destruct vals as [|h t]; [destruct H|].
  exists (minOf h t), (maxOf h t). split; [reflexivity|].
  split; [now apply minOf_le_all | now apply maxOf_ge_all].
Qed.

Section PipelineMore.
Variable calculateAdjustedBV : Z -> Z -> Z -> Z.
Variable this : Service.

Local Abbreviation applyFilters := (applyFilters calculateAdjustedBV this).
Local Abbreviation standardKeeps := (standardKeeps calculateAdjustedBV this).
Local Abbreviation advOptionsRange :=
  (advOptionsRange calculateAdjustedBV this).
Local Abbreviation getAdjustedBV := (getAdjustedBV calculateAdjustedBV this).

(** X1. [applyFilters] judges every record on its own: for a filter state
    there is a test on single records such that the result is the input
    list filtered by it.  The pipeline therefore never adds, repeats or
    reorders records. *)
Theorem applyFilters_is_a_filter :
  forall (st : FilterState),
  exists keeps : Unit -> bool,
  forall (units : list Unit), applyFilters units st = filter keeps units.
Proof.
  intros st. eexists. intros units. apply applyFilters_filter.
Qed.

Lemma applyFilters_empty (units : list Unit) : applyFilters units [] = units.
Proof.
  rewrite applyFilters_filter.
  rewrite (filter_ext _ (fun _ => true)); [apply filter_true|].
  intros u. apply andb_true_iff. split; [reflexivity|].
  apply forallb_forall. intros c _. now apply standardKeeps_absent.
Qed.

(** X2. A filter state in which no entry is touched, the empty state among
    them, filters nothing: [applyFilters] returns the records as they
    are. *)
Theorem applyFilters_nothing_touched :
  forall (units : list Unit) (st : FilterState),
    wellKeyed st ->
    (forall k e, In (k, e) st -> interactedWith e = false) ->
    applyFilters units st = units.
Proof.
  intros units st Hwk Hun.
  rewrite (applyFilters_ext calculateAdjustedBV this st [] units).
  - apply applyFilters_empty.
  - exact Hwk.
  - constructor.
  - intros k. now rewrite touchedValue_untouched_all.
Qed.

(** X3. Filtering twice with the same state is filtering once. *)
Theorem applyFilters_idempotent :
  forall (units : list Unit) (st : FilterState),
    applyFilters (applyFilters units st) st = applyFilters units st.
Proof.
  intros units st. rewrite !applyFilters_filter, filter_filter.
  apply filter_ext. intros u. apply andb_diag.
Qed.

Lemma setFilterInteracted_inert (baseUnits : list Unit) (st : FilterState)
      (conf : AdvFilterConfig) (v : FilterValue) :
  hasShape conf v ->
  Inert (option_map options
           (advOptionsRangeAt calculateAdjustedBV this baseUnits st (key conf)))
        v ->
  setFilterInteracted calculateAdjustedBV this baseUnits st conf v = false.
Proof.
  unfold setFilterInteracted, hasShape. intros Hs Hi.
  destruct (type conf), v as [l|sel|lo hi]; try contradiction.
  - rewrite Hs. now inversion Hi.
  - rewrite Hs. inversion Hi; subst.
    apply negb_false_iff, orb_true_iff. right. now apply all_off_iff.
  - inversion Hi as [| |? ? E]; subst.
    destruct (advOptionsRangeAt calculateAdjustedBV this baseUnits st (key conf))
      as [o|]; [|discriminate].
    simpl in E. injection E as E. rewrite E. simpl.
    now rewrite !Z.eqb_refl.
Qed.

(** X4. Setting a filter to a value that is inert for its kind (the empty
    array, a selection with every entry [off], the available range) gives
    the result of the pipeline without that filter. *)
Theorem setFilter_inert_clears_filter :
  forall (baseUnits units : list Unit) (st : FilterState) (k : string)
         (conf : AdvFilterConfig) (v : FilterValue),
    wellKeyed st ->
    findConf k = Some conf ->
    hasShape conf v ->
    Inert (option_map options
             (advOptionsRangeAt calculateAdjustedBV this baseUnits st k)) v ->
    applyFilters units (setFilter calculateAdjustedBV this baseUnits st k v)
    = applyFilters units (obj_delete st k).
Proof.
  intros baseUnits units st k conf v Hwk Hf Hs Hi.
  unfold setFilter. rewrite Hf.
  destruct (findConf_key k conf Hf) as [Ek _]. subst k.
  rewrite (setFilterInteracted_inert baseUnits st conf v Hs Hi).
  apply applyFilters_ext.
  - now apply wellKeyed_set.
  - now apply wellKeyed_delete.
  - intros k'. apply touchedValue_untouched.
Qed.

(** X5. The available range of a range filter does not depend on the
    filter's own entry: storing any value under its key leaves [options]
    and [totalRange] as they were. *)
Theorem available_range_ignores_own_entry :
  forall (baseUnits : list Unit) (st : FilterState) (conf : AdvFilterConfig)
         (e : FilterEntry),
    options (advOptionsRange baseUnits (obj_set st (key conf) e) conf)
    = options (advOptionsRange baseUnits st conf) /\
    totalRange (advOptionsRange baseUnits (obj_set st (key conf) e) conf)
    = totalRange (advOptionsRange baseUnits st conf).
Proof.
  intros baseUnits st conf e. unfold advOptionsRange. cbv zeta.
  cbn [options totalRange]. rewrite obj_delete_set. split; reflexivity.
Qed.

Lemma clampInto_same (a : Z * Z) : (fst a <= snd a)%Z -> clampInto a a = a.
Proof.
  intros H. unfold clampInto. destruct a as [lo hi]. simpl in *.
  destruct (_ <? _)%Z eqn:E;
    [apply Z.ltb_lt in E | apply Z.ltb_ge in E]; f_equal; lia.
Qed.

(** X6. For a range filter that is not touched, [advOptions] exposes the
    available range itself as the value, and the flag [interacted] is
    off. *)
Theorem untouched_range_exposes_available :
  forall (baseUnits : list Unit) (st : FilterState) (conf : AdvFilterConfig),
    cacheWellFormed (totalRangesCache this) ->
    touchedValue st (key conf) = None ->
    exposedValue (advOptionsRange baseUnits st conf)
    = options (advOptionsRange baseUnits st conf) /\
    interacted (advOptionsRange baseUnits st conf) = false.
Proof.
  intros baseUnits st conf Hc Ht.
  pose proof (options_interval calculateAdjustedBV this baseUnits st conf Hc)
    as Hint. cbv zeta in Hint.
  revert Hint. unfold advOptionsRange, touchedValue in *. cbv zeta.
  cbn [exposedValue options interacted].
  destruct (obj_get st (key conf)) as [[v b]|]; simpl in Ht.
  - destruct b; [discriminate|]. intros Hint. split; [|reflexivity].
    destruct v; now apply clampInto_same.
  - intros Hint. split; [|reflexivity]. now apply clampInto_same.
Qed.

(** X7. The available range of a range filter other than [bv] bounds the
    value of every record of the context set (the records the other
    filters keep) that holds a number which is not an ignored value. *)
Theorem available_range_covers_context :
  forall (baseUnits : list Unit) (st : FilterState) (conf : AdvFilterConfig)
         (u : Unit) (z : Z),
    String.eqb (key conf) "bv" = false ->
    In u (applyFilters baseUnits (obj_delete st (key conf))) ->
    prop u (key conf) = PScalar (SNum z) ->
    (forall ign, ignoreValues conf = Some ign -> ~ In z ign) ->
    (fst (options (advOptionsRange baseUnits st conf)) <= z
     <= snd (options (advOptionsRange baseUnits st conf)))%Z.
Proof.
  intros baseUnits st conf u z Hbv Hin Hp Hign.
  unfold advOptionsRange. cbv zeta. cbn [options]. rewrite Hbv.
  set (ctx := applyFilters baseUnits (obj_delete st (key conf))) in *.
  assert (Hv : In z (getValidFilterValues ctx conf)).
  { unfold getValidFilterValues.
    assert (Hz : In z (flat_map (fun u => match prop u (key conf) with
                                          | PScalar (SNum z) => [z]
                                          | _ => []
                                          end) ctx)).
    { apply in_flat_map. exists u. split; [exact Hin|]. rewrite Hp. now left. }
    destruct (ignoreValues conf) as [[|i ign]|] eqn:E; try exact Hz.
    apply filter_In. split; [exact Hz|].
    apply negb_true_iff. destruct (existsb (Z.eqb z) (i :: ign)) eqn:Ex;
      [|reflexivity].
    apply existsb_exists in Ex. destruct Ex as [y [Hy Hq]].
    apply Z.eqb_eq in Hq. subst y. exfalso. now apply (Hign (i :: ign)). }
  destruct (observed_range_covers _ z Hv) as [lo [hi [Heq Hb]]].
  destruct (getValidFilterValues ctx conf) as [|h t]; [destruct Hv|].
  injection Heq as <- <-. exact Hb.
Qed.

End PipelineMore.

Lemma fold_set_get_other {C V} (kf : C -> string) (f : C -> V) (cs : list C)
      (cache : obj V) (k : string) :
  (forall c, In c cs -> kf c <> k) ->
  obj_get (fold_left (fun cache c => obj_set cache (kf c) (f c)) cs cache) k
  = obj_get cache k.
Proof.
  revert cache. induction cs as [|c cs IH]; intros cache H; simpl;
    [reflexivity|].
  rewrite IH by (intros c' Hc'; apply H; now right).
  rewrite obj_get_set.
  destruct (String.eqb (kf c) k) eqn:E; [|reflexivity].
  apply String.eqb_eq in E. exfalso. apply (H c); [now left | exact E].
Qed.

(** Writing one entry per element of a list whose keys differ leaves, under
    the key of each element, the entry written for it. *)
Lemma fold_set_get (f : AdvFilterConfig -> Z * Z) (cs : list AdvFilterConfig)
      (cache : obj (Z * Z)) (conf : AdvFilterConfig) :
  In conf cs ->
  (forall c, In c cs -> key c = key conf -> c = conf) ->
  obj_get (fold_left (fun cache c => obj_set cache (key c) (f c)) cs cache)
          (key conf)
  = Some (f conf).
Proof.
  revert cache. induction cs as [|c cs IH]; intros cache Hin Huniq;
    [destruct Hin|].
  simpl. destruct (in_dec AdvFilterConfig_eq_dec conf cs) as [Hr | Hr].
  - apply IH; [exact Hr|]. intros c' Hc'. apply Huniq. now right.
  - destruct Hin as [-> | Hin]; [|contradiction].
    rewrite fold_set_get_other.
    + rewrite obj_get_set. now rewrite String.eqb_refl.
    + intros c' Hc' E. apply Hr.
      rewrite <- (Huniq c' (or_intror Hc') E). exact Hc'.
Qed.

Section CacheMore.
Variable calculateAdjustedBV : Z -> Z -> Z -> Z.
Variable this : Service.

(** X8. After [calculateTotalRanges], the cache holds for every range
    filter of the table an interval that bounds the values of all units:
    for a filter other than [bv], every number held by a unit that is not
    an ignored value; for [bv], every positive adjusted battle value. *)
Theorem total_range_covers_units :
  forall (conf : AdvFilterConfig) (u : Unit),
    In conf ADVANCED_FILTERS -> type conf = RANGE ->
    In u (units this) ->
    (forall z,
        String.eqb (key conf) "bv" = false ->
        prop u (key conf) = PScalar (SNum z) ->
        (forall ign, ignoreValues conf = Some ign -> ~ In z ign) ->
        exists lo hi,
          obj_get (calculateTotalRanges calculateAdjustedBV this) (key conf)
          = Some (lo, hi) /\ (lo <= z <= hi)%Z)
    /\ (String.eqb (key conf) "bv" = true ->
        (0 < getAdjustedBV calculateAdjustedBV this u)%Z ->
        exists lo hi,
          obj_get (calculateTotalRanges calculateAdjustedBV this) (key conf)
          = Some (lo, hi) /\
          (lo <= getAdjustedBV calculateAdjustedBV this u <= hi)%Z).
Proof.
  intros conf u Hin Hty Hu.
  assert (Hget : forall f,
             obj_get
               (fold_left (fun cache c => obj_set cache (key c) (f c))
                  (filter (fun f => AdvFilterType_eqb (type f) RANGE)
                          ADVANCED_FILTERS)
                  (totalRangesCache this)) (key conf)
             = Some (f conf)).
  { intros f. apply fold_set_get.
    - apply filter_In. split; [exact Hin|]. now rewrite Hty.
    - intros c Hc E. apply filter_In in Hc.
      now apply ADVANCED_FILTERS_keys. }
  unfold calculateTotalRanges. split.
  - intros z Hbv Hp Hign.
    rewrite (Hget (fun conf =>
                     match (if String.eqb (key conf) "bv"
                            then filter (fun b => (0 <? b)%Z)
                                        (map (getAdjustedBV calculateAdjustedBV this)
                                             (units this))
                            else getValidFilterValues (units this) conf) with
                     | h :: t => (minOf h t, maxOf h t)
                     | [] => (0, 0)%Z
                     end)).
    rewrite Hbv.
    assert (Hv : In z (getValidFilterValues (units this) conf)).
    { unfold getValidFilterValues.
      assert (Hz : In z (flat_map (fun u => match prop u (key conf) with
                                            | PScalar (SNum z) => [z]
                                            | _ => []
                                            end) (units this))).
      { apply in_flat_map. exists u. split; [exact Hu|]. rewrite Hp.
        now left. }
      destruct (ignoreValues conf) as [[|i ign]|] eqn:E; try exact Hz.
      apply filter_In. split; [exact Hz|].
      apply negb_true_iff. destruct (existsb (Z.eqb z) (i :: ign)) eqn:Ex;
        [|reflexivity].
      apply existsb_exists in Ex. destruct Ex as [y [Hy Hq]].
      apply Z.eqb_eq in Hq. subst y. exfalso. now apply (Hign (i :: ign)). }
    destruct (observed_range_covers _ z Hv) as [lo [hi [Heq Hb]]].
    exists lo, hi. split; [now rewrite Heq | exact Hb].
  - intros Hbv Hpos.
    rewrite (Hget (fun conf =>
                     match (if String.eqb (key conf) "bv"
                            then filter (fun b => (0 <? b)%Z)
                                        (map (getAdjustedBV calculateAdjustedBV this)
                                             (units this))
                            else getValidFilterValues (units this) conf) with
                     | h :: t => (minOf h t, maxOf h t)
                     | [] => (0, 0)%Z
                     end)).
    rewrite Hbv.
    assert (Hv : In (getAdjustedBV calculateAdjustedBV this u)
                    (filter (fun b => (0 <? b)%Z)
                            (map (getAdjustedBV calculateAdjustedBV this)
                                 (units this)))).
    { apply filter_In. split; [now apply in_map | now apply Z.ltb_lt]. }
    destruct (observed_range_covers _ _ Hv) as [lo [hi [Heq Hb]]].
    exists lo, hi. split; [now rewrite Heq | exact Hb].
Qed.

End CacheMore.

(* ------------------------------------------------------------------ *)
(** *** Instances on the small catalogue *)

Lemma applyFilters_nothing_touched_witness :
  let st := [("type", mkEntry (VNames ["Infantry"]) false)] in
  wellKeyed st /\
  applyFilters Example.adjust Example.service
               [Example.atlas; Example.trooper] st
  = [Example.atlas; Example.trooper].
Proof.
  intros st. split.
  - apply wellKeyed_one.
  - apply (applyFilters_nothing_touched Example.adjust Example.service).
    + apply wellKeyed_one.
    + intros k e [H | []]. now inversion H.
Defined.

Lemma setFilter_inert_clears_filter_witness :
  let st := [("type", mkEntry (VNames ["Infantry"]) true)] in
  let units := [Example.atlas; Example.trooper] in
  wellKeyed st /\
  applyFilters Example.adjust Example.service units
    (setFilter Example.adjust Example.service units st "type" (VNames []))
  = applyFilters Example.adjust Example.service units (obj_delete st "type").
Proof.
  intros st units. split.
  - apply wellKeyed_one.
  - apply (setFilter_inert_clears_filter
             Example.adjust Example.service units units st "type"
             (dropdown "type") (VNames [])).
    + apply wellKeyed_one.
    + reflexivity.
    + reflexivity.
    + constructor.
Defined.

Lemma untouched_range_exposes_available_witness :
  let units := [Example.atlas; Example.locust] in
  let heat := mkConf "heat" RANGE None false (Some [(-1)%Z]) false false in
  cacheWellFormed (totalRangesCache Example.service) /\
  exposedValue (advOptionsRange Example.adjust Example.service units [] heat)
  = (3, 22)%Z /\
  options (advOptionsRange Example.adjust Example.service units [] heat)
  = (3, 22)%Z.
Proof.
  intros units heat.
  assert (Hc : cacheWellFormed (totalRangesCache Example.service)).
  { intros k r H. discriminate H. }
  split; [exact Hc|].
  assert (Ho : options (advOptionsRange Example.adjust Example.service
                                        units [] heat) = (3, 22)%Z)
    by reflexivity.
  split; [|exact Ho].
  rewrite <- Ho.
  apply (untouched_range_exposes_available
           Example.adjust Example.service units [] heat Hc).
  reflexivity.
Defined.

Lemma available_range_covers_context_witness :
  let units := [Example.atlas; Example.locust; Example.trooper] in
  let heat := mkConf "heat" RANGE None false (Some [(-1)%Z]) false false in
  let st := [("heat", mkEntry (VRange 10 20) true)] in
  (fst (options (advOptionsRange Example.adjust Example.service units st heat))
   <= 3
   <= snd (options (advOptionsRange Example.adjust Example.service
                                    units st heat)))%Z.
Proof.
  intros units heat st.
  apply (available_range_covers_context
           Example.adjust Example.service units st heat Example.locust 3).
  - reflexivity.
  - simpl. right. left. reflexivity.
  - reflexivity.
  - intros ign H. injection H as <-. intros [H | []]. discriminate H.
Defined.

Lemma total_range_covers_units_witness :
  let heat := mkConf "heat" RANGE None false (Some [(-1)%Z]) false false in
  exists lo hi,
    obj_get (calculateTotalRanges Example.adjust Example.service) "heat"
    = Some (lo, hi) /\ (lo <= 22 <= hi)%Z.
Proof.
  intros heat.
  apply (proj1 (total_range_covers_units
                  Example.adjust Example.service heat Example.atlas
                  ltac:(simpl; tauto) eq_refl (or_introl eq_refl))
               22%Z).
  - reflexivity.
  - reflexivity.
  - intros ign H. injection H as <-. intros [H | []]. discriminate H.
Defined.

(* ================================================================== *)
(** ** More on the tri-state matcher *)
(* ================================================================== *)

Lemma partitionSelection_fold (sel : MultiStateSelection) :
  partitionSelection sel = fold_left partitionStep sel (mkPartition [] [] []).
Proof. reflexivity. Qed.

Lemma selection_entry_eq (sv : SelectionValue) (s : MultiState) (c : Z) :
  sv = mkSel s c <-> state sv = s /\ count sv = c.
Proof.
  destruct sv as [s0 c0]. simpl. split.
  - intros H. inversion H. auto.
  - intros [-> ->]. reflexivity.
Qed.

Lemma partition_fold_or (sel : MultiStateSelection) (acc : Partition)
      (name : string) (c : Z) :
  In (mkNameCount name c) (orList (fold_left partitionStep sel acc)) <->
  In (mkNameCount name c) (orList acc) \/ In (name, mkSel st_or c) sel.
Proof.
  revert acc. induction sel as [|[nm [s c0]] sel IH]; intros acc; simpl.
  - tauto.
  - rewrite IH. unfold partitionStep. destruct s; simpl.
    + rewrite in_app_iff. simpl. split.
      * intros [[H | [H | []]] | H]; auto. inversion H. auto.
      * intros [H | [H | H]]; auto. inversion H. auto.
    + split; [intros [H | H]; auto | intros [H | [H | H]]; auto].
      discriminate H.
    + split; [intros [H | H]; auto | intros [H | [H | H]]; auto].
      discriminate H.
    + split; [intros [H | H]; auto | intros [H | [H | H]]; auto].
      discriminate H.
Qed.

Lemma partition_fold_and (sel : MultiStateSelection) (acc : Partition)
      (name : string) (c : Z) :
  In (mkNameCount name c) (andList (fold_left partitionStep sel acc)) <->
  In (mkNameCount name c) (andList acc) \/ In (name, mkSel st_and c) sel.
Proof.
  revert acc. induction sel as [|[nm [s c0]] sel IH]; intros acc; simpl.
  - tauto.
  - rewrite IH. unfold partitionStep. destruct s; simpl.
    + split; [intros [H | H]; auto | intros [H | [H | H]]; auto].
      discriminate H.
    + rewrite in_app_iff. simpl. split.
      * intros [[H | [H | []]] | H]; auto. inversion H. auto.
      * intros [H | [H | H]]; auto. inversion H. auto.
    + split; [intros [H | H]; auto | intros [H | [H | H]]; auto].
      discriminate H.
    + split; [intros [H | H]; auto | intros [H | [H | H]]; auto].
      discriminate H.
Qed.

Lemma partition_fold_not (sel : MultiStateSelection) (acc : Partition)
      (name : string) :
  In name (notSet (fold_left partitionStep sel acc)) <->
  In name (notSet acc) \/ exists c, In (name, mkSel st_not c) sel.
Proof.
  revert acc. induction sel as [|[nm [s c0]] sel IH]; intros acc; simpl.
  - split; [auto | intros [H | [c []]]; exact H].
  - rewrite IH. unfold partitionStep. destruct s; simpl;
      try (split;
           [ intros [H | [c H]]; eauto
           | intros [H | [c [H | H]]]; eauto; discriminate H ]).
    rewrite (In_set_add _ string_eqb_spec). split.
    + intros [[H | ->] | [c H]]; eauto.
    + intros [H | [c [H | H]]]; eauto. inversion H. auto.
Qed.

Lemma partitionSelection_or (sel : MultiStateSelection) (name : string)
      (c : Z) :
  In (mkNameCount name c) (orList (partitionSelection sel)) <->
  In (name, mkSel st_or c) sel.
Proof.
  rewrite partitionSelection_fold, partition_fold_or. simpl. tauto.
Qed.

Lemma partitionSelection_and (sel : MultiStateSelection) (name : string)
      (c : Z) :
  In (mkNameCount name c) (andList (partitionSelection sel)) <->
  In (name, mkSel st_and c) sel.
Proof.
  rewrite partitionSelection_fold, partition_fold_and. simpl. tauto.
Qed.

Lemma partitionSelection_notSet (sel : MultiStateSelection) (name : string) :
  In name (notSet (partitionSelection sel)) <->
  exists c, In (name, mkSel st_not c) sel.
Proof.
  rewrite partitionSelection_fold, partition_fold_not. simpl. tauto.
Qed.

(** The keys of [new Map(pairs)] are the first components of the pairs. *)
Lemma assoc_of_pairs_keys (ps : list (string * Z)) (k : string) :
  In k (map fst (assoc_of_pairs String.eqb ps)) <-> In k (map fst ps).
Proof.
  unfold assoc_of_pairs.
  assert (G : forall acc,
             In k (map fst (fold_left
                              (fun m p => assoc_set String.eqb m (fst p) (snd p))
                              ps acc))
             <-> In k (map fst acc) \/ In k (map fst ps)).
  { induction ps as [|[k0 v0] ps IH]; intros acc; simpl.
    - tauto.
    - rewrite IH. simpl.
      pose proof (obj_keys_set acc k0 k v0) as H.
      unfold obj_keys, obj_set in H. rewrite H. intuition. }
  rewrite G. simpl. tauto.
Qed.

(** The component index lists the names of the components. *)
Lemma componentNames_sound (u : Unit) (name : string) :
  In name (componentNames (getUnitComponentData u)) ->
  exists c, In c (comp u) /\ n c = name.
Proof.
  unfold getUnitComponentData.
  assert (G : forall l acc,
             In name (componentNames
                        (fold_left
                           (fun acc component =>
                              let name := n component in
                              mkComponentData
                                (set_add String.eqb (componentNames acc) name)
                                (assoc_set String.eqb (componentCounts acc) name
                                   (match assoc_get String.eqb
                                            (componentCounts acc) name with
                                    | Some c => c
                                    | None => 0
                                    end + q component)%Z))
                           l acc)) ->
             In name (componentNames acc) \/ exists c, In c l /\ n c = name).
  { induction l as [|c l IH]; intros acc H; simpl in *; [now left|].
    apply IH in H. simpl in H. destruct H as [H | [c' [H1 H2]]].
    - apply (In_set_add _ string_eqb_spec) in H. destruct H as [H | ->].
      + now left.
      + right. exists c. auto.
    - right. exists c'. auto. }
  intros H. apply G in H. destruct H as [[] | H]. exact H.
Qed.

Lemma names_possesses (needs : bool) (k name : string) (u : Unit) :
  set_has scalar_eqb
          (names (unitDataOf needs (String.eqb k "componentName") k u))
          (SStr name) = true <->
  possesses u k name.
Proof.
  split; [|apply unitData_possesses].
  unfold possesses, unitDataOf. intros H.
  apply (set_has_In _ scalar_eqb_spec) in H.
  destruct (String.eqb k "componentName"); simpl in H.
  - apply in_map_iff in H. destruct H as [x [Hx Hin]].
    inversion Hx; subst. now apply componentNames_sound.
  - rewrite (In_set_of_list _ scalar_eqb_spec) in H.
    apply filter_In in H. tauto.
Qed.

(** X9. Without quantities (every count at most 1), the tri-state matcher
    keeps exactly the records that possess no name with the state [not],
    possess every name with the state [and], and, when at least one name
    has the state [or], possess one of those. *)
Theorem tri_state_without_counts :
  forall (units : list Unit) (k : string) (selection : MultiStateSelection)
         (u : Unit),
    (forall name sv, In (name, sv) selection -> (count sv <= 1)%Z) ->
    (In u (filterUnitsByMultiState units k selection) <->
     In u units /\
     (forall name c, In (name, mkSel st_not c) selection ->
                     ~ possesses u k name) /\
     (forall name c, In (name, mkSel st_and c) selection ->
                     possesses u k name) /\
     ((exists name c, In (name, mkSel st_or c) selection) ->
      exists name c, In (name, mkSel st_or c) selection /\
                     possesses u k name)).
Proof.
  intros units k selection u Hc.
  pose proof (partitionSelection_or selection) as Ho.
  pose proof (partitionSelection_and selection) as Ha.
  pose proof (partitionSelection_notSet selection) as Hn.
  unfold filterUnitsByMultiState.
  set (p := partitionSelection selection) in *.
  assert (Hneeds : existsb (fun item => (1 <? nc_count item)%Z)
                           (orList p ++ andList p) = false).
  { destruct (existsb _ (orList p ++ andList p)) eqn:E; [|reflexivity].
    apply existsb_exists in E. destruct E as [[nm c] [Hin Hlt]].
    simpl in Hlt. apply Z.ltb_lt in Hlt.
    apply in_app_or in Hin. destruct Hin as [Hin | Hin];
      [apply Ho in Hin | apply Ha in Hin];
      apply Hc in Hin; simpl in Hin; lia. }
  assert (Hkeep :
            multiStateKeeps false
              (assoc_of_pairs String.eqb
                 (map (fun item => (nc_name item, nc_count item)) (orList p)))
              (assoc_of_pairs String.eqb
                 (map (fun item => (nc_name item, nc_count item)) (andList p)))
              (notSet p)
              (unitDataOf false (String.eqb k "componentName") k u) = true
            <->
            (forall name c, In (name, mkSel st_not c) selection ->
                            ~ possesses u k name) /\
            (forall name c, In (name, mkSel st_and c) selection ->
                            possesses u k name) /\
            ((exists name c, In (name, mkSel st_or c) selection) ->
             exists name c, In (name, mkSel st_or c) selection /\
                            possesses u k name)).
  { unfold multiStateKeeps.
    set (ud := unitDataOf false (String.eqb k "componentName") k u).
    assert (Hhas : forall name,
               set_has scalar_eqb (names ud) (SStr name) = true <->
               possesses u k name) by (intros; apply names_possesses).
    assert (Hkeys : forall (l : list NameCount) name,
               In name (map fst (assoc_of_pairs String.eqb
                                   (map (fun item => (nc_name item, nc_count item)) l)))
               <-> exists c, In (mkNameCount name c) l).
    { intros l name. rewrite assoc_of_pairs_keys, map_map. simpl.
      rewrite in_map_iff. split.
      - intros [[nm c] [<- Hin]]. now exists c.
      - intros [c Hin]. now exists (mkNameCount name c). }
    destruct (existsb _ (notSet p)) eqn:En.
    - split; [discriminate|]. intros [Hnot _]. exfalso.
      apply existsb_exists in En. destruct En as [nm [Hin Hh]].
      apply Hn in Hin. destruct Hin as [c Hin].
      apply (Hnot nm c Hin). now apply Hhas.
    - assert (Hnot : forall name c, In (name, mkSel st_not c) selection ->
                                    ~ possesses u k name).
      { intros name c Hin Hp.
        assert (E : existsb (fun notName => set_has scalar_eqb (names ud)
                                                    (SStr notName))
                            (notSet p) = true).
        { apply existsb_exists. exists name. split.
          - apply Hn. now exists c.
          - now apply Hhas. }
        rewrite E in En. discriminate. }
      set (andMap := assoc_of_pairs String.eqb
                       (map (fun item => (nc_name item, nc_count item))
                            (andList p))) in *.
      set (orMap := assoc_of_pairs String.eqb
                      (map (fun item => (nc_name item, nc_count item))
                           (orList p))) in *.
      assert (Hand : forallb (fun e => set_has scalar_eqb (names ud)
                                               (SStr (fst e))) andMap = true
                     <-> forall name c, In (name, mkSel st_and c) selection ->
                                        possesses u k name).
      { rewrite forallb_forall. split.
        - intros H name c Hin. apply Ha in Hin.
          assert (Hk : In name (map fst andMap))
            by (apply Hkeys; now exists c).
          apply in_map_iff in Hk. destruct Hk as [[nm c'] [<- Hk]].
          apply Hhas. apply (H _ Hk).
        - intros H [nm c'] Hin. simpl. apply Hhas.
          assert (Hk : In nm (map fst andMap))
            by (apply in_map_iff; now exists (nm, c')).
          apply Hkeys in Hk. destruct Hk as [c Hk]. apply Ha in Hk.
          now apply (H nm c). }
      assert (Hor : existsb (fun e => set_has scalar_eqb (names ud)
                                              (SStr (fst e))) orMap = true
                    <-> exists name c, In (name, mkSel st_or c) selection /\
                                       possesses u k name).
      { rewrite existsb_exists. split.
        - intros [[nm c'] [Hin Hh]]. simpl in Hh.
          assert (Hk : In nm (map fst orMap))
            by (apply in_map_iff; now exists (nm, c')).
          apply Hkeys in Hk. destruct Hk as [c Hk]. apply Ho in Hk.
          exists nm, c. split; [exact Hk | now apply Hhas].
        - intros [name [c [Hin Hp]]]. apply Ho in Hin.
          assert (Hk : In name (map fst orMap))
            by (apply Hkeys; now exists c).
          apply in_map_iff in Hk. destruct Hk as [[nm c'] [<- Hk]].
          exists (nm, c'). split; [exact Hk | now apply Hhas]. }
      assert (Hore : orMap = [] <->
                     ~ exists name c, In (name, mkSel st_or c) selection).
      { split.
        - intros E [name [c Hin]]. apply Ho in Hin.
          assert (Hk : In name (map fst orMap))
            by (apply Hkeys; now exists c).
          rewrite E in Hk. destruct Hk.
        - intros H. destruct orMap as [|[nm c'] r] eqn:E; [reflexivity|].
          exfalso. apply H.
          assert (Hk : In nm (map fst orMap))
            by (rewrite E; now left).
          apply Hkeys in Hk. destruct Hk as [c Hk]. apply Ho in Hk.
          now exists nm, c. }
      change (match counts ud with | _ => forallb
                (fun e => set_has scalar_eqb (names ud) (SStr (fst e))) andMap
              end)
        with (forallb (fun e => set_has scalar_eqb (names ud) (SStr (fst e)))
                      andMap).
      destruct (forallb _ andMap) eqn:Ea; simpl.
      + destruct orMap as [|e r] eqn:Eo.
        * split; [|reflexivity]. intros _. split; [exact Hnot|].
          split; [now apply Hand|]. intros Hex. exfalso.
          now apply (proj1 Hore eq_refl).
        * rewrite Hor. split.
          -- intros H. split; [exact Hnot|]. split; [now apply Hand|]. auto.
          -- intros [_ [_ H]]. apply H.
             assert (Hk : In (fst e) (map fst orMap))
               by (rewrite Eo; now left).
             apply Hkeys in Hk. destruct Hk as [c Hk]. apply Ho in Hk.
             now exists (fst e), c.
      + split; [discriminate|]. intros [_ [H _]].
        apply Hand in H. discriminate. }
  destruct (orList p) as [|o ol] eqn:Eo, (andList p) as [|a al] eqn:Ea,
           (notSet p) as [|x nl] eqn:Ex;
    try (rewrite filter_In, Hneeds, Hkeep; tauto).
  rewrite <- (and_iff_compat_l (In u units) Hkeep).
  split; [intros H; split; [exact H | reflexivity] | tauto].
Qed.

(** X10. A selection whose entries all have the state [off], the empty
    selection among them, filters nothing: the records are returned as
    they are. *)
Theorem all_off_selection_keeps_all :
  forall (units : list Unit) (k : string) (selection : MultiStateSelection),
    (forall name sv, In (name, sv) selection -> state sv = st_off) ->
    filterUnitsByMultiState units k selection = units.
Proof.
  intros units k selection Hoff. unfold filterUnitsByMultiState.
  destruct (orList (partitionSelection selection)) as [|[nm c] ol] eqn:Eo.
  - destruct (andList (partitionSelection selection)) as [|[nm c] al] eqn:Ea.
    + destruct (notSet (partitionSelection selection)) as [|x nl] eqn:En;
        [reflexivity|].
      assert (H : In x (notSet (partitionSelection selection)))
        by (rewrite En; now left).
      apply partitionSelection_notSet in H. destruct H as [c H].
      apply Hoff in H. discriminate H.
    + assert (H : In (mkNameCount nm c) (andList (partitionSelection selection)))
        by (rewrite Ea; now left).
      apply partitionSelection_and in H. apply Hoff in H. discriminate H.
  - assert (H : In (mkNameCount nm c) (orList (partitionSelection selection)))
      by (rewrite Eo; now left).
    apply partitionSelection_or in H. apply Hoff in H. discriminate H.
Qed.

Lemma all_off_selection_keeps_all_witness :
  filterUnitsByMultiState [Example.atlas; Example.locust] "quirks"
                          [("Stable", mkSel st_off 1)]
  = [Example.atlas; Example.locust].
Proof.
  apply (all_off_selection_keeps_all [Example.atlas; Example.locust] "quirks").
  intros name sv [H | []]. now inversion H.
Defined.

(* ------------------------------------------------------------------ *)
(** *** The component index *)

Lemma componentCounts_fold (name : string) (l : list Component)
      (acc : ComponentData) :
  assoc_get String.eqb
    (componentCounts
       (fold_left
          (fun acc component =>
             let name := n component in
             mkComponentData
               (set_add String.eqb (componentNames acc) name)
               (assoc_set String.eqb (componentCounts acc) name
                  (match assoc_get String.eqb (componentCounts acc) name with
                   | Some c => c
                   | None => 0
                   end + q component)%Z))
          l acc)) name
  = match filter (fun c => String.eqb (n c) name) l with
    | [] => assoc_get String.eqb (componentCounts acc) name
    | m =>
        Some (match assoc_get String.eqb (componentCounts acc) name with
              | Some c => c
              | None => 0
              end + fold_right Z.add 0 (map q m))%Z
    end.
Proof.
  revert acc. induction l as [|c l IH]; intros acc; [reflexivity|].
  cbn [fold_left filter]. rewrite IH. cbn [componentCounts].
  change (assoc_get String.eqb (assoc_set String.eqb ?o ?k ?v) name)
    with (obj_get (obj_set o k v) name).
  rewrite obj_get_set.
  destruct (String.eqb (n c) name) eqn:E.
  - apply String.eqb_eq in E. rewrite E.
    change (obj_get (componentCounts acc) name)
      with (assoc_get String.eqb (componentCounts acc) name).
    destruct (filter (fun c0 => String.eqb (n c0) name) l) as [|m ms];
      cbn [map fold_right]; f_equal; lia.
  - reflexivity.
Qed.

(** X11. The component index of a unit: the names are the names of the
    unit's components, each once, and the count stored for a name is the
    sum of the quantities of the components that bear it. *)
Theorem component_index_sums_quantities :
  forall (u : Unit) (name : string),
    (In name (componentNames (getUnitComponentData u)) <->
     exists c, In c (comp u) /\ n c = name) /\
    (forall c, In c (comp u) -> n c = name ->
               assoc_get String.eqb
                         (componentCounts (getUnitComponentData u)) name
               = Some (totalQuantity u name)) /\
    ((forall c, In c (comp u) -> n c <> name) ->
     assoc_get String.eqb (componentCounts (getUnitComponentData u)) name
     = None).
Proof.
  intros u name. split; [|split].
  - split; [apply componentNames_sound|].
    intros [c [Hc <-]]. now apply componentNames_complete.
  - intros c Hc Hn. unfold getUnitComponentData, totalQuantity.
    rewrite componentCounts_fold. cbn [componentCounts assoc_get].
    destruct (filter (fun c0 => String.eqb (n c0) name) (comp u)) eqn:E.
    + exfalso. assert (Hin : In c (filter (fun c0 => String.eqb (n c0) name)
                                          (comp u))).
      { apply filter_In. split; [exact Hc|]. now apply String.eqb_eq. }
      rewrite E in Hin. destruct Hin.
    + reflexivity.
  - intros Hnone. unfold getUnitComponentData.
    rewrite componentCounts_fold. cbn [componentCounts assoc_get].
    destruct (filter (fun c0 => String.eqb (n c0) name) (comp u)) as [|c l]
      eqn:E; [reflexivity|].
    exfalso. assert (Hin : In c (filter (fun c0 => String.eqb (n c0) name)
                                        (comp u))) by (rewrite E; now left).
    apply filter_In in Hin. destruct Hin as [Hin Hq].
    apply String.eqb_eq in Hq. now apply (Hnone c).
Qed.

Lemma component_index_sums_quantities_witness :
  assoc_get String.eqb
            (componentCounts
               (getUnitComponentData
                  (mkUnit 1 100 [mkComponent "Medium Laser" 2;
                                 mkComponent "AC/20" 1;
                                 mkComponent "Medium Laser" 3]
                          None None (fun _ => PScalar SNull))))
            "Medium Laser"
  = Some 5%Z.
Proof.
  apply (proj1 (proj2 (component_index_sums_quantities
                         (mkUnit 1 100 [mkComponent "Medium Laser" 2;
                                        mkComponent "AC/20" 1;
                                        mkComponent "Medium Laser" 3]
                                 None None (fun _ => PScalar SNull))
                         "Medium Laser"))
               (mkComponent "Medium Laser" 2)).
  - simpl. tauto.
  - reflexivity.
Defined.

(* ------------------------------------------------------------------ *)
(** *** The matcher with quantities *)

Lemma partition_fold_lists (sel : MultiStateSelection) (acc : Partition) :
  orList (fold_left partitionStep sel acc)
  = orList acc ++
    map (fun e => mkNameCount (fst e) (count (snd e)))
        (filter (fun e => MultiState_eqb (state (snd e)) st_or) sel)
  /\
  andList (fold_left partitionStep sel acc)
  = andList acc ++
    map (fun e => mkNameCount (fst e) (count (snd e)))
        (filter (fun e => MultiState_eqb (state (snd e)) st_and) sel).
Proof.
  revert acc. induction sel as [|[nm [s c]] sel IH]; intros acc.
  - simpl. now rewrite !app_nil_r.
  - cbn [fold_left].
    destruct (IH (partitionStep acc (nm, mkSel s c))) as [Ho Ha].
    rewrite Ho, Ha. unfold partitionStep.
    destruct s; simpl; rewrite <- ?app_assoc; split; reflexivity.
Qed.

Lemma NoDup_keys_filter {V} (p : string * V -> bool) (o : obj V) :
  wellKeyed o -> NoDup (map fst (filter p o)).
Proof.
  unfold wellKeyed, obj_keys.
  induction o as [|[k v] o IH]; intros H; simpl; [constructor|].
  inversion H as [|? ? Hn Hr]; subst.
  destruct (p (k, v)); simpl; [|now apply IH].
  constructor; [|now apply IH].
  intros Hin. apply Hn. apply in_map_iff in Hin.
  destruct Hin as [[k1 v1] [<- Hin]]. apply filter_In in Hin.
  apply in_map_iff. exists (k1, v1). tauto.
Qed.

Lemma assoc_set_fresh {V} (m : list (string * V)) (k : string) (v : V) :
  ~ In k (map fst m) -> assoc_set String.eqb m k v = m ++ [(k, v)].
Proof.
  induction m as [|[k0 v0] m IH]; intros H; simpl; [reflexivity|].
  destruct (String.eqb k0 k) eqn:E.
  - apply String.eqb_eq in E. subst. exfalso. apply H. now left.
  - rewrite IH; [reflexivity|]. intros Hin. apply H. now right.
Qed.

(** [new Map(pairs)] of pairs with different keys lists the pairs. *)
Lemma assoc_of_pairs_NoDup {V} (ps : list (string * V)) :
  NoDup (map fst ps) -> assoc_of_pairs String.eqb ps = ps.
Proof.
  unfold assoc_of_pairs.
  assert (G : forall acc,
             NoDup (map fst (acc ++ ps)) ->
             fold_left (fun m p => assoc_set String.eqb m (fst p) (snd p)) ps acc
             = acc ++ ps).
  { induction ps as [|[k v] ps IH]; intros acc H; simpl.
    - now rewrite app_nil_r.
    - rewrite assoc_set_fresh.
      + rewrite IH; rewrite <- app_assoc; [reflexivity | exact H].
      + rewrite map_app in H. simpl in H. apply NoDup_remove_2 in H.
        intros Hin. apply H. apply in_or_app. now left. }
  intros H. now apply (G []).
Qed.

Lemma countOf_wrapped (cc : list (string * Z)) (name : string) :
  countOf (map (fun p => (SStr (fst p), snd p)) cc) (SStr name)
  = match assoc_get String.eqb cc name with
    | Some c => c
    | None => 0%Z
    end.
Proof.
  unfold countOf. induction cc as [|[k v] cc IH]; simpl; [reflexivity|].
  destruct (String.eqb k name); [reflexivity | exact IH].
Qed.

Lemma componentCount_total (u : Unit) (name : string) :
  match assoc_get String.eqb (componentCounts (getUnitComponentData u)) name with
  | Some c => c
  | None => 0%Z
  end = totalQuantity u name.
Proof.
  unfold getUnitComponentData, totalQuantity.
  rewrite componentCounts_fold. cbn [componentCounts assoc_get].
  destruct (filter (fun c => String.eqb (n c) name) (comp u)); reflexivity.
Qed.

(** X12. With a quantity asked for (an [or] or [and] entry with a count
    above 1), the matcher on the components keeps exactly the records that
    possess no name with the state [not], whose total quantity of every
    [and] name reaches the count of the entry and, when at least one name
    has the state [or], whose total quantity of one of those reaches its
    count. *)
Theorem tri_state_component_quantities :
  forall (units : list Unit) (selection : MultiStateSelection) (u : Unit),
    wellKeyed selection ->
    (exists name sv,
        In (name, sv) selection /\
        (state sv = st_or \/ state sv = st_and) /\ (1 < count sv)%Z) ->
    (In u (filterUnitsByMultiState units "componentName" selection) <->
     In u units /\
     (forall name c, In (name, mkSel st_not c) selection ->
                     ~ possesses u "componentName" name) /\
     (forall name c, In (name, mkSel st_and c) selection ->
                     (c <= totalQuantity u name)%Z) /\
     ((exists name c, In (name, mkSel st_or c) selection) ->
      exists name c, In (name, mkSel st_or c) selection /\
                     (c <= totalQuantity u name)%Z)).
Proof.
  intros units selection u Hwk [qn [[qs qc] [Hq [Hqs Hqc]]]].
  simpl in Hqs, Hqc.
  pose proof (partitionSelection_or selection) as Ho.
  pose proof (partitionSelection_and selection) as Ha.
  pose proof (partitionSelection_notSet selection) as Hn.
  destruct (partition_fold_lists selection (mkPartition [] [] []))
    as [Lo La].
  rewrite <- partitionSelection_fold in Lo, La. simpl in Lo, La.
  unfold filterUnitsByMultiState.
  set (p := partitionSelection selection) in *.
  assert (Hneeds : existsb (fun item => (1 <? nc_count item)%Z)
                           (orList p ++ andList p) = true).
  { apply existsb_exists. exists (mkNameCount qn qc). split.
    - apply in_or_app. destruct Hqs as [-> | ->];
        [left; now apply Ho | right; now apply Ha].
    - simpl. now apply Z.ltb_lt. }
  assert (Hmap : forall l : list NameCount,
             NoDup (map nc_name l) ->
             assoc_of_pairs String.eqb
               (map (fun item => (nc_name item, nc_count item)) l)
             = map (fun item => (nc_name item, nc_count item)) l).
  { intros l H. apply assoc_of_pairs_NoDup. now rewrite map_map. }
  assert (Hndo : NoDup (map nc_name (orList p))).
  { rewrite Lo, map_map. simpl.
    apply (NoDup_keys_filter
             (fun e => MultiState_eqb (state (snd e)) st_or) selection Hwk). }
  assert (Hnda : NoDup (map nc_name (andList p))).
  { rewrite La, map_map. simpl.
    apply (NoDup_keys_filter
             (fun e => MultiState_eqb (state (snd e)) st_and) selection Hwk). }
  rewrite (Hmap _ Hndo), (Hmap _ Hnda), Hneeds.
  assert (Hnonempty : orList p <> [] \/ andList p <> []).
  { destruct Hqs as [E | E]; [left | right]; intros Hnil.
    - assert (H : In (mkNameCount qn qc) (orList p))
        by (apply Ho; now rewrite <- E).
      rewrite Hnil in H. destruct H.
    - assert (H : In (mkNameCount qn qc) (andList p))
        by (apply Ha; now rewrite <- E).
      rewrite Hnil in H. destruct H. }
  assert (Hkeep :
            multiStateKeeps true
              (map (fun item => (nc_name item, nc_count item)) (orList p))
              (map (fun item => (nc_name item, nc_count item)) (andList p))
              (notSet p)
              (unitDataOf true (String.eqb "componentName" "componentName")
                          "componentName" u) = true
            <->
            (forall name c, In (name, mkSel st_not c) selection ->
                            ~ possesses u "componentName" name) /\
            (forall name c, In (name, mkSel st_and c) selection ->
                            (c <= totalQuantity u name)%Z) /\
            ((exists name c, In (name, mkSel st_or c) selection) ->
             exists name c, In (name, mkSel st_or c) selection /\
                            (c <= totalQuantity u name)%Z)).
  { unfold multiStateKeeps.
    assert (Hhas : forall name,
               set_has scalar_eqb
                 (names (unitDataOf true (String.eqb "componentName" "componentName")
                                    "componentName" u))
                 (SStr name) = true <->
               possesses u "componentName" name)
      by (intros; apply (names_possesses true "componentName")).
    set (ud := unitDataOf true (String.eqb "componentName" "componentName")
                          "componentName" u) in *.
    assert (Hcs : counts ud
                  = Some (map (fun p => (SStr (fst p), snd p))
                              (componentCounts (getUnitComponentData u))))
      by reflexivity.
    rewrite Hcs.
    set (cs := map (fun p => (SStr (fst p), snd p))
                   (componentCounts (getUnitComponentData u))).
    assert (Hcount : forall name, countOf cs (SStr name) = totalQuantity u name).
    { intros name. unfold cs. rewrite countOf_wrapped.
      apply componentCount_total. }
    destruct (existsb _ (notSet p)) eqn:En.
    - split; [discriminate|]. intros [Hnot _]. exfalso.
      apply existsb_exists in En. destruct En as [nm [Hin Hh]].
      apply Hn in Hin. destruct Hin as [c Hin].
      apply (Hnot nm c Hin). now apply Hhas.
    - assert (Hnot : forall name c, In (name, mkSel st_not c) selection ->
                                    ~ possesses u "componentName" name).
      { intros name c Hin Hp.
        assert (E : existsb (fun notName => set_has scalar_eqb (names ud)
                                                    (SStr notName))
                            (notSet p) = true).
        { apply existsb_exists. exists name. split.
          - apply Hn. now exists c.
          - now apply Hhas. }
        rewrite E in En. discriminate. }
      assert (Hand : forallb (fun e => negb (countOf cs (SStr (fst e)) <? snd e)%Z)
                             (map (fun item => (nc_name item, nc_count item))
                                  (andList p)) = true
                     <-> forall name c, In (name, mkSel st_and c) selection ->
                                        (c <= totalQuantity u name)%Z).
      { rewrite forallb_forall. split.
        - intros H name c Hin. apply Ha in Hin.
          specialize (H (name, c)). simpl in H. rewrite Hcount in H.
          assert (Hm : In (name, c)
                          (map (fun item => (nc_name item, nc_count item))
                               (andList p))).
          { apply in_map_iff. now exists (mkNameCount name c). }
          apply H in Hm. apply negb_true_iff, Z.ltb_ge in Hm. exact Hm.
        - intros H [nm c] Hin. simpl. rewrite Hcount.
          apply in_map_iff in Hin. destruct Hin as [[nm' c'] [E Hin]].
          simpl in E. inversion E; subst. apply Ha in Hin.
          apply negb_true_iff, Z.ltb_ge. now apply (H nm c). }
      assert (Hor : existsb (fun e => (snd e <=? countOf cs (SStr (fst e)))%Z)
                            (map (fun item => (nc_name item, nc_count item))
                                 (orList p)) = true
                    <-> exists name c, In (name, mkSel st_or c) selection /\
                                       (c <= totalQuantity u name)%Z).
      { rewrite existsb_exists. split.
        - intros [[nm c] [Hin Hle]]. simpl in Hle. rewrite Hcount in Hle.
          apply in_map_iff in Hin. destruct Hin as [[nm' c'] [E Hin]].
          simpl in E. inversion E; subst. apply Ho in Hin.
          exists nm, c. split; [exact Hin | now apply Z.leb_le].
        - intros [name [c [Hin Hle]]]. apply Ho in Hin.
          exists (name, c). split.
          + apply in_map_iff. now exists (mkNameCount name c).
          + simpl. rewrite Hcount. now apply Z.leb_le. }
      destruct (forallb _ (map _ (andList p))) eqn:Ea; simpl.
      + destruct (orList p) as [|[onm oc] ol] eqn:Eo.
        * simpl. split; [|reflexivity]. intros _. split; [exact Hnot|].
          split; [now apply Hand|]. intros [name [c Hin]]. exfalso.
          apply Ho in Hin. destruct Hin.
        * cbn [map]. cbn [map] in Hor. rewrite Hor. split.
          -- intros H. split; [exact Hnot|]. split; [now apply Hand|]. auto.
          -- intros [_ [_ H]]. apply H. exists onm, oc. apply Ho.
             now left.
      + split; [discriminate|]. intros [_ [H _]].
        apply Hand in H. discriminate. }
  destruct (orList p) as [|o ol] eqn:Eo, (andList p) as [|a al] eqn:Ea,
           (notSet p) as [|x nl] eqn:Ex;
    try (rewrite filter_In, Hkeep; tauto).
  destruct Hnonempty as [H | H]; congruence.
Qed.

(* ================================================================== *)
(** ** More on the token matcher *)
(* ================================================================== *)

Lemma greedy_spans (text : string) (taken : list (nat * nat))
      (tokens : list string) :
  GreedyAssignment text taken tokens ->
  exists spans,
    Forall2 (fun token span =>
               OccursAt text token (fst span) /\
               snd span = (fst span + String.length token)%nat)
            (filter (fun t => negb (String.eqb t "")) tokens) spans /\
    ForallOrdPairs spansDisjoint spans /\
    (forall s t, In s spans -> In t taken -> spansDisjoint t s).
Proof.
  induction 1 as [taken | taken rest _ IH | taken token rest idx Hne HL _ IH].
  - exists []. simpl. repeat split; [constructor | constructor |].
    intros s t [].
  - simpl. exact IH.
  - destruct IH as [spans [HF [HP HD]]].
    exists ((idx, idx + String.length token)%nat :: spans).
    simpl. rewrite (proj2 (String.eqb_neq token "") Hne). simpl.
    destruct HL as [[Hocc Hfree] _].
    repeat split.
    + constructor; [split; [exact Hocc | reflexivity] | exact HF].
    + constructor; [|exact HP].
      apply Forall_forall. intros s Hs.
      apply (HD s (idx, idx + String.length token)%nat Hs).
      apply in_or_app. right. now left.
    + intros s [ts te] [<- | Hs] Ht.
      * unfold spansDisjoint. simpl.
        destruct (Hfree ts te Ht) as [H | H]; [now right | now left].
      * apply (HD s (ts, te) Hs). apply in_or_app. now left.
Qed.

(** X13. When [tokensMatchNonOverlapping] reports a match, every non-empty
    term has a span of the text in which it occurs, and no two of these
    spans overlap. *)
Theorem tokens_match_gives_disjoint_occurrences :
  forall (text : string) (tokens : list string),
    tokensMatchNonOverlapping text tokens = true ->
    exists spans,
      Forall2 (fun token span =>
                 OccursAt text token (fst span) /\
                 snd span = (fst span + String.length token)%nat)
              (filter (fun t => negb (String.eqb t "")) tokens) spans /\
      ForallOrdPairs spansDisjoint spans.
Proof.
  intros text tokens H. apply tokensLoop_iff in H.
  destruct (greedy_spans text [] tokens H) as [spans [HF [HP _]]].
  exists spans. split; assumption.
Qed.

Lemma tokens_match_gives_disjoint_occurrences_witness :
  tokensMatchNonOverlapping "atlas as7-d" ["atlas"; "as7"] = true /\
  exists spans,
    Forall2 (fun token span =>
               OccursAt "atlas as7-d" token (fst span) /\
               snd span = (fst span + String.length token)%nat)
            ["atlas"; "as7"] spans /\
    ForallOrdPairs spansDisjoint spans.
Proof.
  split; [reflexivity|].
  apply (tokens_match_gives_disjoint_occurrences
           "atlas as7-d" ["atlas"; "as7"]).
  reflexivity.
Defined.

(* ================================================================== *)
(** ** Percent-encoding and numerals *)
(* ================================================================== *)

Lemma nat_of_ascii_bound (c : ascii) : (nat_of_ascii c < 256)%nat.
Proof.
  destruct c as [[] [] [] [] [] [] [] []]; vm_compute; repeat constructor.
Qed.

Lemma hexValue_hexDigit (d : nat) :
  (d < 16)%nat -> hexValue (hexDigit d) = Some d.
Proof.
  intros H.
  do 16 (destruct d as [|d]; [reflexivity|]). lia.
Qed.

Lemma unreserved_low (c : ascii) :
  unreserved c = true -> (nat_of_ascii c < 128)%nat.
Proof.
  destruct c as [[] [] [] [] [] [] [] []]; intros H;
    try discriminate H; apply Nat.ltb_lt; reflexivity.
Qed.

Lemma unreserved_not_percent (c : ascii) :
  unreserved c = true -> Ascii.eqb c "%" = false.
Proof.
  intros H. destruct (Ascii.eqb c "%") eqn:E; [|reflexivity].
  apply Ascii.eqb_eq in E. subst c. discriminate H.
Qed.

(** Unescaping what [encodeURIComponent] wrote gives the bytes back, the
    escaped ones marked. *)
Lemma unescape_encode (s : string) :
  unescape (encodeURIComponent s)
  = Some (map (fun c => (negb (unreserved c), nat_of_ascii c))
              (list_ascii_of_string s)).
Proof.
  induction s as [|c s IH]; [reflexivity|].
  cbn [encodeURIComponent list_ascii_of_string map].
  destruct (unreserved c) eqn:U.
  - cbn [unescape]. rewrite (unreserved_not_percent c U), IH. reflexivity.
  - cbn [unescape]. rewrite Ascii.eqb_refl.
    pose proof (nat_of_ascii_bound c) as Hb.
    rewrite !hexValue_hexDigit.
    + rewrite IH. cbn [map]. do 3 f_equal.
      symmetry. apply (Nat.div_mod_eq (nat_of_ascii c) 16).
    + apply Nat.mod_upper_bound. discriminate.
    + apply Nat.Div0.div_lt_upper_bound. exact Hb.
Qed.

(** For the judgement of well-formedness it does not matter that the
    unreserved characters are not escaped. *)
Lemma wellFormed_encode (s : string) (pending lo hi : nat) :
  pending = 0%nat \/ (128 <= lo)%nat ->
  wellFormed pending lo hi
             (map (fun c => (negb (unreserved c), nat_of_ascii c))
                  (list_ascii_of_string s))
  = wellFormed pending lo hi
               (map (fun c => (true, nat_of_ascii c)) (list_ascii_of_string s)).
Proof.
  revert pending lo hi. induction s as [|c s IH]; intros pending lo hi H;
    [reflexivity|].
  cbn [list_ascii_of_string map wellFormed].
  destruct (pending =? 0)%nat eqn:Ep.
  - destruct (unreserved c) eqn:U.
    + apply unreserved_low in U.
      assert (E : (nat_of_ascii c <? 128)%nat = true) by now apply Nat.ltb_lt.
      rewrite E. simpl. apply IH. now left.
    + simpl.
      repeat match goal with
             | |- (if ?b then _ else _) = (if ?b then _ else _) =>
                 destruct b; [apply IH; (now left) || (right; lia)|]
             end.
      reflexivity.
  - destruct H as [-> | H]; [discriminate|].
    destruct (unreserved c) eqn:U.
    + apply unreserved_low in U. simpl.
      assert (E : (lo <=? nat_of_ascii c)%nat = false)
        by (apply Nat.leb_gt; lia).
      now rewrite E.
    + simpl. rewrite IH; [reflexivity|]. right. lia.
Qed.

Lemma string_of_bytes (s : string) :
  string_of_list_ascii
    (map (fun p : bool * nat => ascii_of_nat (snd p))
         (map (fun c => (negb (unreserved c), nat_of_ascii c))
              (list_ascii_of_string s)))
  = s.
Proof.
  rewrite map_map. simpl.
  rewrite (map_ext _ (fun c => c)) by (intros c; apply ascii_nat_embedding).
  rewrite map_id. apply string_of_list_ascii_of_string.
Qed.

(** Decoding inverts encoding on well-formed text. *)
Lemma decode_encode (s : string) :
  utf8 s = true -> decodeURIComponent (encodeURIComponent s) = Some s.
Proof.
  intros H. unfold decodeURIComponent. rewrite unescape_encode.
  rewrite wellFormed_encode by (now left).
  unfold utf8 in H. rewrite H. now rewrite string_of_bytes.
Qed.

(** [encodeURIComponent] writes unreserved characters and [%] only. *)
Lemma encode_alphabet (s : string) (c : ascii) :
  In c (list_ascii_of_string (encodeURIComponent s)) ->
  unreserved c = true \/ c = "%"%char.
Proof.
  induction s as [|a s IH]; [intros []|].
  cbn [encodeURIComponent]. destruct (unreserved a) eqn:U.
  - cbn [list_ascii_of_string]. intros [<- | H]; [now left | now apply IH].
  - cbn [list_ascii_of_string]. intros [<- | [<- | [<- | H]]].
    + now right.
    + left. pose proof (nat_of_ascii_bound a) as Hb.
      assert (Hd : (nat_of_ascii a / 16 < 16)%nat)
        by (apply Nat.Div0.div_lt_upper_bound; exact Hb).
      revert Hd. generalize (nat_of_ascii a / 16)%nat. intros d Hd.
      do 16 (destruct d as [|d]; [reflexivity|]). lia.
    + left.
      assert (Hd : (nat_of_ascii a mod 16 < 16)%nat)
        by (apply Nat.mod_upper_bound; discriminate).
      revert Hd. generalize (nat_of_ascii a mod 16)%nat. intros d Hd.
      do 16 (destruct d as [|d]; [reflexivity|]). lia.
    + now apply IH.
Qed.

(* ------------------------------------------------------------------ *)
(** *** Numerals *)

Lemma digits_fold_acc (d : Decimal.uint) (acc : positive) :
  fold_left (fun acc c => (10 * acc + Z.of_nat (nat_of_ascii c - 48))%Z)
            (list_ascii_of_string (NilEmpty.string_of_uint d)) (Z.pos acc)
  = Z.pos (Pos.of_uint_acc d acc).
Proof.
  revert acc. induction d; intros acc; cbn [NilEmpty.string_of_uint
    list_ascii_of_string fold_left Pos.of_uint_acc]; try reflexivity;
    rewrite <- IHd; f_equal;
    match goal with
    | |- context [Z.of_nat ?k] =>
        let v := eval vm_compute in (Z.of_nat k) in
        change (Z.of_nat k) with v
    end; lia.
Qed.

Lemma digits_fold (d : Decimal.uint) :
  digitsValue (NilEmpty.string_of_uint d) = Z.of_N (Pos.of_uint d).
Proof.
  unfold digitsValue.
  induction d; cbn [NilEmpty.string_of_uint list_ascii_of_string fold_left
                    Pos.of_uint]; try reflexivity;
    try exact IHd;
    cbn [Z.of_N]; rewrite <- digits_fold_acc; reflexivity.
Qed.

Lemma digits_all (d : Decimal.uint) :
  forallb isDigit (list_ascii_of_string (NilEmpty.string_of_uint d)) = true.
Proof. induction d; simpl; auto. Qed.

Lemma span_all (p : ascii -> bool) (s : string) :
  forallb p (list_ascii_of_string s) = true -> span p s = (s, EmptyString).
Proof.
  induction s as [|c s IH]; simpl; [reflexivity|].
  intros H. apply andb_true_iff in H. destruct H as [H1 H2].
  now rewrite H1, (IH H2).
Qed.

Lemma digits_value_pos (p : positive) :
  digitsValue (NilEmpty.string_of_uint (Pos.to_uint p)) = Z.pos p.
Proof. now rewrite digits_fold, DecimalPos.Unsigned.of_to. Qed.

Lemma digits_nonempty (p : positive) :
  NilEmpty.string_of_uint (Pos.to_uint p) <> EmptyString.
Proof.
  pose proof (DecimalPos.Unsigned.to_uint_nonnil p) as H.
  destruct (Pos.to_uint p); try congruence; discriminate.
Qed.

(** A digit is no white space, no sign and no [x]. *)
Lemma isDigit_plain (c : ascii) :
  isDigit c = true ->
  isSpace c = false /\ Ascii.eqb c "-" = false /\ Ascii.eqb c "+" = false /\
  Ascii.eqb c "x" = false /\ Ascii.eqb c "X" = false.
Proof.
  destruct c as [[] [] [] [] [] [] [] []]; intros H; try discriminate H;
    repeat split.
Qed.

(** A character of one byte that is no white space stops [trimStart]. *)
Lemma trimStart_ascii (a : ascii) (r : string) :
  (nat_of_ascii a < 128)%nat -> isSpace a = false ->
  trimStart (String a r) = String a r.
Proof.
  intros Hlow Hsp. cbn [trimStart]. rewrite Hsp.
  assert (H2 : forall b, isSpace2 a b = false).
  { intros b. unfold isSpace2.
    destruct (Nat.eqb_spec (nat_of_ascii a) 194) as [E|E]; [lia | reflexivity]. }
  assert (H3 : forall b c, isSpace3 a b c = false).
  { intros b c. unfold isSpace3. cbv zeta.
    destruct (Nat.eqb_spec (nat_of_ascii a) 225) as [E|E]; [lia|].
    destruct (Nat.eqb_spec (nat_of_ascii a) 226) as [E1|E1]; [lia|].
    destruct (Nat.eqb_spec (nat_of_ascii a) 227) as [E2|E2]; [lia|].
    destruct (Nat.eqb_spec (nat_of_ascii a) 239) as [E3|E3]; [lia|].
    reflexivity. }
  destruct r as [|b r2]; [reflexivity|]. rewrite H2.
  destruct r2 as [|c r3]; [reflexivity|]. now rewrite H3.
Qed.

Lemma isDigit_low (c : ascii) :
  isDigit c = true -> (nat_of_ascii c < 128)%nat.
Proof.
  destruct c as [[] [] [] [] [] [] [] []]; intros H; try discriminate H;
    vm_compute; repeat constructor.
Qed.

Lemma parse_digits (s : string) :
  s <> EmptyString ->
  forallb isDigit (list_ascii_of_string s) = true ->
  Num.parseFloat s = Some (digitsValue s) /\
  Num.parseInt s = Some (digitsValue s) /\
  Num.parseFloat (String "-" s) = Some (- digitsValue s)%Z /\
  Num.parseInt (String "-" s) = Some (- digitsValue s)%Z.
Proof.
  intros Hne Hd. destruct s as [|c s]; [congruence|].
  pose proof (span_all isDigit (String c s) Hd) as Hspan.
  simpl in Hd. apply andb_true_iff in Hd. destruct Hd as [Hc Hs].
  destruct (isDigit_plain c Hc) as [Hsp [Hm [Hp [Hx HX]]]].
  assert (Hx2 : forall r,
             match r with
             | String z (String x r') =>
                 Ascii.eqb z "0" && (Ascii.eqb x "x" || Ascii.eqb x "X")
             | _ => false
             end = false ->
             True) by auto.
  assert (T1 : trimStart (String c s) = String c s)
    by (apply trimStart_ascii; [now apply isDigit_low | exact Hsp]).
  assert (T2 : trimStart (String "-" (String c s)) = String "-" (String c s))
    by (apply trimStart_ascii; [vm_compute; repeat constructor | reflexivity]).
  assert (Hint : Num.parseInt (String c s) = Some (digitsValue (String c s))
                 /\ Num.parseInt (String "-" (String c s))
                    = Some (- digitsValue (String c s))%Z).
  { unfold Num.parseInt. rewrite T1, T2.
    unfold Num.sign. rewrite Hm, Hp.
    change (Ascii.eqb "-" "-") with true. cbv iota.
    destruct s as [|x s'].
    - rewrite Hspan. split; f_equal; lia.
    - simpl in Hs. apply andb_true_iff in Hs. destruct Hs as [Hxd _].
      destruct (isDigit_plain x Hxd) as [_ [_ [_ [Hxx HxX]]]].
      rewrite Hxx, HxX, andb_false_r. rewrite Hspan. split; f_equal; lia. }
  destruct Hint as [Hi1 Hi2].
  repeat split; try assumption.
  - unfold Num.parseFloat. rewrite T1.
    unfold Num.sign. rewrite Hm, Hp, Hspan. f_equal; lia.
  - unfold Num.parseFloat. rewrite T2.
    unfold Num.sign. change (Ascii.eqb "-" "-") with true. cbv iota.
    rewrite Hspan. f_equal; lia.
Qed.

(** Reading a numeral the service has written gives the number back. *)
Lemma parse_toString (z : Z) :
  Num.parseFloat (Num.toString z) = Some z /\
  Num.parseInt (Num.toString z) = Some z.
Proof.
  unfold Num.toString. destruct z as [|p|p]; [split; reflexivity| |].
  - cbn [Z.to_int NilEmpty.string_of_int].
    destruct (parse_digits _ (digits_nonempty p) (digits_all _))
      as [H1 [H2 _]].
    rewrite digits_value_pos in H1, H2. now split.
  - cbn [Z.to_int NilEmpty.string_of_int].
    destruct (parse_digits _ (digits_nonempty p) (digits_all _))
      as [_ [_ [H1 H2]]].
    rewrite digits_value_pos in H1, H2. now split.
Qed.

(** The numeral of a number that is not negative consists of digits. *)
Lemma toString_digits (z : Z) :
  (0 <= z)%Z ->
  forallb isDigit (list_ascii_of_string (Num.toString z)) = true.
Proof.
  intros H. unfold Num.toString. destruct z as [|p|p]; [reflexivity| |lia].
  apply digits_all.
Qed.

(* ================================================================== *)
(** ** The compact codec on the states it carries through *)
(* ================================================================== *)

Lemma chars_append (a b : string) :
  list_ascii_of_string (a ++ b)
  = list_ascii_of_string a ++ list_ascii_of_string b.
Proof. induction a as [|c a IH]; simpl; [reflexivity | now rewrite IH]. Qed.

Lemma indexOfChar_None_iff (s : string) (c : ascii) :
  indexOfChar s c = None <-> ~ In c (list_ascii_of_string s).
Proof.
  induction s as [|a s IH]; simpl.
  - split; [intros _ [] | reflexivity].
  - destruct (Ascii.eqb a c) eqn:E.
    + apply Ascii.eqb_eq in E. subst. split; [discriminate|].
      intros H. exfalso. apply H. now left.
    + apply Ascii.eqb_neq in E.
      destruct (indexOfChar s c); simpl.
      * split; [discriminate|]. intros H. exfalso.
        assert (G : ~ In c (list_ascii_of_string s)) by tauto.
        apply IH in G. discriminate.
      * split; [|reflexivity]. intros _ [H | H]; [congruence|].
        now apply (proj1 IH).
Qed.

Lemma chars_concat (sep : string) (l : list string) (c : ascii) :
  In c (list_ascii_of_string (String.concat sep l)) ->
  In c (list_ascii_of_string sep) \/
  exists x, In x l /\ In c (list_ascii_of_string x).
Proof.
  induction l as [|x l IH]; simpl; [intros []|].
  destruct l as [|y l].
  - intros H. right. exists x. auto.
  - rewrite !chars_append. intros H.
    apply in_app_or in H. destruct H as [H | H].
    + right. exists x. auto.
    + apply in_app_or in H. destruct H as [H | H]; [now left|].
      destruct (IH H) as [G | [z [Hz Hc]]]; [now left|].
      right. exists z. split; [now right | exact Hc].
Qed.

Lemma split_join_char (c : ascii) (parts : list string) :
  parts <> [] -> Forall (fun p => indexOfChar p c = None) parts ->
  split c (String.concat (String c EmptyString) parts) = parts.
Proof.
  induction parts as [|x parts IH]; intros Hne Hall; [congruence|].
  inversion Hall as [|? ? Hx Hrest]; subst.
  destruct parts as [|y parts].
  - simpl. now apply split_alone.
  - change (String.concat (String c EmptyString) (x :: y :: parts))
      with (x ++ String c (String.concat (String c EmptyString) (y :: parts)))%string.
    rewrite split_append by exact Hx.
    rewrite IH; [reflexivity | discriminate | exact Hrest].
Qed.

(** The keys of the filter table hold no delimiter of the codec. *)
Lemma key_plain (conf : AdvFilterConfig) :
  In conf ADVANCED_FILTERS ->
  indexOfChar (key conf) ":" = None /\ indexOfChar (key conf) "|" = None.
Proof.
  intros H. simpl in H.
  repeat (destruct H as [<- | H]; [split; reflexivity|]). destruct H.
Qed.

(** A character that is unreserved and no hexadecimal digit is in the
    encoding of a text only if it is in the text. *)
Lemma encode_keeps_absent (s : string) (c : ascii) :
  hexValue c = None -> c <> "%"%char ->
  In c (list_ascii_of_string (encodeURIComponent s)) ->
  In c (list_ascii_of_string s).
Proof.
  intros Hh Hp. induction s as [|a s IH]; [intros []|].
  cbn [encodeURIComponent]. destruct (unreserved a) eqn:U;
    cbn [list_ascii_of_string].
  - intros [<- | H]; [now left | right; now apply IH].
  - intros [H | [H | [H | H]]].
    + congruence.
    + exfalso. subst c. revert Hh.
      pose proof (nat_of_ascii_bound a) as Hb.
      assert (Hd : (nat_of_ascii a / 16 < 16)%nat)
        by (apply Nat.Div0.div_lt_upper_bound; exact Hb).
      rewrite hexValue_hexDigit by exact Hd. discriminate.
    + exfalso. subst c. revert Hh.
      rewrite hexValue_hexDigit
        by (apply Nat.mod_upper_bound; discriminate).
      discriminate.
    + right. now apply IH.
Qed.

Lemma encode_no_delimiter (s : string) (c : ascii) :
  unreserved c = false -> c <> "%"%char ->
  indexOfChar (encodeURIComponent s) c = None.
Proof.
  intros Hu Hp. apply indexOfChar_None_iff. intros H.
  apply encode_alphabet in H. destruct H as [H | H]; congruence.
Qed.

Lemma encode_nonempty (s : string) :
  s <> EmptyString -> encodeURIComponent s <> EmptyString.
Proof.
  destruct s as [|a s]; [congruence|]. intros _. simpl.
  destruct (unreserved a); discriminate.
Qed.

Lemma decodeAll_encode (names : list string) :
  (forall name, In name names -> utf8 name = true) ->
  decodeAll (map encodeURIComponent names) = Some names.
Proof.
  induction names as [|x names IH]; intros H; [reflexivity|].
  simpl. rewrite decode_encode by (apply H; now left).
  rewrite IH by (intros name Hn; apply H; now right). reflexivity.
Qed.

Lemma filter_all {A} (p : A -> bool) (l : list A) :
  (forall x, In x l -> p x = true) -> filter p l = l.
Proof.
  induction l as [|x l IH]; intros H; simpl; [reflexivity|].
  rewrite (H x (or_introl eq_refl)). f_equal. apply IH.
  intros y Hy. apply H. now right.
Qed.

Lemma segment_colon (k payload : string) :
  indexOfChar k ":" = None ->
  indexOfChar (k ++ ":" ++ payload) ":" = Some (String.length k) /\
  take (String.length k) (k ++ ":" ++ payload) = k /\
  drop (String.length k + 1) (k ++ ":" ++ payload) = payload.
Proof.
  intros H.
  change (k ++ ":" ++ payload)%string with (k ++ String ":" payload)%string.
  split; [now apply indexOfChar_append|].
  split; [apply take_append | apply drop_append_char].
Qed.

(** The segment of a plain dropdown is read back as written. *)
Lemma parsePart_names (fs : FilterState) (k : string) (conf : AdvFilterConfig)
      (names : list string) :
  findConf k = Some conf -> type conf = DROPDOWN -> multistate conf = false ->
  names <> [] ->
  (forall name, In name names -> utf8 name = true /\ name <> EmptyString) ->
  parsePart fs (k ++ ":" ++ join "," (map encodeURIComponent names))
  = Some (obj_set fs k (mkEntry (VNames names) true)).
Proof.
  intros Hf Ht Hm Hne Hsafe.
  destruct (findConf_key k conf Hf) as [Ek Hin].
  destruct (key_plain conf Hin) as [Hcolon _]. rewrite Ek in Hcolon.
  destruct (segment_colon k (join "," (map encodeURIComponent names)) Hcolon)
    as [H1 [H2 H3]].
  unfold parsePart. rewrite H1, H2, H3, Hf, Ht, Hm.
  unfold join. rewrite split_join_char.
  - rewrite filter_all.
    + rewrite decodeAll_encode by (intros name Hn; now apply Hsafe).
      destruct names; [congruence | reflexivity].
    + intros x Hx. apply in_map_iff in Hx. destruct Hx as [name [<- Hn]].
      apply negb_true_iff, String.eqb_neq, encode_nonempty.
      now apply Hsafe.
  - destruct names; [congruence | discriminate].
  - apply Forall_forall. intros x Hx. apply in_map_iff in Hx.
    destruct Hx as [name [<- _]]. now apply encode_no_delimiter.
Qed.

(** The segment of a range that does not start below zero is read back as
    written. *)
Lemma parsePart_range (fs : FilterState) (k : string) (conf : AdvFilterConfig)
      (lo hi : Z) :
  findConf k = Some conf -> type conf = RANGE -> (0 <= lo)%Z ->
  parsePart fs (k ++ ":" ++ Num.toString lo ++ "-" ++ Num.toString hi)
  = Some (obj_set fs k (mkEntry (VRange lo hi) true)).
Proof.
  intros Hf Ht Hlo.
  destruct (findConf_key k conf Hf) as [Ek Hin].
  destruct (key_plain conf Hin) as [Hcolon _]. rewrite Ek in Hcolon.
  destruct (segment_colon k (Num.toString lo ++ "-" ++ Num.toString hi) Hcolon)
    as [H1 [H2 H3]].
  unfold parsePart. rewrite H1, H2, H3, Hf, Ht.
  assert (Hd : indexOfChar (Num.toString lo) "-" = None).
  { apply indexOfChar_None_iff. intros H.
    pose proof (toString_digits lo Hlo) as Hall.
    rewrite forallb_forall in Hall. specialize (Hall _ H). discriminate. }
  change (Num.toString lo ++ "-" ++ Num.toString hi)%string
    with (Num.toString lo ++ String "-" (Num.toString hi))%string.
  rewrite (indexOfChar_append "-" _ _ Hd), take_append, drop_append_char.
  destruct (parse_toString lo) as [-> _].
  destruct (parse_toString hi) as [-> _]. reflexivity.
Qed.

Lemma endsWithChar_In (s : string) (c : ascii) :
  endsWithChar s c = true -> In c (list_ascii_of_string s).
Proof.
  induction s as [|a s IH]; [discriminate|].
  destruct s as [|b s].
  - simpl. intros H. apply Ascii.eqb_eq in H. now left.
  - intros H. right. apply IH. exact H.
Qed.

Lemma endsWithChar_app (x y : string) (c : ascii) :
  y <> EmptyString -> endsWithChar (x ++ y) c = endsWithChar y c.
Proof.
  intros Hy. induction x as [|a x IH]; [reflexivity|].
  simpl. destruct (x ++ y)%string eqn:E.
  - destruct x; [simpl in E; congruence | discriminate].
  - exact IH.
Qed.

Lemma dropLast_snoc (x : string) (d : ascii) :
  dropLast (x ++ String d EmptyString) = x.
Proof.
  induction x as [|a x IH]; [reflexivity|].
  simpl. destruct (x ++ String d EmptyString)%string eqn:E.
  - destruct x; discriminate.
  - now rewrite IH.
Qed.

(** A state suffix is at the end of an encoded name only if it is at the
    end of the name. *)
Lemma endsWithChar_encode (name : string) (c : ascii) :
  unreserved c = true -> hexValue c = None ->
  endsWithChar (encodeURIComponent name) c = endsWithChar name c.
Proof.
  intros Hu Hh. induction name as [|a rest IH]; [reflexivity|].
  assert (Hhead : forall d : nat, (d < 16)%nat ->
                                  Ascii.eqb (hexDigit d) c = false).
  { intros d Hd. destruct (Ascii.eqb (hexDigit d) c) eqn:E; [|reflexivity].
    apply Ascii.eqb_eq in E. subst c.
    rewrite hexValue_hexDigit in Hh by exact Hd. discriminate. }
  destruct rest as [|b rest].
  - cbn [encodeURIComponent]. destruct (unreserved a) eqn:U;
      cbn [endsWithChar]; [reflexivity|].
    rewrite Hhead by (apply Nat.mod_upper_bound; discriminate).
    symmetry. destruct (Ascii.eqb a c) eqn:E; [|reflexivity].
    apply Ascii.eqb_eq in E. congruence.
  - assert (Hne : encodeURIComponent (String b rest) <> EmptyString)
      by (apply encode_nonempty; discriminate).
    change (endsWithChar (String a (String b rest)) c)
      with (endsWithChar (String b rest) c).
    rewrite <- IH. cbn [encodeURIComponent].
    destruct (unreserved a).
    + change (String a ?r) with (String a EmptyString ++ r)%string.
      now apply endsWithChar_app.
    + match goal with
      | |- endsWithChar (String ?p (String ?h (String ?l ?r))) c = _ =>
          change (String p (String h (String l r)))
            with (String p (String h (String l EmptyString)) ++ r)%string
      end.
      now apply endsWithChar_app.
Qed.

Lemma digits_no_char (s : string) (c : ascii) :
  forallb isDigit (list_ascii_of_string s) = true -> isDigit c = false ->
  ~ In c (list_ascii_of_string s).
Proof.
  intros H Hc Hin. rewrite forallb_forall in H. specialize (H c Hin).
  congruence.
Qed.

(** An entry of a selection that the codec carries is read back as
    written. *)
Lemma parseSelectionItem_encode (name : string) (sv : SelectionValue) :
  plainName name -> state sv <> st_off -> (1 <= count sv)%Z ->
  ((1 < count sv)%Z -> state sv = st_or) ->
  parseSelectionItem (encodeSelectionEntry name sv) = Some (name, sv).
Proof.
  intros [Hu [Ht [Hd [Hb _]]]] Hoff Hc Hor. destruct sv as [s cnt].
  simpl in Hoff, Hc, Hor.
  assert (Etilde : indexOfChar (encodeURIComponent name) "~" = None).
  { apply indexOfChar_None_iff. intros H.
    apply encode_keeps_absent in H; [|reflexivity | discriminate].
    now apply (proj1 (indexOfChar_None_iff name "~")). }
  assert (Edot : endsWithChar (encodeURIComponent name) "." = false)
    by (rewrite endsWithChar_encode; [exact Hd | reflexivity | reflexivity]).
  assert (Ebang : endsWithChar (encodeURIComponent name) "!" = false)
    by (rewrite endsWithChar_encode; [exact Hb | reflexivity | reflexivity]).
  unfold encodeSelectionEntry, parseSelectionItem. cbn [state count].
  destruct (1 <? cnt)%Z eqn:Ec.
  - apply Z.ltb_lt in Ec. rewrite (Hor Ec).
    set (enc := encodeURIComponent name) in *.
    set (num := Num.toString cnt).
    assert (Hnum : forallb isDigit (list_ascii_of_string num) = true)
      by (apply toString_digits; lia).
    assert (Hnn : num <> EmptyString).
    { unfold num, Num.toString. destruct cnt as [|p|p]; try lia.
      apply digits_nonempty. }
    assert (Hend : forall c, isDigit c = false ->
                             endsWithChar (enc ++ "~" ++ num) c = false).
    { intros c Hcd.
      change (enc ++ "~" ++ num)%string
        with (enc ++ (String "~" num))%string.
      rewrite endsWithChar_app by discriminate.
      destruct (endsWithChar (String "~" num) c) eqn:E; [|reflexivity].
      exfalso. destruct num as [|d num']; [congruence|].
      change (endsWithChar (String "~" (String d num')) c)
        with (endsWithChar (String d num') c) in E.
      apply endsWithChar_In in E.
      now apply (digits_no_char (String d num') c Hnum Hcd). }
    rewrite (Hend "."%char eq_refl), (Hend "!"%char eq_refl).
    change (enc ++ "~" ++ num)%string with (enc ++ String "~" num)%string.
    rewrite (indexOfChar_append "~" enc num Etilde).
    rewrite take_append, drop_append_char.
    unfold num. destruct (parse_toString cnt) as [_ ->].
    assert (E0 : (cnt =? 0)%Z = false) by (apply Z.eqb_neq; lia).
    rewrite E0. unfold enc. now rewrite decode_encode.
  - apply Z.ltb_ge in Ec. assert (cnt = 1%Z) by lia. subst cnt.
    destruct s; try congruence.
    + rewrite Edot, Ebang, Etilde. now rewrite decode_encode.
    + change (encodeURIComponent name ++ ".")%string
        with (encodeURIComponent name ++ String "." EmptyString)%string.
      rewrite endsWithChar_app by discriminate. cbn [endsWithChar].
      change (Ascii.eqb "." ".") with true. cbv iota.
      rewrite dropLast_snoc, Etilde. now rewrite decode_encode.
    + change (encodeURIComponent name ++ "!")%string
        with (encodeURIComponent name ++ String "!" EmptyString)%string.
      rewrite !endsWithChar_app by discriminate. cbn [endsWithChar].
      change (Ascii.eqb "!" ".") with false.
      change (Ascii.eqb "!" "!") with true. cbv iota.
      rewrite dropLast_snoc, Etilde. now rewrite decode_encode.
Qed.

Lemma parseSelectionItems_encode (entries acc : MultiStateSelection) :
  (forall name sv, In (name, sv) entries ->
                   parseSelectionItem (encodeSelectionEntry name sv)
                   = Some (name, sv) /\ name <> "__proto__") ->
  parseSelectionItems
    (map (fun e => encodeSelectionEntry (fst e) (snd e)) entries) acc
  = Some (fold_left (fun m p => assoc_set String.eqb m (fst p) (snd p))
                    entries acc).
Proof.
  revert acc. induction entries as [|[name sv] entries IH]; intros acc H;
    [reflexivity|].
  cbn [map parseSelectionItems fst snd fold_left].
  destruct (H name sv (or_introl eq_refl)) as [Hparse Hproto].
  rewrite Hparse. unfold obj_assign.
  apply String.eqb_neq in Hproto. rewrite Hproto.
  apply IH. intros nm s Hin. apply H. now right.
Qed.

Lemma encoded_entries (selection : MultiStateSelection) :
  flat_map (fun e => if negb (MultiState_eqb (state (snd e)) st_off)
                     then [encodeSelectionEntry (fst e) (snd e)]
                     else []) selection
  = map (fun e => encodeSelectionEntry (fst e) (snd e)) (dropOff selection).
Proof.
  unfold dropOff. induction selection as [|e l IH]; [reflexivity|].
  simpl. destruct (negb (MultiState_eqb (state (snd e)) st_off)); simpl;
    now rewrite IH.
Qed.

(** The encoding of a selection entry holds no bar and no comma. *)
Lemma encodeSelectionEntry_plain (name : string) (sv : SelectionValue)
      (c : ascii) :
  unreserved c = false -> c <> "%"%char -> (0 <= count sv)%Z ->
  indexOfChar (encodeSelectionEntry name sv) c = None.
Proof.
  intros Hu Hp Hc. apply indexOfChar_None_iff. intros H.
  unfold encodeSelectionEntry in H.
  assert (Henc : ~ In c (list_ascii_of_string (encodeURIComponent name))).
  { intros G. apply encode_alphabet in G. destruct G; congruence. }
  assert (Hpart : ~ In c (list_ascii_of_string
                            (match state sv with
                             | st_and => encodeURIComponent name ++ "."
                             | st_not => encodeURIComponent name ++ "!"
                             | _ => encodeURIComponent name
                             end)%string)).
  { intros G.
    destruct (state sv); try (now apply Henc);
      rewrite chars_append in G; apply in_app_or in G;
      destruct G as [G | [<- | []]]; try (now apply Henc); discriminate. }
  destruct (1 <? count sv)%Z; [|now apply Hpart].
  rewrite chars_append in H. apply in_app_or in H.
  destruct H as [H | H]; [now apply Hpart|].
  destruct H as [<- | H]; [discriminate|].
  revert H. apply digits_no_char; [now apply toString_digits|].
  destruct (isDigit c) eqn:E; [|reflexivity].
  exfalso. clear -Hu E. destruct c as [[] [] [] [] [] [] [] []];
    discriminate.
Qed.

(** The segment of a multistate dropdown is read back as written, less
    the [off] entries. *)
Lemma parsePart_selection (fs : FilterState) (k : string)
      (conf : AdvFilterConfig) (selection : MultiStateSelection) :
  findConf k = Some conf -> type conf = DROPDOWN -> multistate conf = true ->
  NoDup (obj_keys selection) -> dropOff selection <> [] ->
  (forall name sv,
      In (name, sv) (dropOff selection) ->
      plainName name /\ (1 <= count sv)%Z /\ safeInteger (count sv) /\
      ((1 < count sv)%Z -> state sv = st_or)) ->
  parsePart fs
    (k ++ ":" ++
       join "," (map (fun e => encodeSelectionEntry (fst e) (snd e))
                     (dropOff selection)))
  = Some (obj_set fs k (mkEntry (VSelection (dropOff selection)) true)).
Proof.
  intros Hf Ht Hm Hnd Hne Hsafe.
  destruct (findConf_key k conf Hf) as [Ek Hin].
  destruct (key_plain conf Hin) as [Hcolon _]. rewrite Ek in Hcolon.
  set (act := dropOff selection) in *.
  destruct (segment_colon
              k (join "," (map (fun e => encodeSelectionEntry (fst e) (snd e))
                               act)) Hcolon) as [H1 [H2 H3]].
  unfold parsePart. rewrite H1, H2, H3, Hf, Ht, Hm.
  unfold join. rewrite split_join_char.
  - rewrite parseSelectionItems_encode.
    + change (fold_left (fun m p => assoc_set String.eqb m (fst p) (snd p))
                        act [])
        with (assoc_of_pairs String.eqb act).
      rewrite assoc_of_pairs_NoDup.
      * destruct act; [congruence | reflexivity].
      * apply (NoDup_keys_filter _ selection Hnd).
    + intros name sv Hi. destruct (Hsafe name sv Hi) as [Hp [Hc [_ Hor]]].
      split; [|now destruct Hp as [_ [_ [_ [_ [Hproto _]]]]]].
      apply parseSelectionItem_encode; try assumption.
      unfold act, dropOff in Hi. apply filter_In in Hi.
      destruct Hi as [_ Hi]. simpl in Hi. intros E. rewrite E in Hi.
      discriminate.
  - destruct act; [congruence | discriminate].
  - apply Forall_forall. intros x Hx. apply in_map_iff in Hx.
    destruct Hx as [[name sv] [<- Hi]].
    apply encodeSelectionEntry_plain; [reflexivity | discriminate|].
    destruct (Hsafe name sv Hi) as [_ [Hc _]]. simpl. lia.
Qed.

Lemma toString_chars (z : Z) (c : ascii) :
  In c (list_ascii_of_string (Num.toString z)) ->
  c = "-"%char \/ isDigit c = true.
Proof.
  unfold Num.toString. destruct z as [|p|p]; cbn [Z.to_int NilEmpty.string_of_int].
  - intros [<- | []]. now right.
  - intros H. right. pose proof (digits_all (Pos.to_uint p)) as Hall.
    rewrite forallb_forall in Hall. now apply Hall.
  - cbn [list_ascii_of_string]. intros [<- | H]; [now left|].
    right. pose proof (digits_all (Pos.to_uint p)) as Hall.
    rewrite forallb_forall in Hall. now apply Hall.
Qed.

Lemma noBar_segment (k payload : string) :
  indexOfChar k "|" = None -> indexOfChar payload "|" = None ->
  noBar (k ++ ":" ++ payload).
Proof.
  intros Hk Hp. unfold noBar. apply indexOfChar_None_iff.
  rewrite !chars_append. intros H.
  apply in_app_or in H. destruct H as [H | H].
  - now apply (proj1 (indexOfChar_None_iff k "|")).
  - apply in_app_or in H. destruct H as [[H | []] | H]; [discriminate|].
    now apply (proj1 (indexOfChar_None_iff payload "|")).
Qed.

Lemma noBar_joined (items : list string) :
  (forall x, In x items -> indexOfChar x "|" = None) ->
  indexOfChar (join "," items) "|" = None.
Proof.
  intros H. apply indexOfChar_None_iff. intros G.
  apply chars_concat in G. destruct G as [[G | []] | [x [Hx G]]];
    [discriminate|].
  now apply (proj1 (indexOfChar_None_iff x "|") (H x Hx)).
Qed.

(** What [generateCompactFiltersParam] writes for a touched entry the
    codec carries: one segment, without a bar, that
    [parseCompactFiltersFromUrl] reads back as the entry. *)
Lemma encodeEntry_safe (k : string) (conf : AdvFilterConfig) (v : FilterValue) :
  findConf k = Some conf -> CodecSafe conf v ->
  exists seg,
    encodeEntry k (mkEntry v true) = [seg] /\ noBar seg /\
    forall fs, parsePart fs seg
               = Some (obj_set fs k (mkEntry (restored v) true)).
Proof.
  intros Hf Hs.
  destruct (findConf_key k conf Hf) as [Ek Hin].
  destruct (key_plain conf Hin) as [_ Hbar]. rewrite Ek in Hbar.
  unfold encodeEntry. cbn [interactedWith value negb]. rewrite Hf.
  destruct Hs as [lo hi Ht Hlo Hslo Hshi | names Ht Hm Hne Hsafe
                 | selection Ht Hm Hnd Hne Hsafe]; rewrite Ht.
  - eexists. split; [reflexivity|]. split.
    + apply noBar_segment; [exact Hbar|].
      apply indexOfChar_None_iff. rewrite !chars_append. intros H.
      apply in_app_or in H. destruct H as [H | H].
      * apply toString_chars in H. destruct H as [H | H]; discriminate.
      * apply in_app_or in H. destruct H as [[H | []] | H]; [discriminate|].
        apply toString_chars in H. destruct H as [H | H]; discriminate.
    + intros fs. now apply (parsePart_range fs k conf).
  - rewrite Hm. destruct names as [|x names]; [congruence|].
    eexists. split; [reflexivity|]. split.
    + apply noBar_segment; [exact Hbar|]. apply noBar_joined.
      intros y Hy. apply in_map_iff in Hy. destruct Hy as [name [<- _]].
      now apply encode_no_delimiter.
    + intros fs. now apply (parsePart_names fs k conf).
  - rewrite Hm, encoded_entries.
    destruct (map (fun e => encodeSelectionEntry (fst e) (snd e))
                  (dropOff selection)) as [|i items] eqn:E.
    + destruct (dropOff selection); [congruence | discriminate].
    + rewrite <- E. eexists. split; [reflexivity|]. split.
      * apply noBar_segment; [exact Hbar|]. apply noBar_joined.
        intros y Hy. apply in_map_iff in Hy.
        destruct Hy as [[name sv] [<- Hi]].
        apply encodeSelectionEntry_plain; [reflexivity | discriminate|].
        destruct (Hsafe name sv Hi) as [_ [Hc _]]. simpl. lia.
      * intros fs. now apply (parsePart_selection fs k conf).
Qed.

Lemma parts_of_state (st : FilterState) :
  (forall k e, In (k, e) st -> interactedWith e = true ->
               exists conf, findConf k = Some conf /\ CodecSafe conf (value e)) ->
  let parts := flat_map (fun e => encodeEntry (fst e) (snd e)) st in
  let touched := filter (fun e => interactedWith (snd e)) st in
  Forall noBar parts /\
  (parts = [] <-> touched = []) /\
  forall fs,
    parseParts parts fs
    = fold_left (fun m p => assoc_set String.eqb m (fst p) (snd p))
                (map (fun p => (fst p, mkEntry (restored (value (snd p))) true))
                     touched)
                fs.
Proof.
  induction st as [|[k [v b]] st IH]; intros Hsafe; cbv zeta.
  - simpl. repeat split; auto.
  - assert (Hrest : forall k e, In (k, e) st -> interactedWith e = true ->
                                exists conf, findConf k = Some conf /\
                                             CodecSafe conf (value e)).
    { intros k' e' Hin. apply Hsafe. now right. }
    destruct (IH Hrest) as [Hnb [Hnil Hparse]]. cbv zeta in Hnb, Hnil, Hparse.
    cbn [flat_map filter fst snd interactedWith].
    destruct b.
    + destruct (Hsafe k (mkEntry v true) (or_introl eq_refl) eq_refl)
        as [conf [Hf Hs]]. cbn [value] in Hs.
      destruct (encodeEntry_safe k conf v Hf Hs) as [seg [Eseg [Hbar Hp]]].
      rewrite Eseg. cbn [app map fst snd value fold_left].
      split; [now constructor|]. split; [split; discriminate|].
      intros fs. cbn [parseParts]. rewrite Hp. apply Hparse.
    + assert (E : encodeEntry k (mkEntry v false) = []) by reflexivity.
      rewrite E. cbn [app]. repeat split; auto; apply Hnil.
Qed.

(** X14. The round trip of the compact codec where it holds.  Take a
    filter state with one entry per key whose touched entries the codec
    carries: a range of safe integers (at most [Number.MAX_SAFE_INTEGER]
    in magnitude) that does not start below zero; a non-empty list of
    non-empty names; a selection with an entry that is not [off], plain
    names (no [~], no [.] or [!] at the end, not [__proto__], no
    numeral), counts that are safe integers of at least 1 and a count
    above 1 only with the state [or].  Then [parseCompactFiltersFromUrl] reads from the string
    that [generateCompactFiltersParam] writes exactly the touched entries,
    in their order, the [off] entries of a selection left out; and no
    string is written exactly when no entry is touched. *)
Theorem codec_roundtrip_on_safe_states :
  forall (st : FilterState),
    wellKeyed st ->
    (forall k e, In (k, e) st -> interactedWith e = true ->
                 exists conf, findConf k = Some conf /\
                              CodecSafe conf (value e)) ->
    match generateCompactFiltersParam st with
    | Some s =>
        parseCompactFiltersFromUrl s
        = map (fun p => (fst p, mkEntry (restored (value (snd p))) true))
              (filter (fun e => interactedWith (snd e)) st)
    | None => filter (fun e => interactedWith (snd e)) st = []
    end.
Proof.
  intros st Hwk Hsafe.
  destruct (parts_of_state st Hsafe) as [Hnb [Hnil Hparse]].
  cbv zeta in Hnb, Hnil, Hparse.
  unfold generateCompactFiltersParam.
  destruct (flat_map (fun e => encodeEntry (fst e) (snd e)) st)
    as [|seg parts] eqn:E.
  - now apply Hnil.
  - rewrite parse_join by exact Hnb. rewrite Hparse.
    change (fold_left (fun m p => assoc_set String.eqb m (fst p) (snd p))
                      ?l [])
      with (assoc_of_pairs String.eqb l).
    apply assoc_of_pairs_NoDup.
    rewrite map_map. cbn [fst].
    now apply NoDup_keys_filter.
Qed.

Lemma codec_roundtrip_on_safe_states_witness :
  let st := [("type", mkEntry (VNames ["Mek"; "Battle Armor"]) true);
             ("bv", mkEntry (VRange 100 2500) true);
             ("source", mkEntry (VNames []) false);
             ("componentName",
              mkEntry (VSelection [("AC/20", mkSel st_or 2);
                                   ("Medium Laser", mkSel st_and 1);
                                   ("Narc", mkSel st_off 1)]) true)] in
  generateCompactFiltersParam st
  = Some "type:Mek,Battle%20Armor|bv:100-2500|componentName:AC%2F20~2,Medium%20Laser." /\
  parseCompactFiltersFromUrl
    "type:Mek,Battle%20Armor|bv:100-2500|componentName:AC%2F20~2,Medium%20Laser."
  = [("type", mkEntry (VNames ["Mek"; "Battle Armor"]) true);
     ("bv", mkEntry (VRange 100 2500) true);
     ("componentName",
      mkEntry (VSelection [("AC/20", mkSel st_or 2);
                           ("Medium Laser", mkSel st_and 1)]) true)].
Proof.
  intros st.
  assert (Hgen : generateCompactFiltersParam st
                 = Some "type:Mek,Battle%20Armor|bv:100-2500|componentName:AC%2F20~2,Medium%20Laser.")
    by reflexivity.
  split; [exact Hgen|].
  assert (Hwk : wellKeyed st).
  { unfold wellKeyed. simpl. repeat constructor; simpl; intuition discriminate. }
  assert (Hsafe : forall k e, In (k, e) st -> interactedWith e = true ->
                              exists conf, findConf k = Some conf /\
                                           CodecSafe conf (value e)).
  { intros k e [H | [H | [H | [H | []]]]] Ht; inversion H; subst; clear H;
      try discriminate Ht.
    - exists (dropdown "type"). split; [reflexivity|].
      apply safe_names; try reflexivity; [discriminate|].
      intros name [<- | [<- | []]]; split; try reflexivity; discriminate.
    - exists (range "bv"). split; [reflexivity|].
      apply safe_range; [reflexivity | discriminate | |];
        unfold safeInteger, Num.MAX_SAFE_INTEGER; lia.
    - exists (mkConf "componentName" DROPDOWN None false None true true).
      split; [reflexivity|].
      apply safe_selection; try reflexivity.
      + simpl. repeat constructor; simpl; intuition discriminate.
      + discriminate.
      + intros name sv [H | [H | []]]; inversion H; subst; clear H;
          (split; [repeat split; discriminate|]); simpl;
          unfold safeInteger, Num.MAX_SAFE_INTEGER;
          repeat split; try lia; try reflexivity; intros; lia. }
  pose proof (codec_roundtrip_on_safe_states st Hwk Hsafe) as H.
  rewrite Hgen in H. exact H.
Defined.

(* ================================================================== *)
(** ** What the parser and the startup load return *)
(* ================================================================== *)

Lemma In_obj_set {V} (o : obj V) (k k' : string) (v v' : V) :
  In (k', v') (obj_set o k v) -> (k' = k /\ v' = v) \/ In (k', v') o.
Proof.
  unfold obj_set. induction o as [|[k0 v0] o IH]; simpl.
  - intros [H | []]. inversion H. auto.
  - destruct (String.eqb k0 k) eqn:E; simpl.
    + intros [H | H]; [inversion H; auto | auto].
    + intros [H | H]; [auto|]. destruct (IH H); auto.
Qed.

Lemma In_obj_assign {V} (o : obj V) (k k' : string) (v v' : V) :
  In (k', v') (obj_assign o k v) -> (k' = k /\ v' = v) \/ In (k', v') o.
Proof.
  unfold obj_assign. destruct (String.eqb k "__proto__"); [now right|].
  apply In_obj_set.
Qed.

Lemma wellKeyed_assign {V} (o : obj V) (k : string) (v : V) :
  NoDup (obj_keys o) -> NoDup (obj_keys (obj_assign o k v)).
Proof.
  unfold obj_assign. destruct (String.eqb k "__proto__"); [auto|].
  apply wellKeyed_set.
Qed.

Lemma obj_set_nonempty {V} (o : obj V) (k : string) (v : V) :
  obj_set o k v <> [].
Proof.
  unfold obj_set. destruct o as [|[k0 v0] o]; simpl; [discriminate|].
  destruct (String.eqb k0 k); discriminate.
Qed.

Lemma parseSelectionItem_entry (item name : string) (sv : SelectionValue) :
  parseSelectionItem item = Some (name, sv) ->
  state sv <> st_off /\ count sv <> 0%Z.
Proof.
  unfold parseSelectionItem.
  destruct (if endsWithChar item "." then (st_and, dropLast item)
            else if endsWithChar item "!" then (st_not, dropLast item)
                 else (st_or, item)) as [s enc] eqn:E1.
  assert (Hs : s <> st_off).
  { destruct (endsWithChar item "."); [inversion E1; discriminate|].
    destruct (endsWithChar item "!"); inversion E1; discriminate. }
  destruct (match indexOfChar enc "~" with
            | Some starIndex =>
                (match Num.parseInt (drop (starIndex + 1) enc) with
                 | Some c => if (c =? 0)%Z then 1%Z else c
                 | None => 1%Z
                 end, take starIndex enc)
            | None => (1%Z, enc)
            end) as [c enc'] eqn:E2.
  assert (Hc : c <> 0%Z).
  { destruct (indexOfChar enc "~") as [i|]; [|inversion E2; discriminate].
    destruct (Num.parseInt (drop (i + 1) enc)) as [c0|];
      [|inversion E2; discriminate].
    destruct (c0 =? 0)%Z eqn:E0; inversion E2; subst; [discriminate|].
    now apply Z.eqb_neq. }
  destruct (decodeURIComponent enc'); [|discriminate].
  intros H. inversion H; subst. simpl. auto.
Qed.

Lemma parseSelectionItems_invariant (items : list string)
      (acc selection : MultiStateSelection) :
  parseSelectionItems items acc = Some selection ->
  NoDup (obj_keys acc) ->
  (forall name sv, In (name, sv) acc -> state sv <> st_off /\ count sv <> 0%Z) ->
  NoDup (obj_keys selection) /\
  (forall name sv, In (name, sv) selection ->
                   state sv <> st_off /\ count sv <> 0%Z).
Proof.
  revert acc. induction items as [|item items IH]; intros acc H Hnd Hacc.
  - simpl in H. inversion H; subst. auto.
  - simpl in H.
    destruct (parseSelectionItem item) as [[name sv]|] eqn:E; [|discriminate].
    apply (IH _ H).
    + now apply wellKeyed_assign.
    + intros nm s Hin. apply In_obj_assign in Hin.
      destruct Hin as [[-> ->] | Hin]; [|now apply (Hacc nm)].
      now apply (parseSelectionItem_entry item name).
Qed.

Lemma parsePart_invariant (fs fs' : FilterState) (part : string) :
  parsePart fs part = Some fs' ->
  wellKeyed fs -> (forall k e, In (k, e) fs -> parsedEntry k e) ->
  wellKeyed fs' /\ (forall k e, In (k, e) fs' -> parsedEntry k e).
Proof.
  intros H Hwk Hinv. unfold parsePart in H.
  assert (Hset : forall k e, parsedEntry k e ->
                             wellKeyed (obj_set fs k e) /\
                             forall k' e', In (k', e') (obj_set fs k e) ->
                                           parsedEntry k' e').
  { intros k e He. split; [now apply wellKeyed_set|].
    intros k' e' Hin. apply In_obj_set in Hin.
    destruct Hin as [[-> ->] | Hin]; [exact He | now apply Hinv]. }
  destruct (indexOfChar part ":") as [i|];
    [|inversion H; subst; auto].
  destruct (findConf (take i part)) as [conf|] eqn:Ef;
    [|inversion H; subst; auto].
  destruct (type conf) eqn:Et.
  - destruct (multistate conf) eqn:Em.
    + destruct (parseSelectionItems _ []) as [[|p sel]|] eqn:Es;
        [inversion H; subst; auto | | discriminate].
      inversion H; subst. apply Hset. split; [reflexivity|].
      exists conf. split; [exact Ef|]. cbn [value].
      split; [unfold hasShape; now rewrite Et|].
      split; [discriminate|].
      apply (parseSelectionItems_invariant _ [] _ Es); [constructor|].
      intros ? ? [].
    + destruct (decodeAll _) as [[|v vs]|];
        [inversion H; subst; auto | | discriminate].
      inversion H; subst. apply Hset. split; [reflexivity|].
      exists conf. split; [exact Ef|]. cbn [value].
      split; [unfold hasShape; now rewrite Et | discriminate].
  - destruct (indexOfChar (drop (i + 1) part) "-") as [d|];
      [|inversion H; subst; auto].
    destruct (Num.parseFloat (take d (drop (i + 1) part))) as [lo|];
      [|inversion H; subst; auto].
    destruct (Num.parseFloat (drop (d + 1) (drop (i + 1) part))) as [hi|];
      [|inversion H; subst; auto].
    inversion H; subst. apply Hset. split; [reflexivity|].
    exists conf. split; [exact Ef|]. cbn [value].
    split; [unfold hasShape; now rewrite Et | exact I].
Qed.

Lemma parseParts_invariant (parts : list string) (fs : FilterState) :
  wellKeyed fs -> (forall k e, In (k, e) fs -> parsedEntry k e) ->
  wellKeyed (parseParts parts fs) /\
  (forall k e, In (k, e) (parseParts parts fs) -> parsedEntry k e).
Proof.
  revert fs. induction parts as [|part parts IH]; intros fs Hwk Hinv;
    [auto|].
  simpl. destruct (parsePart fs part) as [fs'|] eqn:E; [|auto].
  destruct (parsePart_invariant fs fs' part E Hwk Hinv) as [Hwk' Hinv'].
  now apply IH.
Qed.

Lemma parse_invariant_helper (filtersParam : string) :
  wellKeyed (parseCompactFiltersFromUrl filtersParam) /\
  forall k e, In (k, e) (parseCompactFiltersFromUrl filtersParam) ->
              parsedEntry k e.
Proof.
  unfold parseCompactFiltersFromUrl.
  apply parseParts_invariant; [constructor|]. intros k e [].
Qed.

(** X15. Whatever the string, the state [parseCompactFiltersFromUrl]
    returns has one entry per key, and every entry is touched, stands under
    a key of the filter table, and has a non-empty value of the shape of
    that filter's kind; the entries of a selection have different names, a
    state other than [off] and a count other than 0. *)
Theorem parse_returns_well_formed_state :
  forall (filtersParam : string),
    wellKeyed (parseCompactFiltersFromUrl filtersParam) /\
    forall k e, In (k, e) (parseCompactFiltersFromUrl filtersParam) ->
                parsedEntry k e.
Proof.
  intros filtersParam. apply parse_invariant_helper.
Qed.

(* ------------------------------------------------------------------ *)
(** *** The startup load *)

Lemma validSelection_names (available : list string)
      (selection acc : MultiStateSelection) (name : string)
      (sv : SelectionValue) :
  In (name, sv)
     (fold_left (fun acc p => if set_has String.eqb available (fst p)
                              then obj_assign acc (fst p) (snd p) else acc)
                selection acc) ->
  In (name, sv) acc \/ In name available.
Proof.
  revert acc. induction selection as [|[nm s] selection IH]; intros acc H;
    [now left|].
  simpl in H. apply IH in H. destruct H as [H | H]; [|now right].
  destruct (set_has String.eqb available nm) eqn:E; [|now left].
  apply In_obj_assign in H. destruct H as [[-> _] | H]; [|now left].
  right. now apply (set_has_In _ string_eqb_spec).
Qed.

Lemma validateEntry_invariant (this : Service) (valid : FilterState)
      (k : string) (e : FilterEntry) :
  parsedEntry k e ->
  (forall k' e', In (k', e') valid -> restoredEntry this k' e') ->
  forall k' e', In (k', e') (validateEntry this valid (k, e)) ->
                restoredEntry this k' e'.
Proof.
  intros [Ht [conf [Hf [Hs _]]]] Hinv k' e'. unfold validateEntry.
  rewrite Hf. unfold hasShape in Hs.
  assert (Hset : forall e0, restoredEntry this k e0 ->
                            In (k', e') (obj_set valid k e0) ->
                            restoredEntry this k' e').
  { intros e0 He0 Hin. apply In_obj_set in Hin.
    destruct Hin as [[-> ->] | Hin]; [exact He0 | now apply Hinv]. }
  destruct (type conf) eqn:Et.
  - destruct (multistate conf) eqn:Em.
    + destruct (value e) as [l|sel|lo hi]; try (apply Hinv).
      cbv zeta.
      match goal with
      | |- context [fold_left ?f sel []] =>
          destruct (fold_left f sel []) as [|p vs] eqn:Ev; [apply Hinv|]
      end.
      apply Hset. split; [reflexivity|]. exists conf.
      split; [exact Hf|]. cbn [value]. split; [discriminate|].
      intros name sv Hin. rewrite <- Ev in Hin.
      apply validSelection_names in Hin. destruct Hin as [[] | Hin].
      exact Hin.
    + destruct (value e) as [l|sel|lo hi]; try (apply Hinv).
      cbv zeta.
      match goal with
      | |- context [filter ?f l] =>
          destruct (filter f l) as [|v vs] eqn:Ev; [apply Hinv|]
      end.
      apply Hset. split; [reflexivity|]. exists conf.
      split; [exact Hf|]. cbn [value]. split; [discriminate|].
      intros name Hin. rewrite <- Ev in Hin. apply filter_In in Hin.
      destruct Hin as [_ Hin]. now apply (set_has_In _ string_eqb_spec).
  - apply Hset. split; [exact Ht|]. exists conf. split; [exact Hf|].
    destruct (value e); try contradiction. exact Et.
Qed.

(** X16. When the [filters] parameter is present and decodes, every entry
    of the filter state restored at startup is touched and stands under a
    key of the filter table; a restored dropdown value is not empty and
    names only values that are available in the loaded data: names that
    are no longer there are dropped, and a filter left without a name is
    not restored. *)
Theorem startup_restores_available_values_only :
  forall (this : Service) (current : FilterState)
         (filtersParam decoded : string),
    filtersParam <> EmptyString ->
    decodeURIComponent filtersParam = Some decoded ->
    forall k e, In (k, e) (loadFilters this current (Some filtersParam)) ->
                restoredEntry this k e.
Proof.
  intros this current filtersParam decoded Hne Hd. unfold loadFilters.
  destruct filtersParam as [|c p]; [congruence|]. rewrite Hd.
  destruct (parse_invariant_helper decoded) as [_ Hparsed].
  revert Hparsed. generalize (parseCompactFiltersFromUrl decoded).
  intros parsed Hparsed.
  assert (G : forall valid,
             (forall k e, In (k, e) valid -> restoredEntry this k e) ->
             forall k e, In (k, e) (fold_left (validateEntry this) parsed valid) ->
                         restoredEntry this k e).
  { induction parsed as [|[k0 e0] parsed IH]; intros valid Hv; [exact Hv|].
    simpl. apply IH.
    - intros k e Hin. apply Hparsed. now right.
    - apply validateEntry_invariant; [|exact Hv].
      apply Hparsed. now left. }
  apply G. intros k e [].
Qed.

(* ------------------------------------------------------------------ *)
(** *** Instances on the example data *)

Lemma tri_state_without_counts_witness :
  let selection := [("Stable", mkSel st_and 1); ("Narrow", mkSel st_not 1)] in
  let units := [Example.atlas; Example.locust] in
  (forall name sv, In (name, sv) selection -> (count sv <= 1)%Z) /\
  (In Example.atlas (filterUnitsByMultiState units "quirks" selection) <->
   In Example.atlas units /\
   (forall name c, In (name, mkSel st_not c) selection ->
                   ~ possesses Example.atlas "quirks" name) /\
   (forall name c, In (name, mkSel st_and c) selection ->
                   possesses Example.atlas "quirks" name) /\
   ((exists name c, In (name, mkSel st_or c) selection) ->
    exists name c, In (name, mkSel st_or c) selection /\
                   possesses Example.atlas "quirks" name)).
Proof.
  intros selection units.
  assert (Hc : forall name sv, In (name, sv) selection -> (count sv <= 1)%Z).
  { intros name sv [H | [H | []]]; inversion H; subst; simpl; lia. }
  split; [exact Hc|].
  exact (tri_state_without_counts units "quirks" selection Example.atlas Hc).
Defined.

Lemma tri_state_component_quantities_witness :
  let selection := [("Medium Laser", mkSel st_or 2);
                    ("AC/20", mkSel st_and 1)] in
  let units := [Example.atlas; Example.locust] in
  wellKeyed selection /\
  (In Example.atlas
      (filterUnitsByMultiState units "componentName" selection) <->
   In Example.atlas units /\
   (forall name c, In (name, mkSel st_not c) selection ->
                   ~ possesses Example.atlas "componentName" name) /\
   (forall name c, In (name, mkSel st_and c) selection ->
                   (c <= totalQuantity Example.atlas name)%Z) /\
   ((exists name c, In (name, mkSel st_or c) selection) ->
    exists name c, In (name, mkSel st_or c) selection /\
                   (c <= totalQuantity Example.atlas name)%Z)).
Proof.
  intros selection units.
  assert (Hwk : wellKeyed selection).
  { unfold wellKeyed. simpl. repeat constructor; simpl; intuition discriminate. }
  split; [exact Hwk|].
  apply (tri_state_component_quantities units selection Example.atlas Hwk).
  exists "Medium Laser", (mkSel st_or 2).
  split; [now left|]. split; [now left | simpl; lia].
Defined.

Lemma startup_restores_available_values_only_witness :
  "type:Mek,Tank" <> EmptyString /\
  decodeURIComponent "type:Mek,Tank" = Some "type:Mek,Tank" /\
  loadFilters Example.service [] (Some "type:Mek,Tank")
  = [("type", mkEntry (VNames ["Mek"]) true)] /\
  forall k e,
    In (k, e) (loadFilters Example.service [] (Some "type:Mek,Tank")) ->
    restoredEntry Example.service k e.
Proof.
  split; [discriminate|]. split; [reflexivity|]. split; [reflexivity|].
  apply (startup_restores_available_values_only
           Example.service [] "type:Mek,Tank" "type:Mek,Tank");
    [discriminate | reflexivity].
Defined.

(* ================================================================== *)
(** ** The view state in the URL *)
(* ================================================================== *)

Lemma obj_get_assign {V} (o : obj V) (k k' : string) (v : V) :
  obj_get (obj_assign o k v) k'
  = if String.eqb k "__proto__" then obj_get o k'
    else if String.eqb k k' then Some v else obj_get o k'.
Proof.
  unfold obj_assign. destruct (String.eqb k "__proto__"); [reflexivity|].
  apply obj_get_set.
Qed.

Lemma preservedParams_get (currentParams : obj string) (k : string) :
  obj_get (preservedParams currentParams) k
  = if existsb (String.eqb k) ownParams then None
    else if String.eqb k "__proto__" then None
         else option_map PText (obj_get currentParams k).
Proof.
  unfold preservedParams.
  assert (G : forall keys acc,
             obj_get
               (fold_left
                  (fun queryParams k0 =>
                     if negb (existsb (String.eqb k0) ownParams) then
                       match obj_get currentParams k0 with
                       | Some value => obj_assign queryParams k0 (PText value)
                       | None => queryParams
                       end
                     else queryParams) keys acc) k
             = if existsb (String.eqb k) keys
                  && negb (existsb (String.eqb k) ownParams)
                  && negb (String.eqb k "__proto__")
               then match obj_get currentParams k with
                    | Some value => Some (PText value)
                    | None => obj_get acc k
                    end
               else obj_get acc k).
  { induction keys as [|k0 keys IH]; intros acc; [reflexivity|].
    cbn [fold_left existsb]. rewrite IH.
    destruct (String.eqb k k0) eqn:E.
    - apply String.eqb_eq in E. subst k0. cbn [orb andb].
      destruct (existsb (String.eqb k) ownParams) eqn:Eo; cbn [negb andb].
      + now rewrite andb_false_r.
      + destruct (String.eqb k "__proto__") eqn:Ep; cbn [negb].
        * rewrite !andb_false_r.
          destruct (obj_get currentParams k); [|reflexivity].
          now rewrite obj_get_assign, Ep.
        * rewrite !andb_true_r.
          destruct (obj_get currentParams k) as [value|] eqn:Eg.
          -- rewrite obj_get_assign, Ep, String.eqb_refl.
             now destruct (existsb (String.eqb k) keys).
          -- now destruct (existsb (String.eqb k) keys).
    - cbn [orb].
      assert (Hacc : obj_get
                       (if negb (existsb (String.eqb k0) ownParams)
                        then match obj_get currentParams k0 with
                             | Some value =>
                                 obj_assign acc k0 (PText value)
                             | None => acc
                             end
                        else acc) k = obj_get acc k).
      { destruct (negb (existsb (String.eqb k0) ownParams)); [|reflexivity].
        destruct (obj_get currentParams k0); [|reflexivity].
        rewrite obj_get_assign. rewrite String.eqb_sym in E. rewrite E.
        now destruct (String.eqb k0 "__proto__"). }
      now rewrite Hacc. }
  rewrite G. cbn [obj_get assoc_get].
  destruct (existsb (String.eqb k) ownParams); cbn [negb];
    [now rewrite andb_false_r|].
  rewrite andb_true_r.
  destruct (String.eqb k "__proto__"); cbn [negb];
    [now rewrite andb_false_r|].
  rewrite andb_true_r.
  destruct (existsb (String.eqb k) (obj_keys currentParams)) eqn:E.
  - now destruct (obj_get currentParams k).
  - rewrite obj_get_None; [reflexivity|].
    intros Hin. apply Bool.not_true_iff_false in E. apply E.
    apply existsb_exists. exists k. split; [exact Hin|].
    apply String.eqb_refl.
Qed.

Lemma setWhen_get {V} (cond : bool) (k k' : string) (v : V) (o : obj V) :
  obj_get (setWhen cond k v o) k'
  = if cond && String.eqb k k' then Some v else obj_get o k'.
Proof.
  unfold setWhen. destruct cond; [|reflexivity].
  now rewrite obj_get_set.
Qed.

Ltac layers :=
  unfold withOwnParams; cbv zeta;
  repeat first
         [ rewrite setWhen_get
         | rewrite obj_get_set
         | match goal with
           | |- context [match trim ?s with _ => _ end] =>
               destruct (trim s) eqn:?
           | |- context [match selectedSortDirection ?v with _ => _ end] =>
               destruct (selectedSortDirection v) eqn:?
           | |- context [match generateCompactFiltersParam ?st with _ => _ end] =>
               destruct (generateCompactFiltersParam st) as [[|? ?]|] eqn:?
           end ].

Lemma own_keys (k : string) :
  existsb (String.eqb k) ownParams = true ->
  k = "q" \/ k = "sort" \/ k = "sortDir" \/ k = "filters" \/
  k = "expanded" \/ k = "gunnery" \/ k = "piloting".
Proof.
  intros H. apply existsb_exists in H. destruct H as [x [Hin E]].
  apply String.eqb_eq in E. subst x. simpl in Hin. intuition.
Qed.

Lemma foreign_key (k : string) :
  existsb (String.eqb k) ownParams = false ->
  String.eqb "q" k = false /\ String.eqb "sort" k = false /\
  String.eqb "sortDir" k = false /\ String.eqb "filters" k = false /\
  String.eqb "expanded" k = false /\ String.eqb "gunnery" k = false /\
  String.eqb "piloting" k = false.
Proof.
  intros H. cbn [existsb ownParams] in H.
  repeat (apply orb_false_iff in H; destruct H as [? H]).
  repeat split; rewrite String.eqb_sym; assumption.
Qed.

Lemma withOwnParams_foreign (v : ViewState) (queryParams0 : obj ParamValue)
      (k : string) :
  existsb (String.eqb k) ownParams = false ->
  obj_get (withOwnParams v queryParams0) k = obj_get queryParams0 k.
Proof.
  intros H. apply foreign_key in H.
  destruct H as [H1 [H2 [H3 [H4 [H5 [H6 H7]]]]]].
  layers; rewrite ?H1, ?H2, ?H3, ?H4, ?H5, ?H6, ?H7, ?andb_false_r;
    reflexivity.
Qed.

Lemma withOwnParams_own (v : ViewState) (queryParams0 : obj ParamValue)
      (k : string) :
  existsb (String.eqb k) ownParams = true ->
  obj_get queryParams0 k = None ->
  obj_get (withOwnParams v queryParams0) k = obj_get (withOwnParams v []) k.
Proof.
  intros H H0. apply own_keys in H.
  unfold withOwnParams; cbv zeta.
  rewrite !setWhen_get.
  destruct (generateCompactFiltersParam (filterState v)) as [[|c f]|];
    destruct (selectedSortDirection v); destruct (trim (search v));
    rewrite ?obj_get_set, ?setWhen_get, ?obj_get_set, ?H0;
    repeat (destruct H as [-> | H]; [reflexivity || (cbn; rewrite ?H0; reflexivity)|]);
    subst k; cbn; rewrite ?H0; reflexivity.
Qed.

Lemma paramsOfUrl_get (queryParams : obj ParamValue) (k : string) :
  obj_get (paramsOfUrl queryParams) k
  = option_map paramText (obj_get queryParams k).
Proof.
  unfold paramsOfUrl, obj_get.
  induction queryParams as [|[k0 x] l IH]; [reflexivity|].
  simpl. destruct (String.eqb k0 k); [reflexivity | exact IH].
Qed.

Lemma updateUrl_get (currentParams : obj string) (v : ViewState)
      (queryParams : obj ParamValue) (k : string) :
  updateUrlOnFiltersChange currentParams v = Some queryParams ->
  obj_get queryParams k
  = if existsb (String.eqb k) ownParams
    then obj_get (withOwnParams v []) k
    else if String.eqb k "__proto__" then None
         else option_map PText (obj_get currentParams k).
Proof.
  unfold updateUrlOnFiltersChange.
  destruct (negb (urlStateInitialized v)); [discriminate|].
  intros H. inversion H; subst; clear H.
  pose proof (preservedParams_get currentParams k) as Hp.
  destruct (existsb (String.eqb k) ownParams) eqn:E.
  - now apply withOwnParams_own.
  - rewrite withOwnParams_foreign by exact E. exact Hp.
Qed.

(** X17. When the service rewrites the URL, every parameter of the route
    that is not one of its own ([q], [sort], [sortDir], [filters],
    [expanded], [gunnery], [piloting]) is kept with its value, and each of
    its own parameters is what the view alone gives: nothing of an own
    parameter of the old route is left.  One name is the exception: a
    parameter called [__proto__] is not kept, because the assignment to
    the [queryParams] object adds no key of that name. *)
Theorem url_update_keeps_foreign_params :
  forall (currentParams : obj string) (v : ViewState)
         (queryParams fromView : obj ParamValue) (k : string),
    updateUrlOnFiltersChange currentParams v = Some queryParams ->
    updateUrlOnFiltersChange [] v = Some fromView ->
    obj_get queryParams k
    = if existsb (String.eqb k) ownParams then obj_get fromView k
      else if String.eqb k "__proto__" then None
           else option_map PText (obj_get currentParams k).
Proof.
  intros currentParams v queryParams fromView k H H0.
  rewrite (updateUrl_get currentParams v queryParams k H).
  rewrite (updateUrl_get [] v fromView k H0).
  destruct (existsb (String.eqb k) ownParams); [reflexivity|].
  now destruct (String.eqb k "__proto__").
Qed.

Lemma skillParam_range (params : obj string) (name : string) (skill : Z) :
  skillParam params name = Some skill -> (0 <= skill <= 8)%Z.
Proof.
  unfold skillParam.
  destruct (obj_get params name) as [[|c r]|]; try discriminate.
  destruct (Num.parseInt (String c r)) as [z|]; [|discriminate].
  destruct ((0 <=? z)%Z && (z <=? 8)%Z) eqn:E; [|discriminate].
  intros H. inversion H; subst. apply andb_true_iff in E. lia.
Qed.

(** X18. Whatever the query parameters, the startup load leaves the
    settings within what the service offers: the sort key is a key of
    [SORT_OPTIONS] and both pilot skills are from 0 to 8, when they were
    before.  A sort key that is not offered and a skill out of range are
    not taken from the URL. *)
Theorem startup_keeps_settings_valid :
  forall (params : obj string) (v : ViewState),
    settingsValid v ->
    settingsValid (loadFiltersFromUrlOnStartup params v).
Proof.
  intros params v [Hs [Hg Hp]]. unfold loadFiltersFromUrlOnStartup.
  destruct (isDataReady (dataService (service v))
            && negb (urlStateInitialized v)); [|now repeat split].
  destruct (match obj_get params "q" with
            | Some ((String _ _) as searchParam) =>
                option_map Some (decodeURIComponent searchParam)
            | _ => Some None
            end) as [newSearch|]; [|now repeat split].
  cbv zeta.
  pose proof (skillParam_range params "gunnery") as Rg.
  pose proof (skillParam_range params "piloting") as Rp.
  assert (Hsort : In (match obj_get params "sort" with
                      | Some ((String _ _) as sortParam) =>
                          if existsb (fun opt => String.eqb opt sortParam)
                                     SORT_OPTIONS
                          then sortParam else selectedSort v
                      | _ => selectedSort v
                      end) SORT_OPTIONS).
  { destruct (obj_get params "sort") as [[|c r]|]; try exact Hs.
    destruct (existsb _ SORT_OPTIONS) eqn:E; [|exact Hs].
    apply existsb_exists in E. destruct E as [x [Hin E]].
    apply String.eqb_eq in E. now subst x. }
  destruct (skillParam params "gunnery") as [g|];
    destruct (skillParam params "piloting") as [p|];
    unfold settingsValid; cbn;
    repeat split; try exact Hsort;
    try (apply (Rg _ eq_refl)); try (apply (Rp _ eq_refl)); lia.
Qed.

Lemma own_q (v : ViewState) :
  obj_get (withOwnParams v []) "q"
  = match trim (search v) with
    | EmptyString => None
    | trimmed => Some (PText (encodeURIComponent trimmed))
    end.
Proof. layers; cbn; rewrite ?andb_false_r; reflexivity. Qed.

Lemma own_sort (v : ViewState) :
  obj_get (withOwnParams v []) "sort"
  = if String.eqb (selectedSort v) "name" then None
    else Some (PText (selectedSort v)).
Proof.
  layers; cbn; rewrite ?andb_false_r, ?andb_true_r;
    destruct (String.eqb (selectedSort v) "name"); reflexivity.
Qed.

Lemma own_sortDir (v : ViewState) :
  obj_get (withOwnParams v []) "sortDir"
  = match selectedSortDirection v with
    | desc => Some (PText "desc")
    | asc => None
    end.
Proof. layers; cbn; rewrite ?andb_false_r; reflexivity. Qed.

Lemma own_filters (v : ViewState) :
  obj_get (withOwnParams v []) "filters"
  = match generateCompactFiltersParam (filterState v) with
    | Some ((String _ _) as filtersParam) => Some (PText filtersParam)
    | _ => None
    end.
Proof. layers; cbn; rewrite ?andb_false_r; reflexivity. Qed.

Lemma own_gunnery (v : ViewState) :
  obj_get (withOwnParams v []) "gunnery"
  = if (pilotGunnerySkill (service v) =? 4)%Z then None
    else Some (PNumber (pilotGunnerySkill (service v))).
Proof.
  layers; cbn; rewrite ?andb_false_r, ?andb_true_r;
    destruct (pilotGunnerySkill (service v) =? 4)%Z; reflexivity.
Qed.

Lemma own_piloting (v : ViewState) :
  obj_get (withOwnParams v []) "piloting"
  = if (pilotPilotingSkill (service v) =? 5)%Z then None
    else Some (PNumber (pilotPilotingSkill (service v))).
Proof.
  layers; cbn; rewrite ?andb_false_r, ?andb_true_r;
    destruct (pilotPilotingSkill (service v) =? 5)%Z; reflexivity.
Qed.

Lemma own_expanded (v : ViewState) :
  obj_get (withOwnParams v []) "expanded"
  = if expandedView v then Some (PText "true") else None.
Proof.
  layers; cbn; rewrite ?andb_false_r, ?andb_true_r;
    destruct (expandedView v); reflexivity.
Qed.

Lemma sort_option_offered (s : string) :
  In s SORT_OPTIONS ->
  s <> EmptyString /\
  existsb (fun opt => String.eqb opt s) SORT_OPTIONS = true.
Proof.
  intros H. split.
  - intros ->. vm_compute in H. intuition discriminate.
  - apply existsb_exists. exists s. split; [exact H | apply String.eqb_refl].
Qed.

Lemma skill_text (skill : Z) (params : obj string) (name : string) :
  (0 <= skill <= 8)%Z ->
  obj_get params name = Some (Num.toString skill) ->
  skillParam params name = Some skill.
Proof.
  intros Hr Hg. unfold skillParam. rewrite Hg.
  assert (Hc : (skill = 0 \/ skill = 1 \/ skill = 2 \/ skill = 3 \/
                skill = 4 \/ skill = 5 \/ skill = 6 \/ skill = 7 \/
                skill = 8)%Z) by lia.
  repeat (destruct Hc as [-> | Hc]; [reflexivity|]). now subst.
Qed.

(** X19. A later visit restores what the URL was written from.  For a view
    whose settings are valid and whose trimmed search text is well-formed,
    the startup load of a fresh service on the parameters that
    [updateUrlOnFiltersChange] wrote gives the search text trimmed, the
    sort key and direction, the pilot skills and the expanded flag of the
    view, and for the filters what the load makes of the compact string of
    the filter state; the other parameters of the route do not interfere. *)
Theorem url_restores_view_settings :
  forall (currentParams : obj string) (v : ViewState)
         (queryParams : obj ParamValue),
    isDataReady (dataService (service v)) = true ->
    utf8 (trim (search v)) = true ->
    settingsValid v ->
    updateUrlOnFiltersChange currentParams v = Some queryParams ->
    loadFiltersFromUrlOnStartup
      (paramsOfUrl queryParams) (initialView (dataService (service v)))
    = mkView (mkService (dataService (service v))
                        (pilotGunnerySkill (service v))
                        (pilotPilotingSkill (service v)) [])
             (trim (search v))
             (loadFilters (mkService (dataService (service v)) 4 5 []) []
                          (generateCompactFiltersParam (filterState v)))
             (selectedSort v) (selectedSortDirection v) (expandedView v)
             true.
Proof.
  intros currentParams v queryParams Hready Hutf [Hs [Hg Hp]] Hw.
  destruct (sort_option_offered _ Hs) as [Hne Hoff].
  assert (Hget : forall k, existsb (String.eqb k) ownParams = true ->
                           obj_get (paramsOfUrl queryParams) k
                           = option_map paramText
                                        (obj_get (withOwnParams v []) k)).
  { intros k Hk. rewrite paramsOfUrl_get.
    rewrite (updateUrl_get currentParams v queryParams k Hw).
    now rewrite Hk. }
  pose proof (Hget "q" eq_refl) as Eq. rewrite own_q in Eq.
  pose proof (Hget "sort" eq_refl) as Es. rewrite own_sort in Es.
  pose proof (Hget "sortDir" eq_refl) as Ed. rewrite own_sortDir in Ed.
  pose proof (Hget "filters" eq_refl) as Ef. rewrite own_filters in Ef.
  pose proof (Hget "gunnery" eq_refl) as Egu. rewrite own_gunnery in Egu.
  pose proof (Hget "piloting" eq_refl) as Epi. rewrite own_piloting in Epi.
  pose proof (Hget "expanded" eq_refl) as Eex. rewrite own_expanded in Eex.
  assert (Sg : skillParam (paramsOfUrl queryParams) "gunnery"
               = if (pilotGunnerySkill (service v) =? 4)%Z then None
                 else Some (pilotGunnerySkill (service v))).
  { destruct (pilotGunnerySkill (service v) =? 4)%Z.
    - unfold skillParam. now rewrite Egu.
    - now apply skill_text. }
  assert (Sp : skillParam (paramsOfUrl queryParams) "piloting"
               = if (pilotPilotingSkill (service v) =? 5)%Z then None
                 else Some (pilotPilotingSkill (service v))).
  { destruct (pilotPilotingSkill (service v) =? 5)%Z.
    - unfold skillParam. now rewrite Epi.
    - now apply skill_text. }
  unfold loadFiltersFromUrlOnStartup, initialView.
  cbn [service dataService urlStateInitialized negb search filterState
       selectedSort selectedSortDirection expandedView].
  rewrite Hready. cbn [andb]. cbv zeta.
  rewrite Eq, Es, Ed, Ef, Eex, Sg, Sp.
  assert (Hsearch :
            match option_map paramText
                    match trim (search v) with
                    | EmptyString => None
                    | trimmed => Some (PText (encodeURIComponent trimmed))
                    end
            with
            | Some ((String _ _) as searchParam) =>
                option_map Some (decodeURIComponent searchParam)
            | _ => Some None
            end
            = Some (match trim (search v) with
                    | EmptyString => None
                    | trimmed => Some trimmed
                    end)).
  { destruct (trim (search v)) as [|c r] eqn:Et; [reflexivity|].
    cbn [option_map paramText].
    pose proof (encode_nonempty (String c r)) as Hn.
    destruct (encodeURIComponent (String c r)) as [|c' r'] eqn:Ee;
      [exfalso; apply Hn; [discriminate | reflexivity]|].
    rewrite <- Ee. now rewrite decode_encode. }
  rewrite Hsearch.
  assert (Hfilters :
            loadFilters (mkService (dataService (service v)) 4 5 []) []
              (option_map paramText
                 match generateCompactFiltersParam (filterState v) with
                 | Some ((String _ _) as filtersParam) =>
                     Some (PText filtersParam)
                 | _ => None
                 end)
            = loadFilters (mkService (dataService (service v)) 4 5 []) []
                          (generateCompactFiltersParam (filterState v))).
  { now destruct (generateCompactFiltersParam (filterState v)) as [[|c r]|]. }
  rewrite Hfilters.
  assert (Hsort :
            match option_map paramText
                    (if String.eqb (selectedSort v) "name" then None
                     else Some (PText (selectedSort v)))
            with
            | Some ((String _ _) as sortParam) =>
                if existsb (fun opt => String.eqb opt sortParam) SORT_OPTIONS
                then sortParam else "name"
            | _ => "name"
            end = selectedSort v).
  { destruct (String.eqb (selectedSort v) "name") eqn:En.
    - apply String.eqb_eq in En. now rewrite En.
    - cbn [option_map paramText].
      destruct (selectedSort v) as [|c r] eqn:E; [congruence|].
      now rewrite Hoff. }
  rewrite Hsort.
  assert (Hdir :
            match option_map paramText
                    match selectedSortDirection v with
                    | asc => None
                    | desc => Some (PText "desc")
                    end
            with
            | Some sortDirParam =>
                if String.eqb sortDirParam "desc" then desc
                else if String.eqb sortDirParam "asc" then asc else asc
            | None => asc
            end = selectedSortDirection v)
    by (now destruct (selectedSortDirection v)).
  rewrite Hdir.
  assert (Hexp :
            match option_map paramText
                    (if expandedView v then Some (PText "true") else None)
            with
            | Some expandedParam =>
                if String.eqb expandedParam "true" then true else false
            | None => false
            end = expandedView v)
    by (now destruct (expandedView v)).
  rewrite Hexp.
  assert (Htrim : match match trim (search v) with
                        | EmptyString => None
                        | trimmed => Some trimmed
                        end
                  with
                  | Some s => s
                  | None => EmptyString
                  end = trim (search v))
    by (now destruct (trim (search v))).
  rewrite Htrim.
  destruct (pilotGunnerySkill (service v) =? 4)%Z eqn:E4;
    destruct (pilotPilotingSkill (service v) =? 5)%Z eqn:E5;
    try apply Z.eqb_eq in E4; try apply Z.eqb_eq in E5;
    unfold setPilotGunnerySkill, setPilotPilotingSkill; cbn;
    rewrite <- ?E4, <- ?E5; reflexivity.
Qed.

(* ------------------------------------------------------------------ *)
(** *** Instances on the example data *)

Lemma url_update_keeps_foreign_params_witness :
  let v := mkView (mkService Example.data 3 5 []) "  atlas " [] "bv" desc
                  true true in
  let currentParams := [("lang", "en"); ("q", "locust"); ("sort", "tons");
                        ("__proto__", "x")] in
  exists queryParams fromView,
    updateUrlOnFiltersChange currentParams v = Some queryParams /\
    updateUrlOnFiltersChange [] v = Some fromView /\
    obj_get queryParams "lang" = Some (PText "en") /\
    obj_get queryParams "q" = obj_get fromView "q" /\
    obj_get queryParams "__proto__" = None.
Proof.
  intros v currentParams.
  exists (withOwnParams v (preservedParams currentParams)).
  exists (withOwnParams v []).
  split; [reflexivity|]. split; [reflexivity|]. split; [|split].
  - exact (url_update_keeps_foreign_params
             currentParams v _ _ "lang" eq_refl eq_refl).
  - exact (url_update_keeps_foreign_params
             currentParams v _ _ "q" eq_refl eq_refl).
  - exact (url_update_keeps_foreign_params
             currentParams v _ _ "__proto__" eq_refl eq_refl).
Defined.

Lemma startup_keeps_settings_valid_witness :
  let params := [("sort", "price"); ("gunnery", "12"); ("piloting", "3")] in
  settingsValid (initialView Example.data) /\
  settingsValid (loadFiltersFromUrlOnStartup params (initialView Example.data)).
Proof.
  intros params.
  assert (H : settingsValid (initialView Example.data)).
  { unfold settingsValid. cbn. repeat split; try lia. now left. }
  split; [exact H|].
  exact (startup_keeps_settings_valid params (initialView Example.data) H).
Defined.

Lemma url_restores_view_settings_witness :
  let v := mkView (mkService Example.data 3 5 [("bv", (50, 500)%Z)])
                  "  atlas " [("type", mkEntry (VNames ["Mek"]) true)]
                  "bv" desc true true in
  let currentParams := [("lang", "en"); ("q", "locust")] in
  loadFiltersFromUrlOnStartup
    (paramsOfUrl (withOwnParams v (preservedParams currentParams)))
    (initialView Example.data)
  = mkView (mkService Example.data 3 5 []) "atlas"
           [("type", mkEntry (VNames ["Mek"]) true)] "bv" desc true true.
Proof.
  intros v currentParams.
  assert (Hs : settingsValid v).
  { unfold settingsValid. cbn. repeat split; try lia. tauto. }
  exact (url_restores_view_settings
           currentParams v (withOwnParams v (preservedParams currentParams))
           eq_refl eq_refl Hs eq_refl).
Defined.

(* ================================================================== *)
(** ** The result list *)
(* ================================================================== *)

Lemma insertBy_perm {A} (compare : A -> A -> Z) (x : A) (l : list A) :
  Permutation (insertBy compare x l) (x :: l).
Proof.
  induction l as [|y l IH]; simpl; [apply Permutation_refl|].
  destruct (compare y x <=? 0)%Z; [|apply Permutation_refl].
  apply Permutation_trans with (y :: x :: l).
  - now apply perm_skip.
  - apply perm_swap.
Qed.

Lemma sortBy_perm {A} (compare : A -> A -> Z) (l : list A) :
  Permutation (sortBy compare l) l.
Proof.
  unfold sortBy.
  assert (G : forall acc,
             Permutation (fold_left (fun acc x => insertBy compare x acc) l acc)
                         (acc ++ l)).
  { induction l as [|x l IH]; intros acc; simpl.
    - rewrite app_nil_r. apply Permutation_refl.
    - eapply Permutation_trans; [apply IH|].
      apply Permutation_trans with ((x :: acc) ++ l).
      + apply Permutation_app_tail. apply insertBy_perm.
      + simpl. apply Permutation_middle. }
  apply (G []).
Qed.

Lemma insertSorted_longestFirst (x : string) (l : list string) :
  Sorted.StronglySorted (fun a b => (utf16Length b <= utf16Length a)%nat) l ->
  Sorted.StronglySorted (fun a b => (utf16Length b <= utf16Length a)%nat)
                 (insertSorted longestFirst x l).
Proof.
  induction l as [|y l IH]; intros H; simpl.
  - constructor; constructor.
  - inversion H as [|? ? Hl Hy]; subst.
    destruct (longestFirst y x <=? 0)%Z eqn:E.
    + apply Z.leb_le in E. unfold longestFirst in E.
      constructor; [now apply IH|].
      apply (Permutation_Forall
               (Permutation_sym (insertSorted_perm longestFirst x l))).
      constructor; [lia | exact Hy].
    + apply Z.leb_gt in E. unfold longestFirst in E.
      constructor; [exact H|].
      constructor; [lia|].
      rewrite Forall_forall in *. intros z Hz. specialize (Hy z Hz). lia.
Qed.

Lemma sort_longestFirst (l : list string) :
  Sorted.StronglySorted (fun a b => (utf16Length b <= utf16Length a)%nat)
                 (sort longestFirst l).
Proof.
  unfold sort.
  assert (G : forall acc,
             Sorted.StronglySorted (fun a b => (utf16Length b <= utf16Length a)%nat)
                            acc ->
             Sorted.StronglySorted (fun a b => (utf16Length b <= utf16Length a)%nat)
                            (fold_left
                               (fun acc x => insertSorted longestFirst x acc)
                               l acc)).
  { induction l as [|x l IH]; intros acc H; [exact H|].
    simpl. apply IH. now apply insertSorted_longestFirst. }
  apply G. constructor.
Qed.

Lemma set_of_list_is_NoDup (l : list string) :
  NoDup (set_of_list String.eqb l).
Proof.
  unfold set_of_list.
  assert (G : forall acc, NoDup acc ->
                          NoDup (fold_left (set_add String.eqb) l acc)).
  { induction l as [|x l IH]; intros acc H; [exact H|].
    simpl. apply IH. unfold set_add.
    destruct (set_has String.eqb acc x) eqn:E; [exact H|].
    apply NoDup_app; [exact H | repeat constructor; intros [] |].
    intros y Hy [<- | []].
    apply (set_has_In _ string_eqb_spec) in Hy. congruence. }
  apply G. constructor.
Qed.

Section ResultsFacts.
Variable calculateAdjustedBV : Z -> Z -> Z -> Z.
Variable localeCompare : string -> string -> Z.
Variable toLowerCase : string -> string.
Variable removeAccents : string -> string.

Local Abbreviation searchWords := (searchWords removeAccents).
Local Abbreviation filteredUnits :=
  (filteredUnits calculateAdjustedBV localeCompare toLowerCase removeAccents).
Local Abbreviation passes :=
  (passes calculateAdjustedBV toLowerCase removeAccents).

(** X20. The words that the search hands to [matchesWords] are what its
    contract asks for, and more: they are ordered from the longest to the
    shortest (in the length JavaScript gives a string), no word is there
    twice, and they are exactly the pieces of the group between white
    space, without their accents. *)
Theorem search_words_longest_first :
  forall (group : string),
    Sorted.StronglySorted (fun a b => (utf16Length b <= utf16Length a)%nat)
                   (searchWords group) /\
    NoDup (searchWords group) /\
    forall word,
      In word (searchWords group) <->
      exists piece, In piece (splitRuns false group) /\
                    piece <> EmptyString /\ word = removeAccents piece.
Proof.
  intros group. unfold searchWords.
  split; [apply sort_longestFirst|]. split.
  - apply (Permutation_NoDup (Permutation_sym (sort_perm longestFirst _))).
    apply set_of_list_is_NoDup.
  - intros word. split.
    + intros H.
      apply (Permutation_in _ (sort_perm longestFirst _)) in H.
      rewrite (In_set_of_list _ string_eqb_spec) in H.
      apply in_map_iff in H. destruct H as [piece [<- H]].
      apply filter_In in H. destruct H as [Hin Hne].
      exists piece. split; [exact Hin|]. split; [|reflexivity].
      intros ->. discriminate.
    + intros [piece [Hin [Hne ->]]].
      apply (Permutation_in _ (Permutation_sym (sort_perm longestFirst _))).
      rewrite (In_set_of_list _ string_eqb_spec).
      apply in_map. apply filter_In. split; [exact Hin|].
      destruct piece; [congruence | reflexivity].
Qed.

Lemma filteredUnits_passes (v : ViewState) :
  Permutation (filteredUnits v) (filter (passes v) (units (service v))).
Proof.
  unfold filteredUnits. cbv zeta.
  destruct (isDataReady (dataService (service v))) eqn:Er; cbn [negb].
  - eapply Permutation_trans; [apply sortBy_perm|].
    rewrite applyFilters_filter. unfold searchUnits, passes. cbv zeta.
    destruct (toLowerCase (trim (search v))) as [|c r].
    + apply Permutation_refl.
    + rewrite filter_filter.
      rewrite (filter_ext _ _
                 (fun u => eq_sym (andb_assoc _ _ _))).
      apply Permutation_refl.
  - unfold units. rewrite Er. apply Permutation_refl.
Qed.

(** X21. [filteredUnits] lists, each as often as it is loaded, exactly the
    units that pass the search and every stage of the filters; the sort
    only puts them in order.  With the data not ready it lists nothing. *)
Theorem filteredUnits_lists_passing_units :
  forall (v : ViewState),
    Permutation (filteredUnits v) (filter (passes v) (units (service v))) /\
    (isDataReady (dataService (service v)) = false -> filteredUnits v = []).
Proof.
  intros v. split; [apply filteredUnits_passes|].
  intros H. unfold filteredUnits. now rewrite H.
Qed.

(** X22. After [clearFilters] the result list holds every loaded unit:
    the search text and the filters are gone, and only the order by name
    is left. *)
Theorem clearFilters_shows_all_units :
  forall (v : ViewState),
    toLowerCase EmptyString = EmptyString ->
    Permutation (filteredUnits (clearFilters v)) (units (service v)).
Proof.
  intros v Hlow.
  eapply Permutation_trans; [apply filteredUnits_passes|].
  assert (Hu : units (service (clearFilters v)) = units (service v))
    by reflexivity.
  rewrite Hu.
  rewrite (filter_ext _ (fun _ => true)); [now rewrite filter_true|].
  intros u. unfold passes. cbn [clearFilters search filterState trim
                                     trimStart trimEnd].
  rewrite Hlow. cbn [andb].
  apply andb_true_iff. split; [reflexivity|].
  apply forallb_forall. intros conf _. now apply standardKeeps_absent.
Qed.

End ResultsFacts.

Lemma clearFilters_shows_all_units_witness :
  ExampleView.lower EmptyString = EmptyString /\
  Permutation
    (filteredUnits Example.adjust Example.byCode ExampleView.lower
                   ExampleView.plain (clearFilters ExampleView.view))
    [Example.atlas; Example.locust; Example.trooper].
Proof.
  split; [reflexivity|].
  exact (clearFilters_shows_all_units
           Example.adjust Example.byCode ExampleView.lower ExampleView.plain
           ExampleView.view eq_refl).
Defined.

(* ================================================================== *)
(** ** Natural order and the order of the options *)
(* ================================================================== *)

Lemma span_app (p : ascii -> bool) (x y : string) :
  forallb p (list_ascii_of_string x) = true ->
  (forall c r, y = String c r -> p c = false) ->
  span p (x ++ y) = (x, y).
Proof.
  intros Hx Hy. induction x as [|a x IH].
  - simpl. destruct y as [|c r]; [reflexivity|].
    simpl. now rewrite (Hy c r eq_refl).
  - simpl in Hx. apply andb_true_iff in Hx. destruct Hx as [Ha Hx].
    simpl. now rewrite Ha, (IH Hx).
Qed.

Lemma digitsValue_toString (z : Z) :
  (0 <= z)%Z -> digitsValue (Num.toString z) = z.
Proof.
  intros H. unfold Num.toString. destruct z as [|p|p]; [reflexivity| |lia].
  apply digits_value_pos.
Qed.

Lemma toString_head (z : Z) :
  (0 <= z)%Z ->
  exists c r, Num.toString z = String c r /\ isDigit c = true.
Proof.
  intros H. pose proof (toString_digits z H) as Hd.
  destruct (Num.toString z) as [|c r] eqn:E.
  - exfalso. unfold Num.toString in E. destruct z as [|p|p]; try lia.
    + discriminate.
    + now apply (digits_nonempty p).
  - exists c, r. split; [reflexivity|].
    simpl in Hd. now apply andb_true_iff in Hd.
Qed.

Lemma matchNatural_numbered (p s : string) (z : Z) :
  forallb (fun c => negb (isDigit c)) (list_ascii_of_string p) = true ->
  (forall c r, s = String c r -> isDigit c = false) ->
  hasLineTerminator s = false -> (0 <= z)%Z ->
  matchNatural (p ++ Num.toString z ++ s)
  = Some (p, Some (Num.toString z), s).
Proof.
  intros Hp Hs Hl Hz. unfold matchNatural.
  destruct (toString_head z Hz) as [c [r [E Hc]]].
  rewrite (span_app (fun c => negb (isDigit c)) p (Num.toString z ++ s) Hp).
  - rewrite (span_app isDigit (Num.toString z) s (toString_digits z Hz) Hs).
    rewrite Hl. now rewrite E.
  - intros c' r' E'. rewrite E in E'. simpl in E'. inversion E'; subst.
    now rewrite Hc.
Qed.

Section OrderingFacts.
Variable localeCompare : string -> string -> Z.

Local Abbreviation naturalCompare := (naturalCompare localeCompare).
Local Abbreviation smartDropdownSort := (smartDropdownSort localeCompare).
Local Abbreviation smartSortStep := (smartSortStep localeCompare).

(** X23. Numbers in names are compared as numbers.  Two names that differ
    only in the first number in them (the text in front has no digit, the
    text behind does not go on with one and is on one line, and the
    numbers are at most [Number.MAX_SAFE_INTEGER], so that JavaScript
    holds them exactly) compare as their numbers do: a 2 stands before a
    10. *)
Theorem naturalCompare_by_number :
  forall (p s : string) (x y : Z),
    forallb (fun c => negb (isDigit c)) (list_ascii_of_string p) = true ->
    (forall c r, s = String c r -> isDigit c = false) ->
    hasLineTerminator s = false ->
    (0 <= x <= Num.MAX_SAFE_INTEGER)%Z ->
    (0 <= y <= Num.MAX_SAFE_INTEGER)%Z ->
    naturalCompare (p ++ Num.toString x ++ s) (p ++ Num.toString y ++ s)
    = (x - y)%Z.
Proof.
  intros p s x y Hp Hs Hl [Hx _] [Hy _]. unfold naturalCompare. cbv zeta.
  rewrite (matchNatural_numbered p s x Hp Hs Hl Hx).
  rewrite (matchNatural_numbered p s y Hp Hs Hl Hy).
  rewrite String.eqb_refl.
  now rewrite !digitsValue_toString.
Qed.

(** X24. [naturalCompare] is antisymmetric when [localeCompare] is:
    swapping the two names changes the sign of the result, so that the
    order it gives does not depend on which name comes first. *)
Theorem naturalCompare_antisymmetric :
  forall (a b : string),
    (forall x y, localeCompare y x = (- localeCompare x y)%Z) ->
    naturalCompare b a = (- naturalCompare a b)%Z.
Proof.
  intros a b Hanti. unfold naturalCompare. cbv zeta.
  destruct (matchNatural a) as [[[a1 [a2|]] a3]|];
    destruct (matchNatural b) as [[[b1 [b2|]] b3]|];
    rewrite (String.eqb_sym);
    match goal with
    | |- context [String.eqb ?x ?y] => destruct (String.eqb x y)
    end;
    try apply Hanti; try reflexivity; lia.
Qed.

Lemma no_wildcard_fold (options : list string) (order done : list string) :
  NoDup (done ++ order) ->
  (forall o, In o order -> endsWithChar o "*" = false) ->
  fold_left smartSortStep order
            (filter (set_has String.eqb options) done,
             filter (fun o => negb (set_has String.eqb done o))
                    (set_of_list String.eqb options))
  = (filter (set_has String.eqb options) (done ++ order),
     filter (fun o => negb (set_has String.eqb (done ++ order) o))
            (set_of_list String.eqb options)).
Proof.
  revert done. induction order as [|opt order IH]; intros done Hnd Hw.
  - now rewrite app_nil_r.
  - cbn [fold_left]. unfold smartSortStep at 2.
    rewrite (Hw opt (or_introl eq_refl)).
    assert (Hopt : ~ In opt done).
    { intros Hin. apply NoDup_remove_2 in Hnd. apply Hnd.
      apply in_or_app. now left. }
    assert (Hhas : set_has String.eqb
                           (filter (fun o => negb (set_has String.eqb done o))
                                   (set_of_list String.eqb options)) opt
                   = set_has String.eqb options opt).
    { apply eq_true_iff_eq. rewrite !(set_has_In _ string_eqb_spec).
      rewrite filter_In, (In_set_of_list _ string_eqb_spec).
      split; [tauto|]. intros H. split; [exact H|].
      apply negb_true_iff. apply Bool.not_true_iff_false.
      rewrite (set_has_In _ string_eqb_spec). exact Hopt. }
    rewrite Hhas.
    assert (Hdone : filter (set_has String.eqb options) (done ++ [opt])
                    = if set_has String.eqb options opt
                      then filter (set_has String.eqb options) done ++ [opt]
                      else filter (set_has String.eqb options) done).
    { rewrite filter_app. cbn [filter].
      destruct (set_has String.eqb options opt);
        [reflexivity | apply app_nil_r]. }
    assert (Hset : filter (fun o => negb (set_has String.eqb (done ++ [opt]) o))
                          (set_of_list String.eqb options)
                   = if set_has String.eqb options opt
                     then set_delete String.eqb
                            (filter (fun o => negb (set_has String.eqb done o))
                                    (set_of_list String.eqb options)) opt
                     else filter (fun o => negb (set_has String.eqb done o))
                                 (set_of_list String.eqb options)).
    { assert (Hsplit : forall o,
                 set_has String.eqb (done ++ [opt]) o
                 = set_has String.eqb done o || String.eqb o opt).
      { intros o. unfold set_has. rewrite existsb_app. cbn [existsb].
        now rewrite orb_false_r. }
      destruct (set_has String.eqb options opt) eqn:E.
      - unfold set_delete. rewrite filter_filter.
        apply filter_ext. intros o. rewrite Hsplit, negb_orb.
        now rewrite (String.eqb_sym opt o).
      - apply filter_ext_in. intros o Ho. rewrite Hsplit.
        rewrite (In_set_of_list _ string_eqb_spec) in Ho.
        destruct (String.eqb o opt) eqn:Eo; [|now rewrite orb_false_r].
        apply String.eqb_eq in Eo. subst o.
        apply (proj2 (set_has_In _ string_eqb_spec options opt)) in Ho.
        congruence. }
    replace (if set_has String.eqb options opt
             then (filter (set_has String.eqb options) done ++ [opt],
                   set_delete String.eqb
                     (filter (fun o => negb (set_has String.eqb done o))
                             (set_of_list String.eqb options)) opt)
             else (filter (set_has String.eqb options) done,
                   filter (fun o => negb (set_has String.eqb done o))
                          (set_of_list String.eqb options)))
      with (filter (set_has String.eqb options) (done ++ [opt]),
            filter (fun o => negb (set_has String.eqb (done ++ [opt]) o))
                   (set_of_list String.eqb options))
      by (rewrite Hdone, Hset;
          now destruct (set_has String.eqb options opt)).
    rewrite IH.
    + now rewrite <- app_assoc.
    + now rewrite <- app_assoc.
    + intros o Ho. apply Hw. now right.
Qed.

(** X25. With a predefined order that has no wildcard entry, the options
    come out in two parts: first the predefined names that are among the
    options, in the predefined order, then the other options, each once,
    in the order [smartDropdownSort] gives them when it is called without
    a predefined order. *)
Theorem smartSort_predefined_first :
  forall (options order : list string),
    order <> [] -> NoDup order ->
    (forall o, In o order -> endsWithChar o "*" = false) ->
    smartDropdownSort options (Some order)
    = filter (set_has String.eqb options) order
      ++ smartDropdownSort
           (filter (fun o => negb (set_has String.eqb order o))
                   (set_of_list String.eqb options))
           None.
Proof.
  intros options order Hne Hnd Hw. unfold smartDropdownSort.
  destruct order as [|o order]; [congruence|]. cbv zeta.
  pose proof (no_wildcard_fold options (o :: order) [] Hnd Hw) as H.
  cbn [filter app set_has existsb negb] in H.
  rewrite filter_true in H.
  rewrite H. reflexivity.
Qed.

End OrderingFacts.

Lemma naturalCompare_by_number_witness :
  naturalCompare Example.byCode "Light 2 ton" "Light 10 ton" = (-8)%Z.
Proof.
  apply (naturalCompare_by_number Example.byCode "Light " " ton" 2 10);
    [reflexivity | | reflexivity | | ];
    try (unfold Num.MAX_SAFE_INTEGER; lia).
  intros c r H. inversion H. reflexivity.
Defined.

Lemma naturalCompare_antisymmetric_witness :
  (forall x y, Example.byCode y x = (- Example.byCode x y)%Z) /\
  naturalCompare Example.byCode "Medium" "Light 2"
  = (- naturalCompare Example.byCode "Light 2" "Medium")%Z.
Proof.
  assert (H : forall x y, Example.byCode y x = (- Example.byCode x y)%Z).
  { intros x y. unfold Example.byCode.
    rewrite (String.compare_antisym x y).
    destruct (String.compare y x); reflexivity. }
  split; [exact H|].
  exact (naturalCompare_antisymmetric Example.byCode "Light 2" "Medium" H).
Defined.

Lemma smartSort_predefined_first_witness :
  smartDropdownSort
    Example.byCode ["Advanced"; "Era Specific"; "Standard"]
    (Some ["Introductory"; "Standard"; "Advanced"; "Experimental";
           "Unofficial"])
  = ["Standard"; "Advanced"; "Era Specific"].
Proof.
  apply (smartSort_predefined_first
           Example.byCode ["Advanced"; "Era Specific"; "Standard"]
           ["Introductory"; "Standard"; "Advanced"; "Experimental";
            "Unofficial"]).
  - discriminate.
  - repeat constructor; simpl; intuition discriminate.
  - intros o [<- | [<- | [<- | [<- | [<- | []]]]]]; reflexivity.
Defined.

(* ================================================================== *)
(** ** The filters through the URL: two decodings *)
(* ================================================================== *)

Lemma writeParts_encode (st : FilterState) :
  flat_map (fun e => encodeEntry (fst e) (snd e)) st
  = writeParts encodeURIComponent st.
Proof. reflexivity. Qed.

(* ------------------------------------------------------------------ *)
(** *** [decodeURIComponent] on a text put together from parts *)

Lemma unescape_app (a b : string) (la lb : list (bool * nat)) :
  unescape a = Some la -> unescape b = Some lb ->
  unescape (a ++ b) = Some (la ++ lb).
Proof.
  assert (G : forall fuel a la, (String.length a < fuel)%nat ->
                                unescape a = Some la -> unescape b = Some lb ->
                                unescape (a ++ b) = Some (la ++ lb)).
  { induction fuel as [|fuel IH]; intros x lx Hn Hx Hb; [lia|].
    destruct x as [|c r].
    - simpl in Hx. inversion Hx; subst. exact Hb.
    - cbn [unescape] in Hx. cbn [append unescape].
      destruct (Ascii.eqb c "%").
      + destruct r as [|h1 [|h2 r']]; try discriminate.
        cbn [append].
        destruct (hexValue h1) as [x1|]; [|discriminate].
        destruct (hexValue h2) as [x2|]; [|discriminate].
        destruct (unescape r') as [l'|] eqn:E; [|discriminate].
        inversion Hx; subst.
        rewrite (IH r' l'); [reflexivity | simpl in Hn; lia | exact E
                             | exact Hb].
      + destruct (unescape r) as [l'|] eqn:E; [|discriminate].
        simpl in Hx. inversion Hx; subst.
        rewrite (IH r l'); [reflexivity | simpl in Hn; lia | exact E
                            | exact Hb]. }
  intros Ha Hb. apply (G (S (String.length a)) a la); auto.
Qed.

Lemma wellFormed_idle (lo hi : nat) (l : list (bool * nat)) :
  wellFormed 0 lo hi l = wellFormed 0 0 0 l.
Proof. destruct l as [|[e b] l]; reflexivity. Qed.

Lemma wellFormed_app (pending lo hi : nat) (la lb : list (bool * nat)) :
  wellFormed pending lo hi la = true ->
  wellFormed pending lo hi (la ++ lb) = wellFormed 0 0 0 lb.
Proof.
  revert pending lo hi. induction la as [|[e b] la IH]; intros p lo hi H.
  - simpl in H. apply Nat.eqb_eq in H. subst p. apply wellFormed_idle.
  - cbn [app wellFormed] in *.
    destruct (p =? 0)%nat.
    + repeat match type of H with
             | (if ?c then _ else _) = true => destruct c
             end; try discriminate; now apply IH.
    + apply andb_true_iff in H. destruct H as [H1 H2].
      rewrite H1. cbn [andb]. now apply IH.
Qed.

Lemma string_of_list_app (x y : list ascii) :
  string_of_list_ascii (x ++ y)
  = (string_of_list_ascii x ++ string_of_list_ascii y)%string.
Proof. induction x as [|c x IH]; simpl; [reflexivity | now rewrite IH]. Qed.

Lemma decode_app (a b a' b' : string) :
  decodeURIComponent a = Some a' -> decodeURIComponent b = Some b' ->
  decodeURIComponent (a ++ b) = Some (a' ++ b')%string.
Proof.
  unfold decodeURIComponent.
  destruct (unescape a) as [la|] eqn:Ea; [|discriminate].
  destruct (unescape b) as [lb|] eqn:Eb; [|discriminate].
  destruct (wellFormed 0 0 0 la) eqn:Wa; [|discriminate].
  destruct (wellFormed 0 0 0 lb) eqn:Wb; [|discriminate].
  intros Ha Hb. inversion Ha; inversion Hb; subst.
  rewrite (unescape_app a b la lb Ea Eb).
  rewrite (wellFormed_app 0 0 0 la lb Wa), Wb.
  now rewrite map_app, string_of_list_app.
Qed.

(** A text without [%] is decoded to itself. *)
Lemma decode_plain (s : string) :
  indexOfChar s "%" = None -> decodeURIComponent s = Some s.
Proof.
  intros H.
  assert (Hu : unescape s
               = Some (map (fun c => (false, nat_of_ascii c))
                           (list_ascii_of_string s))).
  { induction s as [|c r IH]; [reflexivity|].
    cbn [indexOfChar] in H. cbn [unescape].
    destruct (Ascii.eqb c "%"); [discriminate|].
    destruct (indexOfChar r "%"); [discriminate|].
    now rewrite IH. }
  unfold decodeURIComponent. rewrite Hu.
  assert (Hw : wellFormed 0 0 0
                 (map (fun c => (false, nat_of_ascii c))
                      (list_ascii_of_string s)) = true).
  { clear. induction (list_ascii_of_string s) as [|c l IH]; [reflexivity|].
    exact IH. }
  rewrite Hw. f_equal. rewrite map_map. cbn [snd].
  clear. induction s as [|c r IH]; [reflexivity|].
  simpl. now rewrite ascii_nat_embedding, IH.
Qed.

Lemma decode_concat (sep : string) (l l' : list string) :
  indexOfChar sep "%" = None ->
  Forall2 (fun a a' => decodeURIComponent a = Some a') l l' ->
  decodeURIComponent (String.concat sep l) = Some (String.concat sep l').
Proof.
  intros Hs H. induction H as [|a a' l l' Ha Hl IH]; [reflexivity|].
  destruct Hl as [|b b' l l' Hb Hl].
  - exact Ha.
  - change (String.concat sep (a :: b :: l))
      with (a ++ sep ++ String.concat sep (b :: l))%string.
    change (String.concat sep (a' :: b' :: l'))
      with (a' ++ sep ++ String.concat sep (b' :: l'))%string.
    apply decode_app; [exact Ha|].
    apply decode_app; [now apply decode_plain | exact IH].
Qed.

Lemma toString_no_percent (z : Z) : indexOfChar (Num.toString z) "%" = None.
Proof.
  apply indexOfChar_None_iff. intros H. apply toString_chars in H.
  destruct H as [H | H]; discriminate.
Qed.

Lemma no_char_app (a b : string) (c : ascii) :
  indexOfChar a c = None -> indexOfChar b c = None ->
  indexOfChar (a ++ b) c = None.
Proof.
  rewrite !indexOfChar_None_iff, chars_append. intros Ha Hb H.
  apply in_app_or in H. tauto.
Qed.

Lemma key_no_percent (conf : AdvFilterConfig) :
  In conf ADVANCED_FILTERS -> indexOfChar (key conf) "%" = None.
Proof.
  intros H. simpl in H.
  repeat (destruct H as [<- | H]; [reflexivity|]). destruct H.
Qed.

(** One decoding of a written item gives the item with its name as it
    is. *)
Lemma writeSelectionEntry_decoded (name : string) (sv : SelectionValue) :
  utf8 name = true ->
  decodeURIComponent (writeSelectionEntry encodeURIComponent name sv)
  = Some (writeSelectionEntry (fun n => n) name sv).
Proof.
  intros Hu. unfold writeSelectionEntry. cbv zeta.
  assert (Hpart : decodeURIComponent
                    (match state sv with
                     | st_and => encodeURIComponent name ++ "."
                     | st_not => encodeURIComponent name ++ "!"
                     | _ => encodeURIComponent name
                     end)%string
                  = Some (match state sv with
                          | st_and => name ++ "."
                          | st_not => name ++ "!"
                          | _ => name
                          end)%string).
  { destruct (state sv); try (now apply decode_encode);
      (apply decode_app; [now apply decode_encode | reflexivity]). }
  destruct (1 <? count sv)%Z; [|exact Hpart].
  apply decode_app; [exact Hpart|].
  apply decode_plain.
  change ("~" ++ Num.toString (count sv))%string
    with (String "~" (Num.toString (count sv))).
  cbn [indexOfChar]. change (Ascii.eqb "~" "%") with false. cbv iota.
  now rewrite toString_no_percent.
Qed.

Lemma segment_decoded (k payload payload' : string) :
  indexOfChar k "%" = None ->
  decodeURIComponent payload = Some payload' ->
  decodeURIComponent (k ++ ":" ++ payload) = Some (k ++ ":" ++ payload')%string.
Proof.
  intros Hk Hp. apply decode_app; [now apply decode_plain|].
  now apply (decode_app ":" payload ":" payload').
Qed.

Lemma writeEntry_decoded (k : string) (e : FilterEntry) :
  (interactedWith e = true ->
   forall name, In name (namesOfValue (value e)) -> utf8 name = true) ->
  Forall2 (fun a a' => decodeURIComponent a = Some a')
          (writeEntry encodeURIComponent k e) (writeEntry (fun n => n) k e).
Proof.
  intros Hu. unfold writeEntry.
  destruct (interactedWith e); cbn [negb]; [|constructor].
  specialize (Hu eq_refl).
  destruct (findConf k) as [conf|] eqn:Hf; [|constructor].
  destruct (findConf_key k conf Hf) as [Ek Hin].
  pose proof (key_no_percent conf Hin) as Hk. rewrite Ek in Hk.
  destruct (type conf).
  - destruct (multistate conf).
    + destruct (value e) as [names|selection|lo hi]; try constructor.
      cbn [namesOfValue] in Hu. cbv zeta.
      assert (Hitems :
                Forall2 (fun a a' => decodeURIComponent a = Some a')
                        (flat_map
                           (fun e0 =>
                              if negb (MultiState_eqb (state (snd e0)) st_off)
                              then [writeSelectionEntry encodeURIComponent
                                                        (fst e0) (snd e0)]
                              else []) selection)
                        (flat_map
                           (fun e0 =>
                              if negb (MultiState_eqb (state (snd e0)) st_off)
                              then [writeSelectionEntry (fun n => n)
                                                        (fst e0) (snd e0)]
                              else []) selection)).
      { unfold dropOff, obj_keys in Hu.
        induction selection as [|[name sv] selection IH]; [constructor|].
        cbn [flat_map fst snd]. cbn [filter map fst snd] in Hu.
        destruct (negb (MultiState_eqb (state sv) st_off)) eqn:E.
        - cbn [app]. constructor.
          + apply writeSelectionEntry_decoded. apply Hu. now left.
          + apply IH. intros nm Hn. apply Hu. now right.
        - cbn [app]. apply IH. exact Hu. }
      destruct Hitems as [|a a' l l' Ha Hl]; [constructor|].
      constructor; [|constructor].
      apply segment_decoded; [exact Hk|].
      apply decode_concat; [reflexivity | now constructor].
    + destruct (value e) as [[|x names]|selection|lo hi]; try constructor;
        [|constructor].
      cbn [namesOfValue] in Hu.
      apply segment_decoded; [exact Hk|].
      apply decode_concat; [reflexivity|].
      rewrite map_id.
      assert (G : forall l, (forall name, In name l -> utf8 name = true) ->
                            Forall2 (fun a a' => decodeURIComponent a = Some a')
                                    (map encodeURIComponent l) l).
      { induction l as [|y l IH]; intros H; [constructor|].
        constructor; [apply decode_encode; apply H; now left|].
        apply IH. intros nm Hn. apply H. now right. }
      now apply G.
  - destruct (value e) as [names|selection|lo hi]; try constructor;
      [|constructor].
    apply decode_plain.
    repeat apply no_char_app; try reflexivity; try apply toString_no_percent.
    exact Hk.
Qed.

Lemma writeParts_decoded (st : FilterState) :
  (forall k e, In (k, e) st -> interactedWith e = true ->
               forall name, In name (namesOfValue (value e)) ->
                            utf8 name = true) ->
  Forall2 (fun a a' => decodeURIComponent a = Some a')
          (writeParts encodeURIComponent st) (writeParts (fun n => n) st).
Proof.
  induction st as [|[k e] st IH]; intros H; [constructor|].
  unfold writeParts. cbn [flat_map fst snd].
  apply Forall2_app.
  - apply writeEntry_decoded. intros Ht name Hn.
    now apply (H k e (or_introl eq_refl) Ht).
  - apply IH. intros k' e' Hin. apply (H k' e'). now right.
Qed.

(* ------------------------------------------------------------------ *)
(** *** Reading the decoded string *)

Lemma decodeAll_plain (names : list string) :
  (forall name, In name names -> indexOfChar name "%" = None) ->
  decodeAll names = Some names.
Proof.
  induction names as [|x names IH]; intros H; [reflexivity|].
  simpl. rewrite decode_plain by (apply H; now left).
  rewrite IH by (intros name Hn; apply H; now right). reflexivity.
Qed.

Lemma parsePart_names_decoded (fs : FilterState) (k : string)
      (conf : AdvFilterConfig) (names : list string) :
  findConf k = Some conf -> type conf = DROPDOWN -> multistate conf = false ->
  names <> [] ->
  (forall name, In name names ->
                name <> EmptyString /\ indexOfChar name "%" = None /\
                indexOfChar name "," = None) ->
  parsePart fs (k ++ ":" ++ join "," names)
  = Some (obj_set fs k (mkEntry (VNames names) true)).
Proof.
  intros Hf Ht Hm Hne Hsafe.
  destruct (findConf_key k conf Hf) as [Ek Hin].
  destruct (key_plain conf Hin) as [Hcolon _]. rewrite Ek in Hcolon.
  destruct (segment_colon k (join "," names) Hcolon) as [H1 [H2 H3]].
  unfold parsePart. rewrite H1, H2, H3, Hf, Ht, Hm.
  unfold join. rewrite split_join_char.
  - rewrite filter_all.
    + rewrite decodeAll_plain by (intros name Hn; now apply Hsafe).
      destruct names; [congruence | reflexivity].
    + intros x Hx. apply negb_true_iff, String.eqb_neq. now apply Hsafe.
  - exact Hne.
  - apply Forall_forall. intros x Hx. now apply Hsafe.
Qed.

Lemma parseSelectionItem_decoded (name : string) (sv : SelectionValue) :
  plainName name -> indexOfChar name "%" = None ->
  state sv <> st_off -> (1 <= count sv)%Z ->
  ((1 < count sv)%Z -> state sv = st_or) ->
  parseSelectionItem (writeSelectionEntry (fun n => n) name sv)
  = Some (name, sv).
Proof.
  intros [Hu [Etilde [Edot [Ebang _]]]] Hpc Hoff Hc Hor.
  destruct sv as [s cnt].
  simpl in Hoff, Hc, Hor.
  unfold writeSelectionEntry, parseSelectionItem. cbn [state count].
  destruct (1 <? cnt)%Z eqn:Ec.
  - apply Z.ltb_lt in Ec. rewrite (Hor Ec).
    set (num := Num.toString cnt).
    assert (Hnum : forallb isDigit (list_ascii_of_string num) = true)
      by (apply toString_digits; lia).
    assert (Hnn : num <> EmptyString).
    { unfold num, Num.toString. destruct cnt as [|p|p]; try lia.
      apply digits_nonempty. }
    assert (Hend : forall c, isDigit c = false ->
                             endsWithChar (name ++ "~" ++ num) c = false).
    { intros c Hcd.
      change (name ++ "~" ++ num)%string
        with (name ++ (String "~" num))%string.
      rewrite endsWithChar_app by discriminate.
      destruct (endsWithChar (String "~" num) c) eqn:E; [|reflexivity].
      exfalso. destruct num as [|d num']; [congruence|].
      change (endsWithChar (String "~" (String d num')) c)
        with (endsWithChar (String d num') c) in E.
      apply endsWithChar_In in E.
      now apply (digits_no_char (String d num') c Hnum Hcd). }
    rewrite (Hend "."%char eq_refl), (Hend "!"%char eq_refl).
    change (name ++ "~" ++ num)%string with (name ++ String "~" num)%string.
    rewrite (indexOfChar_append "~" name num Etilde).
    rewrite take_append, drop_append_char.
    unfold num. destruct (parse_toString cnt) as [_ ->].
    assert (E0 : (cnt =? 0)%Z = false) by (apply Z.eqb_neq; lia).
    rewrite E0. now rewrite decode_plain.
  - apply Z.ltb_ge in Ec. assert (cnt = 1%Z) by lia. subst cnt.
    destruct s; try congruence.
    + rewrite Edot, Ebang, Etilde. now rewrite decode_plain.
    + change (name ++ ".")%string
        with (name ++ String "." EmptyString)%string.
      rewrite endsWithChar_app by discriminate. cbn [endsWithChar].
      change (Ascii.eqb "." ".") with true. cbv iota.
      rewrite dropLast_snoc, Etilde. now rewrite decode_plain.
    + change (name ++ "!")%string
        with (name ++ String "!" EmptyString)%string.
      rewrite !endsWithChar_app by discriminate. cbn [endsWithChar].
      change (Ascii.eqb "!" ".") with false.
      change (Ascii.eqb "!" "!") with true. cbv iota.
      rewrite dropLast_snoc, Etilde. now rewrite decode_plain.
Qed.

Lemma written_entries (selection : MultiStateSelection) :
  flat_map (fun e => if negb (MultiState_eqb (state (snd e)) st_off)
                     then [writeSelectionEntry (fun n => n) (fst e) (snd e)]
                     else []) selection
  = map (fun e => writeSelectionEntry (fun n => n) (fst e) (snd e))
        (dropOff selection).
Proof.
  unfold dropOff. induction selection as [|e l IH]; [reflexivity|].
  simpl. destruct (negb (MultiState_eqb (state (snd e)) st_off)); simpl;
    now rewrite IH.
Qed.

(** A written item holds a bar or a comma only if its name does. *)
Lemma writeSelectionEntry_no_char (name : string) (sv : SelectionValue)
      (c : ascii) :
  unreserved c = false -> indexOfChar name c = None -> (0 <= count sv)%Z ->
  indexOfChar (writeSelectionEntry (fun n => n) name sv) c = None.
Proof.
  intros Hu Hn Hc.
  assert (Hd : isDigit c = false).
  { destruct (isDigit c) eqn:E; [|reflexivity].
    exfalso. clear -Hu E. destruct c as [[] [] [] [] [] [] [] []];
      discriminate. }
  assert (H1 : c <> "."%char) by (intros ->; discriminate).
  assert (H2 : c <> "!"%char) by (intros ->; discriminate).
  assert (H3 : c <> "~"%char) by (intros ->; discriminate).
  unfold writeSelectionEntry. cbv zeta.
  assert (Hpart : indexOfChar (match state sv with
                               | st_and => name ++ "."
                               | st_not => name ++ "!"
                               | _ => name
                               end)%string c = None).
  { destruct (state sv); try exact Hn;
      (apply no_char_app; [exact Hn|]); cbn [indexOfChar];
      match goal with
      | |- context [Ascii.eqb ?x c] => destruct (Ascii.eqb x c) eqn:E
      end; try reflexivity; apply Ascii.eqb_eq in E; congruence. }
  destruct (1 <? count sv)%Z; [|exact Hpart].
  apply no_char_app; [exact Hpart|].
  change ("~" ++ Num.toString (count sv))%string
    with (String "~" (Num.toString (count sv))).
  cbn [indexOfChar].
  destruct (Ascii.eqb "~" c) eqn:E;
    [apply Ascii.eqb_eq in E; congruence|].
  assert (G : indexOfChar (Num.toString (count sv)) c = None).
  { apply indexOfChar_None_iff.
    apply digits_no_char; [now apply toString_digits | exact Hd]. }
  now rewrite G.
Qed.

Lemma parsePart_selection_decoded (fs : FilterState) (k : string)
      (conf : AdvFilterConfig) (selection : MultiStateSelection) :
  findConf k = Some conf -> type conf = DROPDOWN -> multistate conf = true ->
  NoDup (obj_keys selection) -> dropOff selection <> [] ->
  (forall name sv,
      In (name, sv) (dropOff selection) ->
      plainName name /\ (1 <= count sv)%Z /\ safeInteger (count sv) /\
      ((1 < count sv)%Z -> state sv = st_or)) ->
  (forall name, In name (obj_keys (dropOff selection)) -> urlName name) ->
  parsePart fs
    (k ++ ":" ++
       join "," (map (fun e => writeSelectionEntry (fun n => n)
                                                   (fst e) (snd e))
                     (dropOff selection)))
  = Some (obj_set fs k (mkEntry (VSelection (dropOff selection)) true)).
Proof.
  intros Hf Ht Hm Hnd Hne Hsafe Hurl.
  destruct (findConf_key k conf Hf) as [Ek Hin].
  destruct (key_plain conf Hin) as [Hcolon _]. rewrite Ek in Hcolon.
  set (act := dropOff selection) in *.
  assert (Hname : forall name sv, In (name, sv) act -> urlName name).
  { intros name sv Hi. apply Hurl. unfold obj_keys.
    apply in_map_iff. now exists (name, sv). }
  destruct (segment_colon
              k (join "," (map (fun e => writeSelectionEntry
                                           (fun n => n) (fst e) (snd e))
                               act)) Hcolon) as [H1 [H2 H3]].
  unfold parsePart. rewrite H1, H2, H3, Hf, Ht, Hm.
  unfold join. rewrite split_join_char.
  - assert (G : forall entries acc,
               (forall name sv, In (name, sv) entries ->
                                parseSelectionItem
                                  (writeSelectionEntry (fun n => n) name sv)
                                = Some (name, sv) /\ name <> "__proto__") ->
               parseSelectionItems
                 (map (fun e => writeSelectionEntry (fun n => n)
                                                    (fst e) (snd e)) entries)
                 acc
               = Some (fold_left
                         (fun m p => assoc_set String.eqb m (fst p) (snd p))
                         entries acc)).
    { induction entries as [|[name sv] entries IH]; intros acc H;
        [reflexivity|].
      cbn [map parseSelectionItems fst snd fold_left].
      destruct (H name sv (or_introl eq_refl)) as [Hparse Hproto].
      rewrite Hparse. unfold obj_assign.
      apply String.eqb_neq in Hproto. rewrite Hproto.
      apply IH. intros nm s Hi. apply H. now right. }
    rewrite G.
    + change (fold_left (fun m p => assoc_set String.eqb m (fst p) (snd p))
                        act [])
        with (assoc_of_pairs String.eqb act).
      rewrite assoc_of_pairs_NoDup.
      * destruct act; [congruence | reflexivity].
      * apply (NoDup_keys_filter _ selection Hnd).
    + intros name sv Hi. destruct (Hsafe name sv Hi) as [Hp [Hc [_ Hor]]].
      split; [|now destruct Hp as [_ [_ [_ [_ [Hproto _]]]]]].
      apply parseSelectionItem_decoded; try assumption.
      * now destruct (Hname name sv Hi).
      * unfold act, dropOff in Hi. apply filter_In in Hi.
        destruct Hi as [_ Hi]. simpl in Hi. intros E. rewrite E in Hi.
        discriminate.
  - destruct act; [congruence | discriminate].
  - apply Forall_forall. intros x Hx. apply in_map_iff in Hx.
    destruct Hx as [[name sv] [<- Hi]].
    apply writeSelectionEntry_no_char; [reflexivity | |].
    + now destruct (Hname name sv Hi) as [_ [H _]].
    + destruct (Hsafe name sv Hi) as [_ [Hc _]]. simpl. lia.
Qed.

(** What one decoding leaves of the segment of a touched entry: one
    segment, without a bar, that [parseCompactFiltersFromUrl] reads as the
    entry. *)
Lemma writeEntry_decoded_safe (k : string) (conf : AdvFilterConfig)
      (v : FilterValue) :
  findConf k = Some conf -> CodecSafe conf v ->
  (forall name, In name (namesOfValue v) -> urlName name) ->
  exists seg,
    writeEntry (fun n => n) k (mkEntry v true) = [seg] /\ noBar seg /\
    forall fs, parsePart fs seg
               = Some (obj_set fs k (mkEntry (restored v) true)).
Proof.
  intros Hf Hs Hurl.
  destruct (findConf_key k conf Hf) as [Ek Hin].
  destruct (key_plain conf Hin) as [_ Hbar]. rewrite Ek in Hbar.
  unfold writeEntry. cbn [interactedWith value negb]. rewrite Hf.
  destruct Hs as [lo hi Ht Hlo Hslo Hshi | names Ht Hm Hne Hsafe
                 | selection Ht Hm Hnd Hne Hsafe]; rewrite Ht.
  - eexists. split; [reflexivity|]. split.
    + apply noBar_segment; [exact Hbar|].
      apply indexOfChar_None_iff. rewrite !chars_append. intros H.
      apply in_app_or in H. destruct H as [H | H].
      * apply toString_chars in H. destruct H as [H | H]; discriminate.
      * apply in_app_or in H. destruct H as [[H | []] | H]; [discriminate|].
        apply toString_chars in H. destruct H as [H | H]; discriminate.
    + intros fs. now apply (parsePart_range fs k conf).
  - rewrite Hm. destruct names as [|x names]; [congruence|].
    rewrite map_id. cbn [namesOfValue] in Hurl.
    eexists. split; [reflexivity|]. split.
    + apply noBar_segment; [exact Hbar|]. apply noBar_joined.
      intros y Hy. now destruct (Hurl y Hy) as [_ [_ H]].
    + intros fs. apply (parsePart_names_decoded fs k conf); auto.
      intros name Hn. destruct (Hurl name Hn) as [Hp [Hc _]].
      destruct (Hsafe name Hn) as [_ Hnn]. auto.
  - rewrite Hm, written_entries. cbn [namesOfValue] in Hurl.
    destruct (map (fun e => writeSelectionEntry (fun n => n) (fst e) (snd e))
                  (dropOff selection)) as [|i items] eqn:E.
    + destruct (dropOff selection); [congruence | discriminate].
    + rewrite <- E. eexists. split; [reflexivity|]. split.
      * apply noBar_segment; [exact Hbar|]. apply noBar_joined.
        intros y Hy. apply in_map_iff in Hy.
        destruct Hy as [[name sv] [<- Hi]].
        apply writeSelectionEntry_no_char; [reflexivity | |].
        -- assert (Hk : In name (obj_keys (dropOff selection)))
             by (unfold obj_keys; apply in_map_iff; now exists (name, sv)).
           now destruct (Hurl name Hk) as [_ [_ H]].
        -- destruct (Hsafe name sv Hi) as [_ [Hc _]]. simpl. lia.
      * intros fs. now apply (parsePart_selection_decoded fs k conf).
Qed.

Lemma decoded_parts_of_state (st : FilterState) :
  (forall k e, In (k, e) st -> interactedWith e = true ->
               exists conf, findConf k = Some conf /\
                            CodecSafe conf (value e) /\
                            forall name, In name (namesOfValue (value e)) ->
                                         urlName name) ->
  let parts := writeParts (fun n => n) st in
  let touched := filter (fun e => interactedWith (snd e)) st in
  Forall noBar parts /\
  (parts = [] <-> touched = []) /\
  forall fs,
    parseParts parts fs
    = fold_left (fun m p => assoc_set String.eqb m (fst p) (snd p))
                (map (fun p => (fst p, mkEntry (restored (value (snd p))) true))
                     touched)
                fs.
Proof.
  unfold writeParts.
  induction st as [|[k [v b]] st IH]; intros Hsafe; cbv zeta.
  - simpl. repeat split; auto.
  - assert (Hrest : forall k e, In (k, e) st -> interactedWith e = true ->
                                exists conf, findConf k = Some conf /\
                                             CodecSafe conf (value e) /\
                                             forall name,
                                               In name (namesOfValue (value e)) ->
                                               urlName name).
    { intros k' e' Hin. apply Hsafe. now right. }
    destruct (IH Hrest) as [Hnb [Hnil Hparse]]. cbv zeta in Hnb, Hnil, Hparse.
    cbn [flat_map filter fst snd interactedWith].
    destruct b.
    + destruct (Hsafe k (mkEntry v true) (or_introl eq_refl) eq_refl)
        as [conf [Hf [Hs Hurl]]]. cbn [value] in Hs, Hurl.
      destruct (writeEntry_decoded_safe k conf v Hf Hs Hurl)
        as [seg [Eseg [Hbar Hp]]].
      rewrite Eseg. cbn [app map fst snd value fold_left].
      split; [now constructor|]. split; [split; discriminate|].
      intros fs. cbn [parseParts]. rewrite Hp. apply Hparse.
    + assert (E : writeEntry (fun n => n) k (mkEntry v false) = [])
        by reflexivity.
      rewrite E. cbn [app]. repeat split; auto; apply Hnil.
Qed.

(* ------------------------------------------------------------------ *)
(** *** The startup load of a written state *)

Lemma writeEntry_nonempty (write : string -> string) (k : string)
      (e : FilterEntry) (seg : string) :
  In seg (writeEntry write k e) -> seg <> EmptyString.
Proof.
  unfold writeEntry.
  destruct (negb (interactedWith e)); [intros []|].
  destruct (findConf k) as [conf|] eqn:Hf; [|intros []].
  assert (Hk : k <> EmptyString).
  { destruct (findConf_key k conf Hf) as [Ek Hin]. subst k.
    simpl in Hin.
    repeat (destruct Hin as [<- | Hin]; [discriminate|]). destruct Hin. }
  assert (G : forall payload, (k ++ payload)%string <> EmptyString)
    by (intros payload; destruct k; [congruence | discriminate]).
  destruct (type conf).
  - destruct (multistate conf).
    + destruct (value e) as [names|selection|lo hi]; try (intros []; fail).
      cbv zeta. destruct (flat_map _ selection); [intros []|].
      intros [<- | []]. apply G.
    + destruct (value e) as [[|x names]|selection|lo hi]; try (intros []; fail).
      intros [<- | []]. apply G.
  - destruct (value e) as [names|selection|lo hi]; try (intros []; fail).
    intros [<- | []]. apply G.
Qed.

Lemma concat_nonempty (sep seg : string) (parts : list string) :
  seg <> EmptyString -> String.concat sep (seg :: parts) <> EmptyString.
Proof.
  intros H. destruct parts as [|p parts]; [exact H|].
  change (String.concat sep (seg :: p :: parts))
    with (seg ++ sep ++ String.concat sep (p :: parts))%string.
  destruct seg; [congruence | discriminate].
Qed.

Lemma validateEntry_available (this : Service) (valid : FilterState)
      (k : string) (conf : AdvFilterConfig) (v : FilterValue) :
  findConf k = Some conf -> CodecSafe conf v ->
  (forall name, In name (namesOfValue v) ->
                In name (getAvailableDropdownValues this conf)) ->
  validateEntry this valid (k, mkEntry (restored v) true)
  = obj_set valid k (mkEntry (restored v) true).
Proof.
  intros Hf Hs Hav. unfold validateEntry. rewrite Hf.
  assert (Hhas : forall name,
             In name (namesOfValue v) ->
             set_has String.eqb (getAvailableDropdownValues this conf) name
             = true).
  { intros name Hn. apply (set_has_In _ string_eqb_spec). now apply Hav. }
  destruct Hs as [lo hi Ht Hlo Hslo Hshi | names Ht Hm Hne Hsafe
                 | selection Ht Hm Hnd Hne Hsafe]; rewrite Ht;
    [reflexivity | |]; rewrite Hm; cbn [restored value]; cbv zeta.
  - cbn [namesOfValue] in Hhas. rewrite (filter_all _ names Hhas).
    destruct names; [congruence | reflexivity].
  - cbn [namesOfValue] in Hhas.
    assert (G : forall (entries acc : MultiStateSelection),
               (forall name, In name (obj_keys entries) ->
                             set_has String.eqb
                                     (getAvailableDropdownValues this conf)
                                     name = true /\ name <> "__proto__") ->
               fold_left
                 (fun acc p =>
                    if set_has String.eqb
                               (getAvailableDropdownValues this conf) (fst p)
                    then obj_assign acc (fst p) (snd p) else acc)
                 entries acc
               = fold_left (fun m p => assoc_set String.eqb m (fst p) (snd p))
                           entries acc).
    { induction entries as [|[name sv] entries IH]; intros acc H;
        [reflexivity|].
      cbn [fold_left fst snd].
      destruct (H name (or_introl eq_refl)) as [Hh Hproto].
      rewrite Hh. unfold obj_assign.
      apply String.eqb_neq in Hproto. rewrite Hproto.
      apply IH. intros nm Hn. apply H. now right. }
    rewrite G.
    2:{ intros name Hn. split; [now apply Hhas|].
        unfold obj_keys in Hn. apply in_map_iff in Hn.
        destruct Hn as [[nm sv] [<- Hi]].
        now destruct (Hsafe nm sv Hi) as [[_ [_ [_ [_ [Hproto _]]]]] _]. }
    change (fold_left (fun m p => assoc_set String.eqb m (fst p) (snd p))
                      (dropOff selection) [])
      with (assoc_of_pairs String.eqb (dropOff selection)).
    rewrite assoc_of_pairs_NoDup
      by (apply (NoDup_keys_filter _ selection Hnd)).
    destruct (dropOff selection); [congruence | reflexivity].
Qed.

(** The load of a decoded string the parser reads as the touched entries
    of a state whose names are all available keeps them all. *)
Lemma validate_restored (this : Service) (st : FilterState) :
  wellKeyed st ->
  (forall k e, In (k, e) st -> interactedWith e = true ->
               exists conf, findConf k = Some conf /\
                            CodecSafe conf (value e) /\
                            forall name,
                              In name (namesOfValue (value e)) ->
                              In name (getAvailableDropdownValues this conf)) ->
  fold_left (validateEntry this)
            (map (fun p => (fst p, mkEntry (restored (value (snd p))) true))
                 (filter (fun e => interactedWith (snd e)) st)) []
  = map (fun p => (fst p, mkEntry (restored (value (snd p))) true))
        (filter (fun e => interactedWith (snd e)) st).
Proof.
  intros Hwk Hsafe.
  set (touched := filter (fun e => interactedWith (snd e)) st).
  assert (Ht : forall k e, In (k, e) touched ->
                           exists conf, findConf k = Some conf /\
                                        CodecSafe conf (value e) /\
                                        forall name,
                                          In name (namesOfValue (value e)) ->
                                          In name
                                             (getAvailableDropdownValues
                                                this conf)).
  { intros k e Hin. unfold touched in Hin. apply filter_In in Hin.
    destruct Hin as [Hin Hi]. now apply (Hsafe k e). }
  assert (G : forall entries valid,
             (forall k e, In (k, e) entries ->
                          exists conf, findConf k = Some conf /\
                                       CodecSafe conf (value e) /\
                                       forall name,
                                         In name (namesOfValue (value e)) ->
                                         In name
                                            (getAvailableDropdownValues
                                               this conf)) ->
             fold_left (validateEntry this)
                       (map (fun p => (fst p,
                                       mkEntry (restored (value (snd p))) true))
                            entries) valid
             = fold_left (fun m p => assoc_set String.eqb m (fst p) (snd p))
                         (map (fun p => (fst p,
                                         mkEntry (restored (value (snd p)))
                                                 true))
                              entries) valid).
  { induction entries as [|[k e] entries IH]; intros valid H; [reflexivity|].
    cbn [map fold_left fst snd].
    destruct (H k e (or_introl eq_refl)) as [conf [Hf [Hs Hav]]].
    rewrite (validateEntry_available this valid k conf (value e) Hf Hs Hav).
    apply IH. intros k' e' Hin. apply (H k' e'). now right. }
  rewrite (G touched [] Ht).
  change (fold_left (fun m p => assoc_set String.eqb m (fst p) (snd p))
                    ?l [])
    with (assoc_of_pairs String.eqb l).
  apply assoc_of_pairs_NoDup.
  rewrite map_map. cbn [fst].
  now apply NoDup_keys_filter.
Qed.

(** X26. A filter state comes back from the URL as it was written, where
    the two decodings of the startup load let it.  Take a state with one
    entry per key whose touched entries the codec carries (safe integers
    for the numbers, neither [__proto__] nor a numeral among the names of
    a selection), whose
    names have none of [%], [,] and [|], and are values the loaded data
    offers.  Then the startup load of the string
    [generateCompactFiltersParam] wrote restores exactly the touched
    entries, in their order, the [off] entries of a selection left out;
    and no string is written exactly when no entry is touched. *)
Theorem url_restores_filters :
  forall (this : Service) (current st : FilterState),
    wellKeyed st ->
    (forall k e, In (k, e) st -> interactedWith e = true ->
                 exists conf,
                   findConf k = Some conf /\ CodecSafe conf (value e) /\
                   forall name,
                     In name (namesOfValue (value e)) ->
                     urlName name /\
                     In name (getAvailableDropdownValues this conf)) ->
    match generateCompactFiltersParam st with
    | Some s =>
        loadFilters this current (Some s)
        = map (fun p => (fst p, mkEntry (restored (value (snd p))) true))
              (filter (fun e => interactedWith (snd e)) st)
    | None => filter (fun e => interactedWith (snd e)) st = []
    end.
Proof.
  intros this current st Hwk Hsafe.
  assert (Hurl : forall k e, In (k, e) st -> interactedWith e = true ->
                             exists conf, findConf k = Some conf /\
                                          CodecSafe conf (value e) /\
                                          forall name,
                                            In name (namesOfValue (value e)) ->
                                            urlName name).
  { intros k e Hin Hi. destruct (Hsafe k e Hin Hi) as [conf [Hf [Hs Hn]]].
    exists conf. repeat split; auto; now apply Hn. }
  assert (Hav : forall k e, In (k, e) st -> interactedWith e = true ->
                            exists conf, findConf k = Some conf /\
                                         CodecSafe conf (value e) /\
                                         forall name,
                                           In name (namesOfValue (value e)) ->
                                           In name
                                              (getAvailableDropdownValues
                                                 this conf)).
  { intros k e Hin Hi. destruct (Hsafe k e Hin Hi) as [conf [Hf [Hs Hn]]].
    exists conf. repeat split; auto; now apply Hn. }
  assert (Hutf : forall k e, In (k, e) st -> interactedWith e = true ->
                             forall name, In name (namesOfValue (value e)) ->
                                          utf8 name = true).
  { intros k e Hin Hi name Hn.
    destruct (Hsafe k e Hin Hi) as [conf [_ [Hs _]]].
    destruct Hs as [lo hi Ht Hlo Hslo Hshi | names Ht Hm Hne Hnames
                   | selection Ht Hm Hnd Hne Hsel];
      cbn [namesOfValue] in Hn.
    - destruct Hn.
    - now apply Hnames.
    - unfold obj_keys in Hn. apply in_map_iff in Hn.
      destruct Hn as [[nm sv] [<- Hi']].
      now destruct (Hsel nm sv Hi') as [[Hu _] _]. }
  pose proof (writeParts_decoded st Hutf) as Hdec.
  destruct (decoded_parts_of_state st Hurl) as [Hnb [Hnil Hparse]].
  cbv zeta in Hnb, Hnil, Hparse.
  unfold generateCompactFiltersParam. rewrite writeParts_encode.
  destruct (writeParts encodeURIComponent st) as [|seg parts] eqn:E.
  - inversion Hdec as [Hraw|]. apply Hnil. now symmetry.
  - assert (Hseg : seg <> EmptyString).
    { assert (Hin : In seg (writeParts encodeURIComponent st))
        by (rewrite E; now left).
      unfold writeParts in Hin. apply in_flat_map in Hin.
      destruct Hin as [[k e] [_ Hin]].
      now apply (writeEntry_nonempty encodeURIComponent k e). }
    pose proof (concat_nonempty "|" seg parts Hseg) as Hne.
    unfold loadFilters, join.
    destruct (String.concat "|" (seg :: parts)) as [|c r] eqn:Ej;
      [congruence|].
    rewrite <- Ej.
    rewrite (decode_concat "|" _ _ eq_refl Hdec).
    change (String.concat "|" (writeParts (fun n => n) st))
      with (join "|" (writeParts (fun n => n) st)).
    rewrite parse_join by exact Hnb.
    rewrite Hparse.
    change (fold_left (fun m p => assoc_set String.eqb m (fst p) (snd p))
                      ?l [])
      with (assoc_of_pairs String.eqb l).
    rewrite assoc_of_pairs_NoDup
      by (rewrite map_map; cbn [fst]; now apply NoDup_keys_filter).
    now apply validate_restored.
Qed.

Lemma url_restores_filters_witness :
  let st := [("type", mkEntry (VNames ["Mek"]) true);
             ("bv", mkEntry (VRange 100 2500) true);
             ("source", mkEntry (VNames []) false);
             ("componentName",
              mkEntry (VSelection [("AC/20", mkSel st_and 1);
                                   ("Medium Laser", mkSel st_or 2);
                                   ("Narc", mkSel st_off 1)]) true)] in
  generateCompactFiltersParam st
  = Some "type:Mek|bv:100-2500|componentName:AC%2F20.,Medium%20Laser~2" /\
  loadFilters Example.service []
              (Some "type:Mek|bv:100-2500|componentName:AC%2F20.,Medium%20Laser~2")
  = [("type", mkEntry (VNames ["Mek"]) true);
     ("bv", mkEntry (VRange 100 2500) true);
     ("componentName",
      mkEntry (VSelection [("AC/20", mkSel st_and 1);
                           ("Medium Laser", mkSel st_or 2)]) true)].
Proof.
  intros st.
  assert (Hgen : generateCompactFiltersParam st
                 = Some "type:Mek|bv:100-2500|componentName:AC%2F20.,Medium%20Laser~2")
    by reflexivity.
  split; [exact Hgen|].
  assert (Hwk : wellKeyed st).
  { unfold wellKeyed. simpl. repeat constructor; simpl; intuition discriminate. }
  assert (Hsafe : forall k e, In (k, e) st -> interactedWith e = true ->
                              exists conf,
                                findConf k = Some conf /\
                                CodecSafe conf (value e) /\
                                forall name,
                                  In name (namesOfValue (value e)) ->
                                  urlName name /\
                                  In name (getAvailableDropdownValues
                                             Example.service conf)).
  { intros k e [H | [H | [H | [H | []]]]] Ht; inversion H; subst; clear H;
      try discriminate Ht.
    - exists (dropdown "type"). split; [reflexivity|]. split.
      + apply safe_names; try reflexivity; [discriminate|].
        intros name [<- | []]; split; try reflexivity; discriminate.
      + intros name [<- | []]. split; [repeat split|]. now left.
    - exists (range "bv"). split; [reflexivity|]. split.
      + apply safe_range; [reflexivity | discriminate | |];
          unfold safeInteger, Num.MAX_SAFE_INTEGER; lia.
      + intros name [].
    - exists (mkConf "componentName" DROPDOWN None false None true true).
      split; [reflexivity|]. split.
      + apply safe_selection; try reflexivity.
        * simpl. repeat constructor; simpl; intuition discriminate.
        * discriminate.
        * intros name sv [H | [H | []]]; inversion H; subst; clear H;
            (split; [repeat split; discriminate|]); simpl;
            unfold safeInteger, Num.MAX_SAFE_INTEGER;
            repeat split; try lia; try reflexivity; intros; lia.
      + intros name [<- | [<- | []]]; (split; [repeat split|]);
          [now left | right; now left]. }
  pose proof (url_restores_filters Example.service [] st Hwk Hsafe) as H.
  rewrite Hgen in H. exact H.
Defined.

(* ================================================================== *)
(** ** The battle value filter after a change of skills *)
(* ================================================================== *)

Section RecalculateFacts.
Variable calculateAdjustedBV : Z -> Z -> Z -> Z.
Variable this : Service.

(** A touched [bv] interval whose lower bound is above its upper bound
    keeps no unit. *)
Lemma inverted_bv_keeps_nothing (units : list Unit) (st : FilterState)
      (lo hi : Z) :
  obj_get st "bv" = Some (mkEntry (VRange lo hi) true) -> (hi < lo)%Z ->
  applyFilters calculateAdjustedBV this units st = [].
Proof.
  intros Hbv Hinv.
  destruct (applyFilters calculateAdjustedBV this units st) as [|u l] eqn:E;
    [reflexivity|].
  exfalso.
  assert (Hin : In u (applyFilters calculateAdjustedBV this units st))
    by (rewrite E; now left).
  apply In_applyFilters in Hin. destruct Hin as [_ [_ Hall]].
  assert (Hconf : In (range "bv") ADVANCED_FILTERS) by (simpl; tauto).
  specialize (Hall (range "bv") Hconf). revert Hall.
  unfold standardKeeps, applyStandardFilter.
  cbn [external key range type multistate]. rewrite Hbv.
  cbn [interactedWith negb value]. cbv zeta.
  change (String.eqb "bv" "bv") with true. cbv iota. cbn [filter].
  destruct ((lo <=? getAdjustedBV calculateAdjustedBV this u)%Z
            && (getAdjustedBV calculateAdjustedBV this u <=? hi)%Z) eqn:Ek;
    [|discriminate].
  apply andb_true_iff in Ek. destruct Ek as [E1 E2].
  apply Z.leb_le in E1. apply Z.leb_le in E2. lia.
Qed.

(** X27. What [recalculateBVRange] leaves of a touched [bv] interval.
    The cache holds the range of the positive adjusted values, and each
    bound of the interval is cut on its own: the lower bound is raised to
    the new minimum, the upper bound lowered to the new maximum, so the
    interval does not grow; the other entries of the state are as they
    were.  The result is an interval (lower bound at most upper bound)
    exactly when the old one was and met the new range.  When it did not,
    the stored lower bound is above the stored upper bound, the interval
    does not fit the new range, and the filter keeps no unit. *)
Theorem recalculated_bv_filter_cut_at_each_bound :
  forall (baseUnits : list Unit) (st : FilterState) (lo hi bv0 : Z)
         (rest : list Z),
    obj_get st "bv" = Some (mkEntry (VRange lo hi) true) ->
    filter (fun b => (0 <? b)%Z)
           (map (getAdjustedBV calculateAdjustedBV this) (units this))
    = bv0 :: rest ->
    let min := minOf bv0 rest in
    let max := maxOf bv0 rest in
    let lo' := Z.max min lo in
    let hi' := Z.min max hi in
    let st' := recalculateBVRangeState calculateAdjustedBV this baseUnits st in
    obj_get (recalculateBVRange calculateAdjustedBV this) "bv"
    = Some (min, max) /\
    (exists touched,
        obj_get st' "bv" = Some (mkEntry (VRange lo' hi') touched)) /\
    (forall k, k <> "bv" -> obj_get st' k = obj_get st k) /\
    (min <= lo' /\ hi' <= max /\ lo <= lo' /\ hi' <= hi)%Z /\
    ((lo' <= hi')%Z <-> (lo <= hi /\ lo <= max /\ min <= hi)%Z) /\
    (cacheWellFormed (totalRangesCache this) -> (hi' < lo')%Z ->
     forall units, applyFilters calculateAdjustedBV this units st' = []).
Proof.
  intros baseUnits st lo hi bv0 rest Hbv Hvals. cbv zeta.
  pose proof (minOf_le bv0 rest) as Hmin.
  pose proof (maxOf_ge bv0 rest) as Hmax.
  assert (Hstored :
            exists touched,
              obj_get (recalculateBVRangeState calculateAdjustedBV this
                                               baseUnits st) "bv"
              = Some (mkEntry (VRange (Z.max (minOf bv0 rest) lo)
                                      (Z.min (maxOf bv0 rest) hi)) touched)
              /\ (cacheWellFormed (totalRangesCache this) ->
                  (Z.min (maxOf bv0 rest) hi < Z.max (minOf bv0 rest) lo)%Z ->
                  touched = true)).
  { unfold recalculateBVRangeState. rewrite Hvals, Hbv. cbn [fst snd].
    destruct (negb (Z.max (minOf bv0 rest) lo =? lo)%Z
              || negb (Z.min (maxOf bv0 rest) hi =? hi)%Z) eqn:E.
    - unfold setFilter.
      change (findConf "bv") with (Some (range "bv")). cbv iota.
      eexists. split; [rewrite obj_get_set; reflexivity|].
      intros Hc Hinv. unfold setFilterInteracted. cbn [type range key].
      destruct (advOptionsRangeAt calculateAdjustedBV this baseUnits st "bv")
        as [o|] eqn:Eo; [|reflexivity].
      unfold advOptionsRangeAt in Eo.
      destruct (negb (isDataReady (dataService this))); [discriminate|].
      change (findConf "bv") with (Some (range "bv")) in Eo.
      cbn [type range] in Eo. inversion Eo as [Ho].
      pose proof (options_interval calculateAdjustedBV this baseUnits st
                                   (range "bv") Hc) as Hint.
      cbv zeta in Hint.
      apply negb_true_iff. apply andb_false_iff.
      destruct (Z.eqb_spec (Z.max (minOf bv0 rest) lo)
                           (fst (options
                                   (advOptionsRange calculateAdjustedBV this
                                                    baseUnits st
                                                    (range "bv")))))
        as [E1|E1]; [|now left].
      right. apply Z.eqb_neq. lia.
    - apply orb_false_iff in E. destruct E as [E1 E2].
      apply negb_false_iff, Z.eqb_eq in E1.
      apply negb_false_iff, Z.eqb_eq in E2.
      exists true. split; [now rewrite E1, E2 | reflexivity]. }
  split; [unfold recalculateBVRange; rewrite Hvals; now rewrite obj_get_set|].
  split; [destruct Hstored as [touched [H _]]; now exists touched|].
  split.
  { intros k Hk. unfold recalculateBVRangeState. rewrite Hvals, Hbv.
    cbn [fst snd].
    destruct (negb (Z.max (minOf bv0 rest) lo =? lo)%Z
              || negb (Z.min (maxOf bv0 rest) hi =? hi)%Z); [|reflexivity].
    unfold setFilter.
    change (findConf "bv") with (Some (range "bv")). cbv iota.
    rewrite obj_get_set.
    destruct (String.eqb "bv" k) eqn:Ek; [|reflexivity].
    apply String.eqb_eq in Ek. congruence. }
  split; [lia|]. split; [lia|].
  intros Hc Hinv units.
  destruct Hstored as [touched [Hget Ht]]. rewrite (Ht Hc Hinv) in Hget.
  now apply (inverted_bv_keeps_nothing units _ _ _ Hget).
Qed.

End RecalculateFacts.

Lemma recalculated_bv_filter_cut_at_each_bound_witness :
  let this := mkService Example.data 3 5 [("bv", (50, 500)%Z)] in
  let st := [("bv", mkEntry (VRange 600 700) true)] in
  let st' := recalculateBVRangeState Example.adjust this (units this) st in
  obj_get (recalculateBVRange Example.adjust this) "bv" = Some (55, 555)%Z /\
  (exists touched,
      obj_get st' "bv" = Some (mkEntry (VRange 600 555) touched)) /\
  applyFilters Example.adjust this (units this) st' = [].
Proof.
  intros this st st'.
  destruct (recalculated_bv_filter_cut_at_each_bound
              Example.adjust this (units this) st 600 700 555 [55; 88]%Z
              eq_refl eq_refl) as [H1 [H2 [_ [_ [_ H3]]]]].
  split; [exact H1|]. split; [exact H2|].
  apply H3; [intros k r H | reflexivity].
  unfold this, obj_get in H. cbn [totalRangesCache assoc_get] in H.
  destruct (String.eqb "bv" k); [|discriminate H].
  injection H as <-. cbn [fst snd]. lia.
Defined.

(** X28. Every range in the cache of total ranges has its lower bound at
    most its upper bound, and both writers of the cache keep it so:
    [calculateTotalRanges], which sets every range filter, and
    [recalculateBVRange], which sets [bv] after a change of skills. *)
Theorem range_cache_stays_well_formed :
  forall (calculateAdjustedBV : Z -> Z -> Z -> Z) (this : Service),
    cacheWellFormed (totalRangesCache this) ->
    cacheWellFormed (calculateTotalRanges calculateAdjustedBV this) /\
    cacheWellFormed (recalculateBVRange calculateAdjustedBV this).
Proof.
  intros calculateAdjustedBV this H. split.
  - now apply calculateTotalRanges_wellFormed.
  - now apply recalculateBVRange_wellFormed.
Qed.

Lemma range_cache_stays_well_formed_witness :
  cacheWellFormed (totalRangesCache Example.service) /\
  cacheWellFormed (calculateTotalRanges Example.adjust Example.service) /\
  cacheWellFormed (recalculateBVRange Example.adjust Example.service).
Proof.
  assert (Hc : cacheWellFormed (totalRangesCache Example.service)).
  { intros k r H. discriminate H. }
  split; [exact Hc|].
  exact (range_cache_stays_well_formed Example.adjust Example.service Hc).
Defined.
